(** * Kabaddi text-to-SQL backend: SQL extraction and the answer pipeline

    Shallow embedding of [backend/main.py]:
    - [clean_sql_query] with the five regular expressions it uses, run by a
      backtracking matcher that follows the priority order of Python's [re]
      (alternatives left to right, greedy before lazy);
    - [KabaddiSystem.answer], the request pipeline, over a trace of the calls
      made to the language model and to the SQL tool;
    - the endpoints [ask] and [health] with the start-up of the system.

    Python strings are sequences of Unicode code points; a text is a list of
    code points, written with [str] from an ASCII literal. *)

From Stdlib Require Import String Ascii.
From Stdlib Require Import List NArith Arith Bool Lia.
Import ListNotations.

(* ------------------------------------------------------------------ *)
(** ** Text *)

Definition text := list N.

Definition str (s : string) : text :=
  List.map N_of_ascii (list_ascii_of_string s).

Definition chr (a : ascii) : N := N_of_ascii a.

(** [str.isspace] and the [\s] class of a [str] pattern decide whitespace
    with the same table of code points. *)
Definition isspace (c : N) : bool :=
  ((9 <=? c) && (c <=? 13) || (28 <=? c) && (c <=? 32)
   || (c =? 133) || (c =? 160) || (c =? 5760)
   || (8192 <=? c) && (c <=? 8202)
   || (c =? 8232) || (c =? 8233) || (c =? 8239) || (c =? 8287)
   || (c =? 12288))%N.

(** Lowercase mapping as [re.IGNORECASE] sees it on the code points whose
    image is an ASCII letter: A-Z, U+0130 and U+212A. *)
Definition sre_lower (c : N) : N :=
  (if (65 <=? c) && (c <=? 90) then c + 32
   else if c =? 304 then 105
   else if c =? 8490 then 107
   else c)%N.

(** A pattern literal [l] under [re.IGNORECASE]: the subject character is
    lowered and compared with the lowered literal and with its equivalents
    ([s] and U+017F LONG S are the only pair met by the patterns below). *)
Definition ignorecase_eq (l c : N) : bool :=
  ((sre_lower c =? sre_lower l)
   || ((sre_lower l =? 115) && (c =? 383)))%N.

(** The longest prefix of characters of a class, and what follows it. *)
Fixpoint take_class (p : N -> bool) (s : text) : text :=
  match s with
  | c :: t => if p c then c :: take_class p t else []
  | [] => []
  end.

Fixpoint skip_class (p : N -> bool) (s : text) : text :=
  match s with
  | c :: t => if p c then skip_class p t else s
  | [] => []
  end.

Definition lstrip (s : text) : text := skip_class isspace s.

Definition rstrip (s : text) : text := rev (lstrip (rev s)).

(** [str.strip()] *)
Definition strip (s : text) : text := rstrip (lstrip s).

(* ------------------------------------------------------------------ *)
(** ** Regular expressions

    Only the constructs the source's patterns use: character classes,
    sequence, ordered alternation, greedy and lazy repetition of a character
    class, the anchor [^] and one capturing group. *)

Inductive regex : Type :=
| Eps : regex
| Bol : regex                          (* ^ without re.MULTILINE *)
| Chr : (N -> bool) -> regex           (* one character of a class *)
| Seq : regex -> regex -> regex
| Alt : regex -> regex -> regex        (* a|b, a tried first *)
| Star : (N -> bool) -> regex          (* c*  greedy *)
| StarLazy : (N -> bool) -> regex      (* c*? lazy *)
| Grp : regex -> regex.                (* ( ... ), group 1 *)

Definition Lit (c : N) : regex := Chr (N.eqb c).
Definition LitI (c : N) : regex := Chr (ignorecase_eq c).
Definition Opt (r : regex) : regex := Alt r Eps.        (* r?  greedy *)
Definition Plus (p : N -> bool) : regex := Seq (Chr p) (Star p).

Fixpoint seq_of (rs : list regex) : regex :=
  match rs with
  | [] => Eps
  | r :: rs' => Seq r (seq_of rs')
  end.

Fixpoint alt_of (r : regex) (rs : list regex) : regex :=
  match rs with
  | [] => r
  | r' :: rs' => Alt r (alt_of r' rs')
  end.

(** A literal word, case-sensitive and under [re.IGNORECASE]. *)
Definition word (s : string) : regex := seq_of (List.map Lit (str s)).
Definition wordI (s : string) : regex := seq_of (List.map LitI (str s)).

Definition any_char : N -> bool := fun _ => true.      (* . under re.DOTALL *)

(** Matcher state: position in the subject, what is left of it, group 1. *)
Record mstate : Type := MState {
  mpos : nat;
  mrest : text;
  mgroup : option text
}.

Section Matcher.
Variable A : Type.

Fixpoint star_greedy (p : N -> bool) (pos : nat) (s : text) (g : option text)
         (k : mstate -> option A) : option A :=
  match s with
  | c :: t =>
      if p c then
        match star_greedy p (S pos) t g k with
        | Some x => Some x
        | None => k (MState pos s g)
        end
      else k (MState pos s g)
  | [] => k (MState pos s g)
  end.

Fixpoint star_lazy (p : N -> bool) (pos : nat) (s : text) (g : option text)
         (k : mstate -> option A) : option A :=
  match k (MState pos s g) with
  | Some x => Some x
  | None =>
      match s with
      | c :: t => if p c then star_lazy p (S pos) t g k else None
      | [] => None
      end
  end.

(** [rmatch r st k]: match [r] at [st], then the rest of the pattern [k];
    [None] makes the matcher backtrack into the last choice point. *)
Fixpoint rmatch (r : regex) (st : mstate) (k : mstate -> option A)
  : option A :=
  match r with
  | Eps => k st
  | Bol => if Nat.eqb (mpos st) 0 then k st else None
  | Chr p =>
      match mrest st with
      | c :: t => if p c then k (MState (S (mpos st)) t (mgroup st)) else None
      | [] => None
      end
  | Seq a b => rmatch a st (fun st' => rmatch b st' k)
  | Alt a b =>
      match rmatch a st k with
      | Some x => Some x
      | None => rmatch b st k
      end
  | Star p => star_greedy p (mpos st) (mrest st) (mgroup st) k
  | StarLazy p => star_lazy p (mpos st) (mrest st) (mgroup st) k
  | Grp a =>
      rmatch a st (fun st' =>
        k (MState (mpos st') (mrest st')
             (Some (firstn (mpos st' - mpos st) (mrest st)))))
  end.
End Matcher.

Arguments star_greedy {A} p pos s g k.
Arguments star_lazy {A} p pos s g k.
Arguments rmatch {A} r st k.

(** One match attempt at a position of the subject. *)
Definition match_at (r : regex) (pos : nat) (s : text) : option mstate :=
  rmatch r (MState pos s None) Some.

(** The scanning loop shared by [re.sub] and [re.findall]: left to right,
    non-overlapping matches; a character no match starts at is passed over.
    An item is a passed character or a match (its text and end state).
    After an empty match the scan moves on by one character; none of the
    patterns scanned in this program has an empty match
    ([scanned_patterns_consume]). *)
Inductive item : Type :=
| Skip : N -> item
| Hit : text -> mstate -> item.

Fixpoint scan_loop (fuel : nat) (r : regex) (pos : nat) (s : text)
  : list item :=
  match fuel with
  | O => []
  | S fuel' =>
      let step :=
        match s with
        | [] => []
        | c :: t => Skip c :: scan_loop fuel' r (S pos) t
        end in
      match match_at r pos s with
      | Some m =>
          if Nat.eqb (mpos m) pos
          then Hit [] m :: step
          else Hit (firstn (mpos m - pos) s) m
                 :: scan_loop fuel' r (mpos m) (mrest m)
      | None => step
      end
  end.

(** The scan resumed at a position, with the fuel its text needs. *)
Definition scan_at (r : regex) (pos : nat) (s : text) : list item :=
  scan_loop (S (length s)) r pos s.

Definition scan (r : regex) (s : text) : list item := scan_at r 0 s.

Definition expand (repl : mstate -> text) (i : item) : text :=
  match i with
  | Skip c => [c]
  | Hit _ m => repl m
  end.

Definition hits (i : item) : list text :=
  match i with
  | Skip _ => []
  | Hit w _ => [w]
  end.

(** [re.sub(r, repl, s)]; [repl] expands the replacement template. *)
Definition re_sub (r : regex) (repl : mstate -> text) (s : text) : text :=
  flat_map (expand repl) (scan r s).

(** [re.findall(r, s)] for a pattern without groups. *)
Definition re_findall (r : regex) (s : text) : list text :=
  flat_map hits (scan r s).

(** [re.search(r, s)]: the match at the leftmost position that has one. *)
Fixpoint search_from (r : regex) (pos : nat) (s : text) : option mstate :=
  match match_at r pos s with
  | Some m => Some m
  | None =>
      match s with
      | [] => None
      | _ :: t => search_from r (S pos) t
      end
  end.

Definition re_search (r : regex) (s : text) : option mstate :=
  search_from r 0 s.

(** [m.group(1)], and the template [\1] (empty when the group took no part). *)
Definition group1 (m : mstate) : text :=
  match mgroup m with
  | Some g => g
  | None => []
  end.

(* ------------------------------------------------------------------ *)
(** ** [clean_sql_query] *)

Definition ws : regex := Star isspace.                       (* \s* *)

(** [```(?:sql|SQL|SQLQuery|mysql|postgresql)?\s*(.*?)\s*```], re.DOTALL *)
Definition block_pattern : regex :=
  seq_of [ word "```";
           Opt (alt_of (word "sql")
                  [word "SQL"; word "SQLQuery"; word "mysql";
                   word "postgresql"]);
           ws; Grp (StarLazy any_char); ws; word "```" ].

(** [^(?:SQL\s*Query|SQLQuery|MySQL|PostgreSQL|SQL)\s*:\s*], re.IGNORECASE *)
Definition prefix_pattern : regex :=
  seq_of [ Bol;
           alt_of (seq_of [wordI "SQL"; ws; wordI "Query"])
             [wordI "SQLQuery"; wordI "MySQL"; wordI "PostgreSQL";
              wordI "SQL"];
           ws; Lit (chr ":"); ws ].

(** [(SELECT.*?;)], re.IGNORECASE | re.DOTALL *)
Definition sql_statement_pattern : regex :=
  Grp (seq_of [wordI "SELECT"; StarLazy any_char; Lit (chr ";")]).

(** [\s+] *)
Definition space_run : regex := Plus isspace.

Definition strip_fences (t : text) : text := re_sub block_pattern group1 t.
Definition strip_label (t : text) : text :=
  re_sub prefix_pattern (fun _ => []) t.
Definition collapse_spaces (t : text) : text :=
  re_sub space_run (fun _ => str " ") (strip t).

Definition first_statement (t : text) : text :=
  match re_search sql_statement_pattern t with
  | Some m => group1 m
  | None => t
  end.

Definition clean_sql_query (t : text) : text :=
  let t := strip_fences t in
  let t := strip_label t in
  let t := first_statement t in
  collapse_spaces t.

(** Specification-side reading of [re.sub(r'\s+', ' ', t)]: every maximal
    run of whitespace becomes one space ([in_run]: the previous character was
    whitespace).  [collapse_at_squeeze] below proves the scan computes it. *)
Fixpoint squeeze (in_run : bool) (t : text) : text :=
  match t with
  | [] => []
  | c :: t' =>
      if isspace c
      then if in_run then squeeze true t' else 32%N :: squeeze true t'
      else c :: squeeze false t'
  end.

(* ------------------------------------------------------------------ *)
(** ** The prompt of the SQL-generation step *)

Definition template_head : string :=
  "
You are a SQLite expert. Given a natural language input question, perform the following steps:

1. Understand the user's intent, even if the input contains typos, grammar issues, or miswritten names.
2. Generate a syntactically correct and executable **SQLite** query.
3. Use only the tables described below. Do not hallucinate or assume additional tables or columns.
4. Limit results to a maximum of ".

Definition template_after_top_k : string :=
  ", if applicable.

## Matching Rules:
- All string/text comparisons must be **case-insensitive**.
- Use `LOWER(column_name) = LOWER('value')` or `COLLATE NOCASE` to enforce case-insensitivity.
- Handle minor typos and fuzzy name matches to infer intent.

## Allowed Tables:
".

Definition template_after_table_info : string :=
  "


## Output Formatting Rules:
- Do not explain the SQL query or add extra information beyond the results.
- Do not assume data not present in the database.
- If an error occurs, clearly indicate the SQL issue without guessing results.
- Format answers only based on the query output.

## SQL Query Formatting:
- Write syntactically correct SQL queries.
- If combining multiple SELECTs with `UNION` or `UNION ALL`, **do NOT place `LIMIT` clauses inside individual SELECT statements**.
- Instead, apply a single `LIMIT` clause **after the entire UNION expression**
- Avoid SQL syntax errors related to clause ordering.

Question: ".

Definition template_tail : string :=
  "
".

(** [SYSTEM_PROMPT_TEMPLATE.format(input=.., table_info=.., top_k=..)] *)
Definition SYSTEM_PROMPT_TEMPLATE (input table_info top_k : text) : text :=
  str template_head ++ top_k ++ str template_after_top_k ++ table_info
    ++ str template_after_table_info ++ input ++ str template_tail.

(* ------------------------------------------------------------------ *)
(** ** External calls and their trace

    The language model and the SQL tool are outside the program.  A run is
    described over the trace of the calls made so far, each with its outcome
    (a returned text, or the exception it raised); what a collaborator
    answers may depend on that trace, so two calls with the same argument
    need not agree. *)

Definition exn := text.

Inductive call : Type :=
| Generate : text -> call                      (* question *)
| Execute : text -> call                       (* SQL text *)
| Rephrase : text -> text -> text -> call.     (* question, query, result *)

Definition event : Type := (call * (exn + text))%type.
Definition trace := list event.

Definition raised (ev : event) : Prop :=
  match snd ev with
  | inl _ => True
  | inr _ => False
  end.

(** Computations that extend the trace and return or raise. *)
Definition M (A : Type) : Type := trace -> trace * (exn + A).

Definition ret {A} (a : A) : M A := fun tr => (tr, inr a).

Definition bind {A B} (m : M A) (f : A -> M B) : M B :=
  fun tr =>
    match m tr with
    | (tr', inr a) => f a tr'
    | (tr', inl e) => (tr', inl e)
    end.

(** [RunnableParallel]: both branches are submitted before either result is
    read, so the second runs even when the first raises; the results are then
    read in key order.  The branches are sequenced here in key order. *)
Definition parallel {A B} (m1 : M A) (m2 : M B) : M (A * B) :=
  fun tr =>
    let (tr1, r1) := m1 tr in
    let (tr2, r2) := m2 tr1 in
    match r1, r2 with
    | inr a, inr b => (tr2, inr (a, b))
    | inl e, _ => (tr2, inl e)
    | inr _, inl e => (tr2, inl e)
    end.

(** [try: ... except Exception: ...] *)
Definition try_except {A} (m : M A) (handler : exn -> M A) : M A :=
  fun tr =>
    match m tr with
    | (tr', inr a) => (tr', inr a)
    | (tr', inl e) => handler e tr'
    end.

Notation "x <- m ;; f" := (bind m (fun x => f))
  (at level 61, m at next level, right associativity).

(** The events a run added to the trace it started from. *)
Definition new_events (before after : trace) : trace :=
  skipn (length before) after.

(** One external call: ask the collaborator, record call and outcome. *)
Definition invoke (respond : trace -> exn + text) (c : call) : M text :=
  fun tr => let r := respond tr in (tr ++ [(c, r)], r).

(* ------------------------------------------------------------------ *)
(** ** Response schemas *)

Record UrlDict : Type := { url : text }.

Module QueryData.
Record t : Type := {
  answer : text;
  query : text;
  tokens_used : nat;
  raw_results : list UrlDict
}.
End QueryData.

Module QueryResponse.
Record t : Type := {
  status : text;
  data : QueryData.t;
  timestamp : text
}.
End QueryResponse.

(** The dictionary the chain of [answer] produces. *)
Module ChainOutput.
Record t : Type := {
  answer : text;
  query : text;
  raw_results : text
}.
End ChainOutput.

(** [https?://[^\s|]+] *)
Definition url_char (c : N) : bool := negb (isspace c || (c =? 124)%N).

Definition url_pattern : regex :=
  seq_of [ word "http"; Opt (Lit (chr "s")); word "://"; Plus url_char ].

(* ------------------------------------------------------------------ *)
(** ** [KabaddiSystem] *)

Module KabaddiSystem.

(** The attributes [answer] reads.  [encoder] stands for tiktoken's
    [cl100k_base] encoding and [now] for the clock. *)
Record t : Type := {
  table_info : text;
  generate_query : trace -> text -> exn + text;
  execute_query : trace -> text -> exn + text;
  rephrase_answer : trace -> text -> text -> text -> exn + text;
  encoder : text -> list nat;
  now : trace -> text
}.

Definition prompt_str (self : t) (question : text) : text :=
  SYSTEM_PROMPT_TEMPLATE question (table_info self) (str "5").

Definition call_generate (self : t) (question : text) : M text :=
  invoke (fun tr => generate_query self tr question) (Generate question).

Definition call_execute (self : t) (sql : text) : M text :=
  invoke (fun tr => execute_query self tr sql) (Execute sql).

Definition call_rephrase (self : t) (question sql result : text) : M text :=
  invoke (fun tr => rephrase_answer self tr question sql result)
         (Rephrase question sql result).

(** The chain built in [answer]: [raw_query] and [query] are two entries
    of one [assign], each with its own run of [generate_query]. *)
Definition chain (self : t) (question : text) : M ChainOutput.t :=
  x <- parallel (call_generate self question)
                (generated <- call_generate self question ;;
                 ret (clean_sql_query generated)) ;;
  let raw_query := fst x in
  let query := snd x in
  result <- call_execute self query ;;
  answer <- match strip result with
            | [] => ret (str "No data available.")
            | _ :: _ => call_rephrase self question query result
            end ;;
  ret {| ChainOutput.answer := answer;
         ChainOutput.query := query;
         ChainOutput.raw_results := result |}.

Definition success_response (self : t) (input_tokens : nat)
           (response : ChainOutput.t) (tr : trace) : QueryResponse.t :=
  let output_tokens := length (encoder self (ChainOutput.answer response)) in
  let total_tokens := input_tokens + output_tokens in
  let urls := re_findall url_pattern (ChainOutput.answer response) in
  let url_dicts := List.map (fun u => {| url := u |}) urls in
  {| QueryResponse.status := str "success";
     QueryResponse.data :=
       {| QueryData.answer := ChainOutput.answer response;
          QueryData.query := ChainOutput.query response;
          QueryData.tokens_used := total_tokens;
          QueryData.raw_results := url_dicts |};
     QueryResponse.timestamp := now self tr |}.

Definition error_response (self : t) (input_tokens : nat) (tr : trace)
  : QueryResponse.t :=
  {| QueryResponse.status := str "error";
     QueryResponse.data :=
       {| QueryData.answer := [];
          QueryData.query := [];
          QueryData.tokens_used := input_tokens;
          QueryData.raw_results := [] |};
     QueryResponse.timestamp := now self tr |}.

Definition answer (self : t) (question : text) : M QueryResponse.t :=
  let input_tokens := length (encoder self (prompt_str self question)) in
  try_except
    (response <- chain self question ;;
     fun tr => (tr, inr (success_response self input_tokens response tr)))
    (fun e tr => (tr, inr (error_response self input_tokens tr))).

End KabaddiSystem.

(* ------------------------------------------------------------------ *)
(** ** What a regular expression matches

    [matches r pos w g g']: at position [pos] the expression [r] can match
    the word [w], turning group 1 from [g] into [g']. *)

Inductive matches : regex -> nat -> text -> option text -> option text -> Prop :=
| M_Eps : forall pos g, matches Eps pos [] g g
| M_Bol : forall g, matches Bol 0 [] g g
| M_Chr : forall p c pos g, p c = true -> matches (Chr p) pos [c] g g
| M_Seq : forall a b pos w1 w2 g g1 g2,
    matches a pos w1 g g1 ->
    matches b (pos + length w1) w2 g1 g2 ->
    matches (Seq a b) pos (w1 ++ w2) g g2
| M_AltL : forall a b pos w g g', matches a pos w g g' ->
                                  matches (Alt a b) pos w g g'
| M_AltR : forall a b pos w g g', matches b pos w g g' ->
                                  matches (Alt a b) pos w g g'
| M_Star : forall p pos w g, forallb p w = true -> matches (Star p) pos w g g
| M_StarLazy : forall p pos w g, forallb p w = true ->
                                 matches (StarLazy p) pos w g g
| M_Grp : forall a pos w g g', matches a pos w g g' ->
                               matches (Grp a) pos w g (Some w).

(** [w] occurs in [s] as a contiguous piece. *)
Definition occurs_in (w s : text) : Prop :=
  exists pre post, s = pre ++ w ++ post.

(** A word of the pattern [(SELECT.*?;)]: the six letters in any case, then
    anything, then a semicolon. *)
Definition select_statement (w : text) : Prop :=
  exists sel body,
    w = sel ++ body ++ [chr ";"]
    /\ Forall2 (fun l c => ignorecase_eq l c = true) (str "SELECT") sel.

(** The text holds no piece that starts with SELECT and ends with [;]. *)
Definition no_select_statement (s : text) : Prop :=
  forall w, select_statement w -> ~ occurs_in w s.

(** The text starts with the token SELECT, compared as [re.IGNORECASE]
    does. *)
Definition starts_with_select (s : text) : Prop :=
  exists sel rest,
    s = sel ++ rest
    /\ Forall2 (fun l c => ignorecase_eq l c = true) (str "SELECT") sel.

(** How many times a character occurs in a text. *)
Definition count_char (c : N) (s : text) : nat :=
  length (filter (N.eqb c) s).

Definition ends_with_semicolon (s : text) : Prop :=
  exists body, s = body ++ [chr ";"].

(** The two schemes of [url_pattern]. *)
Definition url_scheme (sch : text) : Prop :=
  sch = str "http://" \/ sch = str "https://".

(** A URL starts at the head of [s]: a scheme and at least one character
    that is neither whitespace nor a pipe. *)
Definition url_starts (s : text) : Prop :=
  exists sch c rest, url_scheme sch /\ s = sch ++ c :: rest
                     /\ url_char c = true.

(** [url_scan s us]: reading [s] left to right, [us] are the URLs met, each
    running up to the next whitespace, pipe or the end of the text; reading
    resumes after a URL. *)
Inductive url_scan : text -> list text -> Prop :=
| US_nil : url_scan [] []
| US_skip : forall c t us,
    ~ url_starts (c :: t) -> url_scan t us -> url_scan (c :: t) us
| US_url : forall sch body t us,
    url_scheme sch -> body <> [] -> forallb url_char body = true ->
    (forall c t', t = c :: t' -> url_char c = false) ->
    url_scan t us ->
    url_scan (sch ++ body ++ t) ((sch ++ body) :: us).

Definition nl : string := String (ascii_of_nat 10) EmptyString.

(** A literal word at the head of a text, each letter compared with [f];
    what follows the word when it is there. *)
Fixpoint strip_word (f : N -> N -> bool) (w s : text) : option text :=
  match w with
  | [] => Some s
  | l :: w' =>
      match s with
      | c :: t => if f l c then strip_word f w' t else None
      | [] => None
      end
  end.

Definition starts_with (w s : text) : bool :=
  match strip_word N.eqb w s with
  | Some _ => true
  | None => false
  end.

(** The language tags of [block_pattern]. *)
Definition fence_tags : list text :=
  [str "sql"; str "SQL"; str "SQLQuery"; str "mysql"; str "postgresql"].


Definition is_generate (ev : event) : bool :=
  match fst ev with
  | Generate _ => true
  | _ => false
  end.

Definition is_rephrase (ev : event) : bool :=
  match fst ev with
  | Rephrase _ _ _ => true
  | _ => false
  end.

(** *** Sample systems

    Stand-ins for the collaborators, to run the pipeline on: the encoder
    gives one token per code point. *)

Definition sample_encoder (s : text) : list nat := List.map N.to_nat s.

(** The model service is out of quota: every generation raises. *)
Definition quota_system : KabaddiSystem.t :=
  {| KabaddiSystem.table_info := str "CREATE TABLE S_RBR (name TEXT)";
     KabaddiSystem.generate_query := fun _ _ => inl (str "quota exceeded");
     KabaddiSystem.execute_query := fun _ _ => inr [];
     KabaddiSystem.rephrase_answer := fun _ _ _ _ => inr [];
     KabaddiSystem.encoder := sample_encoder;
     KabaddiSystem.now := fun _ => str "2025-01-01T00:00:00" |}.

(** A model that answers [first] to the first generation call of a trace
    and [second] to the later ones, a store that returns [rows], a rephraser
    that returns [reply]. *)
Definition sample_system (first second rows reply : text) : KabaddiSystem.t :=
  {| KabaddiSystem.table_info := str "CREATE TABLE S_RBR (name TEXT)";
     KabaddiSystem.generate_query :=
       fun tr _ => if existsb is_generate tr then inr second else inr first;
     KabaddiSystem.execute_query := fun _ _ => inr rows;
     KabaddiSystem.rephrase_answer := fun _ _ _ _ => inr reply;
     KabaddiSystem.encoder := sample_encoder;
     KabaddiSystem.now := fun _ => str "2025-01-01T00:00:00" |}.

(** The parts of [block_pattern]: the optional tag, what follows it, and
    the closing fence with the whitespace before it. *)
Definition fence_tag : regex :=
  Opt (alt_of (word "sql")
         [word "SQL"; word "SQLQuery"; word "mysql"; word "postgresql"]).

Definition fence_close : regex := seq_of [ws; word "```"].

Definition fence_body : regex :=
  seq_of [ws; Grp (StarLazy any_char); ws; word "```"].

(* ------------------------------------------------------------------ *)
(** ** Further vocabulary for the properties below *)

(** The letters of [l] read as the word [s], compared as [re.IGNORECASE]
    compares them. *)
Definition same_letters (s : string) (l : text) : Prop :=
  Forall2 (fun a c => ignorecase_eq a c = true) (str s) l.

(** A label of [prefix_pattern]: one of its five alternatives. *)
Definition label_word (lab : text) : Prop :=
  (exists a w b, lab = a ++ w ++ b /\ same_letters "SQL" a
                 /\ forallb isspace w = true /\ same_letters "Query" b)
  \/ same_letters "SQLQuery" lab
  \/ same_letters "MySQL" lab
  \/ same_letters "PostgreSQL" lab
  \/ same_letters "SQL" lab.

(** The alternatives of [prefix_pattern], and the pattern up to its colon. *)
Definition label_alternatives : regex :=
  alt_of (seq_of [wordI "SQL"; ws; wordI "Query"])
    [wordI "SQLQuery"; wordI "MySQL"; wordI "PostgreSQL"; wordI "SQL"].

Definition label_front : regex :=
  Seq Bol (Seq label_alternatives (Seq ws (Lit (chr ":")))).

(** Every character class of [r] lies within [P]. *)
Fixpoint classes_within (P : N -> bool) (r : regex) : Prop :=
  match r with
  | Eps | Bol => True
  | Chr p | Star p | StarLazy p => forall c, p c = true -> P c = true
  | Seq a b | Alt a b => classes_within P a /\ classes_within P b
  | Grp a => classes_within P a
  end.

(** Whitespace occurs in [t] only as single U+0020 characters, none of them
    next to another ([prev]: the character before was whitespace). *)
Fixpoint single_spaced (prev : bool) (t : text) : bool :=
  match t with
  | [] => true
  | c :: t' =>
      if isspace c
      then (c =? 32)%N && negb prev && single_spaced true t'
      else single_spaced false t'
  end.

Definition is_execute (ev : event) : bool :=
  match fst ev with
  | Execute _ => true
  | _ => false
  end.

(* ------------------------------------------------------------------ *)
(** ** The endpoints *)

Record QueryRequest : Type := { question : text }.

Record HTTPException : Type := {
  status_code : nat;
  detail : text
}.

(** Module initialisation: [system] is the constructed object, or [None]
    when [KabaddiSystem()] raised. *)
Definition initialize (built : exn + KabaddiSystem.t)
  : option KabaddiSystem.t :=
  match built with
  | inr s => Some s
  | inl _ => None
  end.

(** [GET /health]; [stamp] is the clock reading. *)
Definition health (system : option KabaddiSystem.t) (stamp : text)
  : text * text :=
  (match system with
   | Some _ => str "healthy"
   | None => str "unhealthy"
   end, stamp).

(** [POST /ask]: the response body, or the [HTTPException] raised. *)
Definition ask (system : option KabaddiSystem.t) (request : QueryRequest)
  : trace -> trace * (HTTPException + QueryResponse.t) :=
  fun tr =>
    match system with
    | None =>
        (tr, inl {| status_code := 500;
                    detail := str "System not initialized" |})
    | Some self =>
        match strip (question request) with
        | [] =>
            (tr, inl {| status_code := 400;
                        detail := str "Question is empty" |})
        | _ :: _ =>
            match KabaddiSystem.answer self (question request) tr with
            | (tr', inr result) => (tr', inr result)
            | (tr', inl _) =>
                (tr', inl {| status_code := 500;
                             detail := str "Query failed. Please try again." |})
            end
        end
    end.

Definition ascii_letter (l : N) : bool :=
  ((65 <=? l) && (l <=? 90) || (97 <=? l) && (l <=? 122))%N.

Definition not_colon (c : N) : bool := negb (c =? 58)%N.

(** [a] is obtained from [b] by dropping characters. *)
Inductive subseq : text -> text -> Prop :=
| subseq_nil : subseq [] []
| subseq_drop : forall a c b, subseq a b -> subseq a (c :: b)
| subseq_keep : forall a c b, subseq a b -> subseq (c :: a) (c :: b).

Definition visible (c : N) : bool := negb (isspace c).

(* ------------------------------------------------------------------ *)
(** ** Vocabulary for texts with a fenced block *)

(** No non-empty tail of [s], read together with what follows [s], passes
    [test]: nothing that [test] recognises starts inside [s]. *)
Fixpoint no_start (test : text -> bool) (s follow : text) : bool :=
  match s with
  | [] => true
  | _ :: t => negb (test (s ++ follow)) && no_start test t follow
  end.

(** The text starts with the word [w], letters compared as
    [re.IGNORECASE] compares them. *)
Definition starts_with_ignorecase (w s : text) : bool :=
  match strip_word ignorecase_eq w s with
  | Some _ => true
  | None => false
  end.

Definition fence : text := str "```".

(** The pattern has no [^]: its matches do not depend on the position. *)
Fixpoint no_bol (r : regex) : bool :=
  match r with
  | Bol => false
  | Eps | Chr _ | Star _ | StarLazy _ => true
  | Seq a b | Alt a b => no_bol a && no_bol b
  | Grp a => no_bol a
  end.

Definition shift (d : nat) (st : mstate) : mstate :=
  MState (mpos st + d) (mrest st) (mgroup st).

(** The text starts with a label of [prefix_pattern], whitespace and a
    colon. *)
Definition starts_with_label (s : text) : Prop :=
  exists lab sp rest,
    s = lab ++ sp ++ chr ":" :: rest
    /\ label_word lab /\ forallb isspace sp = true.

(** The tag of a fenced block as [block_pattern] reads it: one of the tag
    words it takes whole, or none, and then what follows the fence does not
    start with a tag word. *)
Definition block_tag (tag after : text) : Prop :=
  In tag [str "sql"; str "SQL"; str "mysql"; str "postgresql"]
  \/ (tag = []
      /\ forall w, In w fence_tags -> starts_with w after = false).

(** A character one of the label words of [prefix_pattern] can hold, or
    whitespace. *)
Definition label_char (c : N) : bool :=
  isspace c || existsb (fun l => ignorecase_eq l c) (str "SQLQueryMyPostgre").

(* ------------------------------------------------------------------ *)
(** ** The run as deployed

    Two things the definitions above fix are open in the running program.

    The entries of [RunnablePassthrough.assign] run as a [RunnableParallel],
    on a thread pool: either of the two generation calls can be the one the
    model answers first.  Both branches are always run to their end, and the
    results are read in key order, so that an error of [raw_query] is the
    one raised.

    [self.encoder.encode] is tiktoken's: it raises on a text that holds a
    special token.  The call on the prompt (line 205) stands before the
    [try] of [answer], the call on the answer (line 231) inside it. *)

Module Deployed.

(** What a deployment decides: for a run started on a trace, whether the
    [raw_query] branch gets the first response of the model, and the
    encoder. *)
Record env : Type := {
  raw_query_first : trace -> bool;
  encode : text -> exn + list nat
}.

(** The two branches in either order of their calls; the result and the
    error are those of [parallel]. *)
Definition race {A B} (first : bool) (m1 : M A) (m2 : M B) : M (A * B) :=
  fun tr =>
    if first then parallel m1 m2 tr
    else
      let (tr2, r2) := m2 tr in
      let (tr1, r1) := m1 tr2 in
      match r1, r2 with
      | inr a, inr b => (tr1, inr (a, b))
      | inl e, _ => (tr1, inl e)
      | inr _, inl e => (tr1, inl e)
      end.

Definition chain (d : env) (self : KabaddiSystem.t) (question : text)
  : M ChainOutput.t :=
  fun tr0 =>
    (x <- race (raw_query_first d tr0)
               (KabaddiSystem.call_generate self question)
               (generated <- KabaddiSystem.call_generate self question ;;
                ret (clean_sql_query generated)) ;;
     let raw_query := fst x in
     let query := snd x in
     result <- KabaddiSystem.call_execute self query ;;
     answer <- match strip result with
               | [] => ret (str "No data available.")
               | _ :: _ =>
                   KabaddiSystem.call_rephrase self question query result
               end ;;
     ret {| ChainOutput.answer := answer;
            ChainOutput.query := query;
            ChainOutput.raw_results := result |}) tr0.

Definition success_response (self : KabaddiSystem.t) (total_tokens : nat)
           (response : ChainOutput.t) (tr : trace) : QueryResponse.t :=
  let urls := re_findall url_pattern (ChainOutput.answer response) in
  let url_dicts := List.map (fun u => {| url := u |}) urls in
  {| QueryResponse.status := str "success";
     QueryResponse.data :=
       {| QueryData.answer := ChainOutput.answer response;
          QueryData.query := ChainOutput.query response;
          QueryData.tokens_used := total_tokens;
          QueryData.raw_results := url_dicts |};
     QueryResponse.timestamp := KabaddiSystem.now self tr |}.

Definition answer (d : env) (self : KabaddiSystem.t) (question : text)
  : M QueryResponse.t :=
  fun tr =>
    match encode d (KabaddiSystem.prompt_str self question) with
    | inl e => (tr, inl e)
    | inr tokens =>
        let input_tokens := length tokens in
        try_except
          (response <- chain d self question ;;
           fun tr' =>
             match encode d (ChainOutput.answer response) with
             | inl e => (tr', inl e)
             | inr out =>
                 let total_tokens := input_tokens + length out in
                 (tr', inr (success_response self total_tokens response tr'))
             end)
          (fun e tr' =>
             (tr', inr (KabaddiSystem.error_response self input_tokens tr')))
          tr
    end.

(** [POST /ask]: the response body, or the [HTTPException] raised. *)
Definition ask (d : env) (system : option KabaddiSystem.t)
           (request : QueryRequest)
  : trace -> trace * (HTTPException + QueryResponse.t) :=
  fun tr =>
    match system with
    | None =>
        (tr, inl {| status_code := 500;
                    detail := str "System not initialized" |})
    | Some self =>
        match strip (question request) with
        | [] =>
            (tr, inl {| status_code := 400;
                        detail := str "Question is empty" |})
        | _ :: _ =>
            match answer d self (question request) tr with
            | (tr', inr result) => (tr', inr result)
            | (tr', inl _) =>
                (tr', inl {| status_code := 500;
                             detail := str "Query failed. Please try again." |})
            end
        end
    end.

End Deployed.

(** The deployment the definitions of [KabaddiSystem] describe: the
    [raw_query] branch answered first, the encoder of the record, which
    never raises. *)
Definition sequential (self : KabaddiSystem.t) : Deployed.env :=
  {| Deployed.raw_query_first := fun _ => true;
     Deployed.encode := fun t => inr (KabaddiSystem.encoder self t) |}.

(** [w] occurs in [s]. *)
Fixpoint contains (w s : text) : bool :=
  starts_with w s
  || match s with
     | [] => false
     | _ :: t => contains w t
     end.

(** A stand-in for an encoder that refuses special tokens, and the
    deployments with it. *)
Definition strict_encode (t : text) : exn + list nat :=
  if contains (str "<|endoftext|>") t
  then inl (str "disallowed special token")
  else inr (sample_encoder t).

Definition sample_env (first : bool) : Deployed.env :=
  {| Deployed.raw_query_first := fun _ => first;
     Deployed.encode := strict_encode |}.

(** The calls a run appended to the trace it was given: two generation
    calls, then at most one execution, then at most one rephrasing. *)
Definition run_shape (tr tr' : trace) : Prop :=
  tr' = tr ++ new_events tr tr'
  /\ List.map is_generate (firstn 2 (new_events tr tr')) = [true; true]
  /\ List.map is_execute (skipn 2 (new_events tr tr'))
     = firstn (length (new_events tr tr') - 2) [true; false]
  /\ List.map is_rephrase (skipn 3 (new_events tr tr'))
     = firstn (length (new_events tr tr') - 3) [true]
  /\ length (new_events tr tr') <= 4.

(** The text [answer] encodes after a run: the fixed text for a blank
    result, or what a rephrasing call of the run returned. *)
Definition answer_text (question a : text) (evs : trace) : Prop :=
  a = str "No data available."
  \/ exists sql result, In (Rephrase question sql result, inr a) evs.

(** A question that holds a special token of the encoder. *)
Definition special_question : text :=
  str "who won <|endoftext|> in 2019".
(* ------------------------------------------------------------------ *)
(** ** The matcher finds only matches *)

Section MatcherFacts.
Variable A : Type.
Implicit Types (k : mstate -> option A) (p : N -> bool).

Lemma star_greedy_sound : forall p s pos g k x,
    star_greedy p pos s g k = Some x ->
    exists w rest, s = w ++ rest /\ forallb p w = true
                   /\ k (MState (pos + length w) rest g) = Some x.
Proof.
  induction s as [|c t IH]; simpl; intros pos g k x H.
  - exists [], []. simpl. rewrite Nat.add_0_r. auto.
  - destruct (p c) eqn:Hc.
    + destruct (star_greedy p (S pos) t g k) eqn:Hrec.
      * inversion H; subst.
        destruct (IH _ _ _ _ Hrec) as (w & rest & -> & Hw & Hk).
        exists (c :: w), rest. simpl. rewrite Hc, Hw.
        replace (pos + S (length w)) with (S pos + length w) by lia. auto.
      * exists [], (c :: t). simpl. rewrite Nat.add_0_r. auto.
    + exists [], (c :: t). simpl. rewrite Nat.add_0_r. auto.
Qed.

(** The lazy star stops at the first length its continuation accepts. *)
Lemma star_lazy_first : forall p s pos g k x,
    star_lazy p pos s g k = Some x ->
    exists w rest,
      s = w ++ rest /\ forallb p w = true
      /\ k (MState (pos + length w) rest g) = Some x
      /\ forall w1 c w2, w = w1 ++ c :: w2 ->
           k (MState (pos + length w1) (c :: w2 ++ rest) g) = None.
Proof.
  induction s as [|c t IH]; simpl; intros pos g k x H.
  - destruct (k (MState pos [] g)) eqn:Hk; [|discriminate].
    exists [], []. simpl. rewrite Nat.add_0_r.
    split; [reflexivity|split; [reflexivity|split; [congruence|]]].
    intros [|? ?] ? ? E; discriminate.
  - destruct (k (MState pos (c :: t) g)) eqn:Hk.
    + exists [], (c :: t). simpl. rewrite Nat.add_0_r.
      split; [reflexivity|split; [reflexivity|split; [congruence|]]].
      intros [|? ?] ? ? E; discriminate.
    + destruct (p c) eqn:Hc; [|discriminate].
      destruct (IH _ _ _ _ H) as (w & rest & -> & Hw & Hx & Hmin).
      exists (c :: w), rest. simpl. rewrite Hc, Hw.
      replace (pos + S (length w)) with (S pos + length w) by lia.
      split; [reflexivity|split; [reflexivity|split; [exact Hx|]]].
      intros [|c1 w1] c' w2 E; simpl in E; inversion E; subst; simpl.
      * rewrite Nat.add_0_r. exact Hk.
      * replace (pos + S (length w1)) with (S pos + length w1) by lia.
        apply Hmin. reflexivity.
Qed.

Lemma rmatch_sound : forall r st k x,
    rmatch r st k = Some x ->
    exists w rest g',
      mrest st = w ++ rest
      /\ matches r (mpos st) w (mgroup st) g'
      /\ k (MState (mpos st + length w) rest g') = Some x.
Proof.
  induction r as [| |p|a IHa b IHb|a IHa b IHb|p|p|a IHa];
    intros [pos s g] k x H; simpl in *.
  - exists [], s, g. simpl. rewrite Nat.add_0_r. repeat split; auto.
    constructor.
  - destruct pos; simpl in H; [|discriminate].
    exists [], s, g. simpl. repeat split; auto. constructor.
  - destruct s as [|c t]; [discriminate|].
    destruct (p c) eqn:Hc; [|discriminate].
    exists [c], t, g. simpl. repeat split; auto.
    + constructor; auto.
    + rewrite Nat.add_1_r. exact H.
  - apply IHa in H. destruct H as (w1 & r1 & g1 & E1 & M1 & H).
    apply IHb in H. destruct H as (w2 & r2 & g2 & E2 & M2 & H).
    simpl in *. subst.
    exists (w1 ++ w2), r2, g2. rewrite <- app_assoc. repeat split; auto.
    + econstructor; eauto.
    + rewrite length_app, Nat.add_assoc. exact H.
  - destruct (rmatch a (MState pos s g) k) eqn:Ha.
    + inversion H; subst. apply IHa in Ha.
      destruct Ha as (w & r & g' & E & Mw & Hk).
      exists w, r, g'. repeat split; auto. apply M_AltL; auto.
    + apply IHb in H. destruct H as (w & r & g' & E & Mw & Hk).
      exists w, r, g'. repeat split; auto. apply M_AltR; auto.
  - apply star_greedy_sound in H. destruct H as (w & r & E & Hw & Hk).
    exists w, r, g. repeat split; auto. constructor; auto.
  - apply star_lazy_first in H. destruct H as (w & r & E & Hw & Hk & _).
    exists w, r, g. repeat split; auto. constructor; auto.
  - apply IHa in H. destruct H as (w & r & g' & E & Mw & Hk).
    simpl in *. subst.
    exists w, r, (Some w). repeat split; auto.
    + econstructor; eauto.
    + replace (pos + length w - pos) with (length w) in Hk by lia.
      rewrite firstn_app, Nat.sub_diag, firstn_all in Hk.
      simpl in Hk. rewrite app_nil_r in Hk. exact Hk.
Qed.
End MatcherFacts.

Lemma match_at_sound : forall r pos s m,
    match_at r pos s = Some m ->
    exists w, s = w ++ mrest m /\ mpos m = pos + length w
              /\ matches r pos w None (mgroup m).
Proof.
  unfold match_at. intros r pos s m H.
  apply rmatch_sound in H. destruct H as (w & rest & g' & E & Mw & Hk).
  simpl in *. inversion Hk; subst. simpl. eauto.
Qed.
(* ------------------------------------------------------------------ *)
(** ** The scanning loop *)

Lemma match_at_shorter : forall r pos s m,
    match_at r pos s = Some m -> Nat.eqb (mpos m) pos = false ->
    length (mrest m) < length s.
Proof.
  intros r pos s m H Hne. apply match_at_sound in H.
  destruct H as (w & E & Hp & _). apply Nat.eqb_neq in Hne.
  assert (L : length s = length w + length (mrest m))
    by (rewrite E at 1; apply length_app).
  destruct w; simpl in *; lia.
Qed.

Lemma scan_loop_fuel : forall r n s pos f1 f2,
    length s < n -> length s < f1 -> length s < f2 ->
    scan_loop f1 r pos s = scan_loop f2 r pos s.
Proof.
  induction n as [|n IH]; intros s pos f1 f2 Hn H1 H2; [lia|].
  destruct f1 as [|f1]; [lia|]. destruct f2 as [|f2]; [lia|].
  simpl.
  assert (Hstep : match s with
                  | [] => []
                  | c :: t => Skip c :: scan_loop f1 r (S pos) t
                  end
                  = match s with
                    | [] => []
                    | c :: t => Skip c :: scan_loop f2 r (S pos) t
                    end).
  { destruct s as [|c t]; [reflexivity|]. simpl in *.
    f_equal. apply IH; lia. }
  destruct (match_at r pos s) as [m|] eqn:Hm; [|exact Hstep].
  destruct (Nat.eqb (mpos m) pos) eqn:Hp.
  - f_equal. exact Hstep.
  - f_equal. pose proof (match_at_shorter _ _ _ _ Hm Hp). apply IH; lia.
Qed.

(** The equation of the scan. *)
Lemma scan_at_eq : forall r pos s,
    scan_at r pos s =
    match match_at r pos s with
    | Some m =>
        if Nat.eqb (mpos m) pos
        then Hit [] m :: match s with
                         | [] => []
                         | c :: t => Skip c :: scan_at r (S pos) t
                         end
        else Hit (firstn (mpos m - pos) s) m :: scan_at r (mpos m) (mrest m)
    | None =>
        match s with
        | [] => []
        | c :: t => Skip c :: scan_at r (S pos) t
        end
    end.
Proof.
  intros r pos s. unfold scan_at at 1. simpl.
  assert (Hstep : match s with
                  | [] => []
                  | c :: t => Skip c :: scan_loop (length s) r (S pos) t
                  end
                  = match s with
                    | [] => []
                    | c :: t => Skip c :: scan_at r (S pos) t
                    end).
  { destruct s as [|c t]; [reflexivity|]. reflexivity. }
  destruct (match_at r pos s) as [m|] eqn:Hm; [|exact Hstep].
  destruct (Nat.eqb (mpos m) pos) eqn:Hp.
  - f_equal. exact Hstep.
  - f_equal. pose proof (match_at_shorter _ _ _ _ Hm Hp).
    apply scan_loop_fuel with (n := S (length s)); unfold lt; lia.
Qed.

Lemma re_sub_scan_at : forall r repl s,
    re_sub r repl s = flat_map (expand repl) (scan_at r 0 s).
Proof. reflexivity. Qed.

Lemma re_findall_scan_at : forall r s,
    re_findall r s = flat_map hits (scan_at r 0 s).
Proof. reflexivity. Qed.

(** A text no match starts in is left as it is. *)
Lemma scan_no_match : forall r repl s pos,
    (forall pre post, s = pre ++ post ->
                      match_at r (pos + length pre) post = None) ->
    flat_map (expand repl) (scan_at r pos s) = s.
Proof.
  intros r repl. induction s as [|c t IH]; intros pos H.
  - rewrite scan_at_eq. pose proof (H [] [] eq_refl) as H0.
    simpl in H0. rewrite Nat.add_0_r in H0. rewrite H0. reflexivity.
  - rewrite scan_at_eq. pose proof (H [] (c :: t) eq_refl) as H0.
    simpl in H0. rewrite Nat.add_0_r in H0. rewrite H0. simpl. f_equal.
    apply IH. intros pre post E.
    replace (S pos + length pre) with (pos + length (c :: pre))
      by (simpl; lia).
    apply H. simpl. congruence.
Qed.

Lemma search_from_sound : forall r s pos m,
    search_from r pos s = Some m ->
    exists pre post, s = pre ++ post
                     /\ match_at r (pos + length pre) post = Some m.
Proof.
  intros r. induction s as [|c t IH]; intros pos m H; simpl in H.
  - destruct (match_at r pos []) eqn:Hm; [|discriminate].
    inversion H; subst. exists [], []. simpl. rewrite Nat.add_0_r. auto.
  - destruct (match_at r pos (c :: t)) eqn:Hm.
    + inversion H; subst. exists [], (c :: t). simpl.
      rewrite Nat.add_0_r. auto.
    + apply IH in H. destruct H as (pre & post & -> & H).
      exists (c :: pre), post. simpl.
      replace (pos + S (length pre)) with (S pos + length pre) by lia. auto.
Qed.
#[local] Arguments scan_at : simpl never.

(* ------------------------------------------------------------------ *)
(** ** Greedy and lazy repetition, literal words *)

Section StarFacts.
Variable A : Type.
Implicit Types (k : mstate -> option A) (p : N -> bool).

Lemma star_greedy_exact : forall p w rest pos g k x,
    forallb p w = true ->
    (forall c t, rest = c :: t -> p c = false) ->
    k (MState (pos + length w) rest g) = Some x ->
    star_greedy p pos (w ++ rest) g k = Some x.
Proof.
  induction w as [|c w IH]; simpl; intros rest pos g k x Hw Hr Hk.
  - rewrite Nat.add_0_r in Hk.
    destruct rest as [|c t]; simpl; [exact Hk|].
    rewrite (Hr c t eq_refl). exact Hk.
  - apply andb_true_iff in Hw. destruct Hw as [Hc Hw]. rewrite Hc.
    rewrite (IH rest (S pos) g k x); auto.
    replace (S pos + length w) with (pos + S (length w)) by lia. exact Hk.
Qed.

Lemma star_lazy_exact : forall p w rest pos g k x,
    forallb p w = true ->
    (forall w1 c w2, w = w1 ++ c :: w2 ->
       k (MState (pos + length w1) (c :: w2 ++ rest) g) = None) ->
    k (MState (pos + length w) rest g) = Some x ->
    star_lazy p pos (w ++ rest) g k = Some x.
Proof.
  induction w as [|c w IH]; intros rest pos g k x Hw Hmin Hk.
  - simpl in *. rewrite Nat.add_0_r in Hk.
    destruct rest; simpl; rewrite Hk; reflexivity.
  - simpl in Hw. apply andb_true_iff in Hw. destruct Hw as [Hc Hw].
    simpl. pose proof (Hmin [] c w eq_refl) as H0. simpl in H0.
    rewrite Nat.add_0_r in H0. rewrite H0, Hc.
    apply IH; auto.
    + intros w1 c' w2 E.
      replace (S pos + length w1) with (pos + length (c :: w1))
        by (simpl; lia).
      apply Hmin. simpl. congruence.
    + replace (S pos + length w) with (pos + length (c :: w))
        by (simpl; lia). exact Hk.
Qed.

Lemma rmatch_word : forall (f : N -> N -> bool) w pos s g k,
    rmatch (seq_of (List.map (fun l => Chr (f l)) w)) (MState pos s g) k
    = match strip_word f w s with
      | Some t => k (MState (pos + length w) t g)
      | None => None
      end.
Proof.
  induction w as [|l w IH]; intros pos s g k; simpl.
  - rewrite Nat.add_0_r. reflexivity.
  - destruct s as [|c t]; [reflexivity|].
    destruct (f l c); [|reflexivity].
    rewrite IH. replace (S pos + length w) with (pos + S (length w)) by lia.
    reflexivity.
Qed.
End StarFacts.

Lemma star_greedy_all : forall p s pos g,
    star_greedy p pos s g (@Some mstate)
    = Some (MState (pos + length (take_class p s)) (skip_class p s) g).
Proof.
  induction s as [|c t IH]; intros pos g; simpl.
  - rewrite Nat.add_0_r. reflexivity.
  - destruct (p c); simpl.
    + rewrite IH. do 2 f_equal. lia.
    + rewrite Nat.add_0_r. reflexivity.
Qed.

Lemma take_skip_class : forall p s, s = take_class p s ++ skip_class p s.
Proof.
  induction s as [|c t IH]; simpl; [reflexivity|].
  destruct (p c); simpl; congruence.
Qed.

Lemma take_class_all : forall p s, forallb p (take_class p s) = true.
Proof.
  induction s as [|c t IH]; simpl; [reflexivity|].
  destruct (p c) eqn:Hc; simpl; [rewrite Hc|]; auto.
Qed.

Lemma skip_class_head : forall p s c t,
    skip_class p s = c :: t -> p c = false.
Proof.
  induction s as [|a s IH]; simpl; intros c t H; [discriminate|].
  destruct (p a) eqn:Ha; [eauto|]. inversion H; subst. exact Ha.
Qed.

Lemma skip_class_length : forall p s, length (skip_class p s) <= length s.
Proof.
  induction s as [|c t IH]; simpl; [lia|]. destruct (p c); simpl; lia.
Qed.

Lemma matches_word : forall (f : N -> N -> bool) w pos s g g',
    matches (seq_of (List.map (fun l => Chr (f l)) w)) pos s g g' ->
    Forall2 (fun l c => f l c = true) w s /\ g' = g.
Proof.
  induction w as [|l w IH]; simpl; intros pos s g g' H.
  - inversion H; subst. split; constructor.
  - inversion H; subst.
    match goal with
    | H1 : matches (Chr _) _ _ _ _ |- _ => inversion H1; subst
    end.
    match goal with
    | H2 : matches (seq_of _) _ _ _ _ |- _ => apply IH in H2; destruct H2
    end.
    subst. split; [|reflexivity]. simpl. constructor; auto.
Qed.

(* ------------------------------------------------------------------ *)
(** ** Whitespace: [strip] and the collapse of runs *)

Lemma match_space_run : forall pos s,
    match_at space_run pos s =
    match s with
    | [] => None
    | c :: t =>
        if isspace c
        then Some (MState (S pos + length (take_class isspace t))
                          (lstrip t) None)
        else None
    end.
Proof.
  intros pos [|c t]; unfold match_at; simpl; [reflexivity|].
  destruct (isspace c); [|reflexivity]. apply star_greedy_all.
Qed.

Lemma squeeze_in_run : forall t, squeeze true t = squeeze false (lstrip t).
Proof.
  induction t as [|c t IH]; simpl; [reflexivity|].
  unfold lstrip in *. simpl. destruct (isspace c) eqn:Hc; [exact IH|].
  simpl. rewrite Hc. reflexivity.
Qed.

Lemma collapse_at_squeeze : forall n t pos,
    length t < n ->
    flat_map (expand (fun _ => str " ")) (scan_at space_run pos t)
    = squeeze false t.
Proof.
  induction n as [|n IH]; intros t pos Hn; [lia|].
  rewrite scan_at_eq, match_space_run.
  destruct t as [|c t]; [reflexivity|]. simpl in Hn. simpl squeeze.
  destruct (isspace c) eqn:Hc.
  - cbn [mpos mrest].
    rewrite (proj2 (Nat.eqb_neq _ _)) by lia.
    cbn [flat_map expand]. change (str " ") with [32%N]. simpl app.
    f_equal. rewrite squeeze_in_run. apply IH.
    pose proof (skip_class_length isspace t). unfold lstrip. lia.
  - simpl. f_equal. apply IH. lia.
Qed.

Lemma collapse_spaces_squeeze : forall t,
    collapse_spaces t = squeeze false (strip t).
Proof.
  intros t. unfold collapse_spaces. rewrite re_sub_scan_at.
  apply collapse_at_squeeze with (n := S (length (strip t))). lia.
Qed.

Lemma squeeze_count : forall c t b,
    isspace c = false ->
    count_char c (squeeze b t) = count_char c t.
Proof.
  unfold count_char. intros c t.
  induction t as [|a t IH]; intros b Hc; simpl; [reflexivity|].
  destruct (isspace a) eqn:Ha.
  - destruct (N.eqb_spec c a) as [->|_]; [congruence|].
    destruct b; simpl; [apply IH; exact Hc|].
    destruct (N.eqb_spec c 32%N) as [->|_].
    + vm_compute in Hc. discriminate.
    + apply IH. exact Hc.
  - simpl. destruct (N.eqb c a); simpl; rewrite IH; auto.
Qed.

Lemma squeeze_last : forall c t b,
    isspace c = false -> squeeze b (t ++ [c]) = squeeze b t ++ [c].
Proof.
  intros c t. induction t as [|a t IH]; intros b Hc; simpl.
  - rewrite Hc. reflexivity.
  - destruct (isspace a); [destruct b|]; simpl; rewrite IH; auto.
Qed.

Lemma squeeze_head : forall w t,
    forallb (fun c => negb (isspace c)) w = true ->
    squeeze false (w ++ t) = w ++ squeeze false t.
Proof.
  induction w as [|a w IH]; intros t H; simpl in *; [reflexivity|].
  apply andb_true_iff in H. destruct H as [Ha Hw].
  apply negb_true_iff in Ha. rewrite Ha. f_equal. auto.
Qed.

Lemma lstrip_spaces_app : forall w t,
    forallb isspace w = true -> lstrip (w ++ t) = lstrip t.
Proof.
  unfold lstrip. induction w as [|a w IH]; intros t H; simpl in *; auto.
  apply andb_true_iff in H. destruct H as [Ha Hw]. rewrite Ha. auto.
Qed.

Lemma strip_kept : forall a t b,
    isspace a = false -> isspace b = false ->
    strip (a :: t ++ [b]) = a :: t ++ [b].
Proof.
  intros a t b Ha Hb. unfold strip, rstrip, lstrip. simpl. rewrite Ha.
  change (a :: t ++ [b]) with ((a :: t) ++ [b]).
  rewrite rev_app_distr. simpl. rewrite Hb.
  change (b :: rev t ++ [a]) with (rev [b] ++ rev (a :: t)).
  rewrite <- rev_app_distr, rev_involutive. reflexivity.
Qed.
(* ------------------------------------------------------------------ *)
(** ** The statement search [(SELECT.*?;)] *)

Lemma sre_lower_cases : forall c,
    sre_lower c = c
    \/ ((65 <= c <= 90)%N /\ sre_lower c = (c + 32)%N)
    \/ (c = 304%N /\ sre_lower c = 105%N)
    \/ (c = 8490%N /\ sre_lower c = 107%N).
Proof.
  intros c. unfold sre_lower.
  destruct (N.leb_spec 65 c); destruct (N.leb_spec c 90);
    destruct (N.eqb_spec c 304); destruct (N.eqb_spec c 8490);
    simpl; auto; right; left; split; auto; lia.
Qed.

Lemma ignorecase_letter : forall l c,
    In l (str "SELECT") -> ignorecase_eq l c = true ->
    c = l \/ c = (l + 32)%N \/ (l = 83%N /\ c = 383%N).
Proof.
  intros l c Hl H. unfold ignorecase_eq in H.
  apply orb_true_iff in H.
  assert (Hll : sre_lower l = (l + 32)%N /\ (65 <= l <= 90)%N).
  { simpl in Hl.
    repeat (destruct Hl as [<-|Hl]; [vm_compute; intuition discriminate|]).
    contradiction. }
  destruct Hll as [Hll Hrange]. rewrite Hll in H.
  destruct H as [H|H].
  - apply N.eqb_eq in H.
    destruct (sre_lower_cases c) as [E|[[R E]|[[-> E]|[-> E]]]];
      rewrite E in H.
    + right; left; exact H.
    + left; lia.
    + exfalso. simpl in Hl.
      repeat (destruct Hl as [<-|Hl]; [discriminate|]). contradiction.
    + exfalso. simpl in Hl.
      repeat (destruct Hl as [<-|Hl]; [discriminate|]). contradiction.
  - apply andb_true_iff in H. destruct H as [H1 H2].
    apply N.eqb_eq in H1, H2. right; right. split; [lia|exact H2].
Qed.

Lemma select_letters_not_space : forall sel,
    Forall2 (fun l c => ignorecase_eq l c = true) (str "SELECT") sel ->
    forallb (fun c => negb (isspace c)) sel = true.
Proof.
  intros sel H.
  assert (G : forall ls cs,
             Forall2 (fun l c => ignorecase_eq l c = true) ls cs ->
             (forall l, In l ls -> In l (str "SELECT")) ->
             forallb (fun c => negb (isspace c)) cs = true).
  { induction 1 as [|l c ls cs Hlc _ IH]; intros Hin; [reflexivity|].
    simpl. rewrite IH by (intros; apply Hin; right; assumption).
    rewrite andb_true_r.
    destruct (ignorecase_letter l c (Hin l (or_introl eq_refl)) Hlc)
      as [->|[->|[-> ->]]]; [| |reflexivity];
      specialize (Hin l (or_introl eq_refl)); simpl in Hin;
      repeat (destruct Hin as [<-|Hin]; [reflexivity|]); contradiction. }
  apply (G _ _ H). auto.
Qed.

Lemma filter_none : forall (f : N -> bool) (l : text),
    (forall c, In c l -> f c = false) -> length (filter f l) = 0.
Proof.
  intros f. induction l as [|a l IH]; intros H; [reflexivity|].
  cbn [filter]. rewrite (H a) by (left; reflexivity).
  apply IH. intros; apply H; right; assumption.
Qed.

(** A match of the statement pattern: group 1 is the six letters, a body
    free of semicolons (the lazy [.*?] stops at the first one), and the
    semicolon. *)
Lemma match_statement : forall pos s m,
    match_at sql_statement_pattern pos s = Some m ->
    exists sel body,
      s = sel ++ body ++ chr ";" :: mrest m
      /\ Forall2 (fun l c => ignorecase_eq l c = true) (str "SELECT") sel
      /\ count_char (chr ";") body = 0
      /\ mgroup m = Some (sel ++ body ++ [chr ";"]).
Proof.
  unfold match_at, sql_statement_pattern. intros pos s m H.
  cbn [rmatch seq_of mpos mrest mgroup] in H.
  apply rmatch_sound in H.
  destruct H as (sel & rest & g' & E & Msel & H).
  cbn [mpos mrest mgroup] in *.
  apply (matches_word ignorecase_eq) in Msel. destruct Msel as [Fsel ->].
  apply star_lazy_first in H.
  destruct H as (body & rest' & -> & _ & Hk & Hmin).
  unfold Lit in Hk, Hmin.
  cbn [rmatch mpos mrest mgroup] in Hk.
  destruct rest' as [|c t]; [discriminate|].
  destruct (N.eqb_spec (chr ";") c) as [<-|]; [|discriminate].
  inversion Hk; subst m; clear Hk. cbn [mrest mgroup].
  exists sel, body. split; [exact E|]. split; [exact Fsel|]. split.
  - unfold count_char.
    assert (G : forall c, In c body -> N.eqb (chr ";") c = false).
    { intros c Hc. apply in_split in Hc. destruct Hc as (w1 & w2 & ->).
      specialize (Hmin w1 c w2 eq_refl). cbn [rmatch mpos mrest mgroup] in Hmin.
      destruct (N.eqb (chr ";") c); [discriminate|reflexivity]. }
    apply filter_none. exact G.
  - f_equal. rewrite E.
    match goal with
    | |- firstn ?n _ = _ =>
        replace n with (length (sel ++ body ++ [chr ";"]))
          by (rewrite !length_app; simpl length; destruct pos; lia)
    end.
    change (chr ";" :: t) with ([chr ";"] ++ t).
    rewrite !app_assoc. rewrite firstn_app.
    rewrite <- !app_assoc, Nat.sub_diag, firstn_all. simpl firstn.
    rewrite app_nil_r. reflexivity.
Qed.

Lemma search_statement : forall s m,
    re_search sql_statement_pattern s = Some m ->
    exists sel body,
      group1 m = sel ++ body ++ [chr ";"]
      /\ Forall2 (fun l c => ignorecase_eq l c = true) (str "SELECT") sel
      /\ count_char (chr ";") body = 0
      /\ occurs_in (group1 m) s.
Proof.
  unfold re_search. intros s m H. apply search_from_sound in H.
  destruct H as (pre & post & -> & H). apply match_statement in H.
  destruct H as (sel & body & E & F & C & G).
  exists sel, body. unfold group1. rewrite G. repeat split; auto.
  exists pre, (mrest m). rewrite E, <- !app_assoc. reflexivity.
Qed.

(** The statement isolated by the search goes through [collapse_spaces]
    with its first six letters and its final semicolon in place. *)
Lemma collapse_statement : forall sel body,
    Forall2 (fun l c => ignorecase_eq l c = true) (str "SELECT") sel ->
    collapse_spaces (sel ++ body ++ [chr ";"])
    = sel ++ squeeze false body ++ [chr ";"].
Proof.
  intros sel body F. rewrite collapse_spaces_squeeze.
  pose proof (select_letters_not_space _ F) as Hns.
  assert (Hlen : length sel = 6)
    by (apply Forall2_length in F; simpl in F; auto).
  destruct sel as [|a sel]; [discriminate|].
  simpl in Hns. apply andb_true_iff in Hns. destruct Hns as [Ha Hns].
  apply negb_true_iff in Ha.
  assert (E : (a :: sel) ++ body ++ [chr ";"]
              = a :: (sel ++ body) ++ [chr ";"])
    by (simpl; rewrite app_assoc; reflexivity).
  rewrite E, strip_kept by (auto; reflexivity). rewrite <- E.
  rewrite squeeze_head by (simpl; rewrite Ha; exact Hns).
  rewrite squeeze_last by reflexivity. reflexivity.
Qed.

Lemma count_char_app : forall c a b,
    count_char c (a ++ b) = count_char c a + count_char c b.
Proof.
  unfold count_char. intros. rewrite filter_app, length_app. reflexivity.
Qed.

Lemma select_letters_no_semicolon : forall sel,
    Forall2 (fun l c => ignorecase_eq l c = true) (str "SELECT") sel ->
    count_char (chr ";") sel = 0.
Proof.
  intros sel H.
  assert (G : forall ls cs,
             Forall2 (fun l c => ignorecase_eq l c = true) ls cs ->
             (forall l, In l ls -> In l (str "SELECT")) ->
             count_char (chr ";") cs = 0).
  { induction 1 as [|l c ls cs Hlc _ IH]; intros Hin; [reflexivity|].
    unfold count_char in *. simpl.
    rewrite <- IH by (intros; apply Hin; right; assumption).
    destruct (ignorecase_letter l c (Hin l (or_introl eq_refl)) Hlc)
      as [->|[->|[-> ->]]]; [| |reflexivity];
      specialize (Hin l (or_introl eq_refl)); simpl in Hin;
      repeat (destruct Hin as [<-|Hin]; [reflexivity|]); contradiction. }
  apply (G _ _ H). auto.
Qed.
(* ------------------------------------------------------------------ *)
(** ** The runs of [KabaddiSystem.answer] *)

Lemma new_events_app : forall tr evs, new_events tr (tr ++ evs) = evs.
Proof.
  unfold new_events. induction tr as [|e tr IH]; intros evs; simpl; auto.
Qed.

(** [answer] unfolded: the calls it makes, in order, and what it returns
    on each outcome. *)
Lemma answer_run : forall self question tr,
    let n := length (KabaddiSystem.encoder self
                       (KabaddiSystem.prompt_str self question)) in
    let g1 := KabaddiSystem.generate_query self tr question in
    let tr1 := tr ++ [(Generate question, g1)] in
    let g2 := KabaddiSystem.generate_query self tr1 question in
    let tr2 := tr ++ [(Generate question, g1); (Generate question, g2)] in
    KabaddiSystem.answer self question tr =
    match g1, g2 with
    | inr _, inr generated =>
        let query := clean_sql_query generated in
        let x := KabaddiSystem.execute_query self tr2 query in
        let tr3 := tr2 ++ [(Execute query, x)] in
        match x with
        | inl _ => (tr3, inr (KabaddiSystem.error_response self n tr3))
        | inr result =>
            match strip result with
            | [] =>
                (tr3, inr (KabaddiSystem.success_response self n
                             {| ChainOutput.answer := str "No data available.";
                                ChainOutput.query := query;
                                ChainOutput.raw_results := result |} tr3))
            | _ :: _ =>
                let a := KabaddiSystem.rephrase_answer self tr3 question
                           query result in
                let tr4 := tr3 ++ [(Rephrase question query result, a)] in
                match a with
                | inl _ => (tr4, inr (KabaddiSystem.error_response self n tr4))
                | inr ans =>
                    (tr4, inr (KabaddiSystem.success_response self n
                                 {| ChainOutput.answer := ans;
                                    ChainOutput.query := query;
                                    ChainOutput.raw_results := result |} tr4))
                end
            end
        end
    | _, _ => (tr2, inr (KabaddiSystem.error_response self n tr2))
    end.
Proof.
  intros self question tr n g1 tr1 g2 tr2.
  assert (E2 : tr1 ++ [(Generate question, g2)] = tr2)
    by (unfold tr1, tr2; rewrite <- app_assoc; reflexivity).
  unfold KabaddiSystem.answer, try_except, bind, KabaddiSystem.chain,
    parallel, bind, ret, KabaddiSystem.call_generate,
    KabaddiSystem.call_execute, KabaddiSystem.call_rephrase, invoke.
  fold g1. fold tr1. fold g2. rewrite E2. fold n.
  destruct g1 as [e1|raw]; destruct g2 as [e2|generated]; try reflexivity.
  cbn [fst snd].
  destruct (KabaddiSystem.execute_query self tr2 (clean_sql_query generated))
    as [e3|result]; [reflexivity|].
  destruct (strip result) as [|c t]; [reflexivity|].
  destruct (KabaddiSystem.rephrase_answer self _ question _ result);
    reflexivity.
Qed.
(* ------------------------------------------------------------------ *)
(** ** The URL pattern [https?://[^\s|]+] *)

#[local] Arguments url_char : simpl never.

Lemma Forall2_eqb : forall a b,
    Forall2 (fun l c => N.eqb l c = true) a b -> b = a.
Proof.
  induction 1 as [|l c a b Hlc _ IH]; [reflexivity|].
  apply N.eqb_eq in Hlc. congruence.
Qed.

Lemma matches_literal_word : forall w pos s g g',
    matches (seq_of (List.map Lit w)) pos s g g' -> s = w /\ g' = g.
Proof.
  intros w pos s g g' H. apply (matches_word N.eqb) in H.
  destruct H as [F ->]. split; [apply Forall2_eqb; exact F|reflexivity].
Qed.

Lemma match_url_starts : forall pos s m,
    match_at url_pattern pos s = Some m -> url_starts s.
Proof.
  intros pos s m H. apply match_at_sound in H.
  destruct H as (w & -> & _ & Mw). unfold url_pattern in Mw.
  cbn [seq_of] in Mw.
  inversion Mw as [| | |? ? ? w1 wa ? ? ? M1 Ma| | | | |]; subst; clear Mw.
  apply matches_literal_word in M1. destruct M1 as [-> ->].
  inversion Ma as [| | |? ? ? w2 wb ? ? ? M2 Mb| | | | |]; subst; clear Ma.
  inversion Mb as [| | |? ? ? w3 wc ? ? ? M3 Mc| | | | |]; subst; clear Mb.
  apply matches_literal_word in M3. destruct M3 as [-> ->].
  inversion Mc as [| | |? ? ? w4 wd ? ? ? M4 Md| | | | |]; subst; clear Mc.
  unfold Plus in M4.
  inversion M4 as [| | |? ? ? w5 we ? ? ? M5 Me| | | | |]; subst; clear M4.
  inversion M5 as [| |? c ? ? Hc| | | | | |]; subst; clear M5.
  unfold Opt, Lit in M2.
  inversion M2 as [| | | |? ? ? ? ? ? L|? ? ? ? ? ? R| | |]; subst; clear M2.
  - inversion L as [| |? c2 ? ? Hc2| | | | | |]; subst.
    apply N.eqb_eq in Hc2. subst c2.
    exists (str "https://"), c, ((we ++ wd) ++ mrest m).
    split; [right; reflexivity|]. split; [|exact Hc].
    simpl. rewrite <- !app_assoc. reflexivity.
  - inversion R; subst.
    exists (str "http://"), c, ((we ++ wd) ++ mrest m).
    split; [left; reflexivity|]. split; [|exact Hc].
    simpl. rewrite <- !app_assoc. reflexivity.
Qed.

(** At the head of a URL the match takes the scheme and every character up
    to the next whitespace, pipe or the end. *)
Lemma match_url_exact : forall pos sch c rest,
    url_scheme sch -> url_char c = true ->
    exists m, match_at url_pattern pos (sch ++ c :: rest) = Some m
              /\ mrest m = skip_class url_char rest
              /\ mpos m = pos + length (sch ++ c :: take_class url_char rest).
Proof.
  intros pos sch c rest Hs Hc.
  assert (G : exists m, match_at url_pattern pos (sch ++ c :: rest) = Some m
                        /\ mrest m = skip_class url_char rest).
  { unfold match_at, url_pattern, Opt, Plus, word.
    destruct Hs as [-> | ->]; cbn [seq_of str List.map list_ascii_of_string];
      unfold Lit; simpl; rewrite Hc;
      rewrite (star_greedy_all url_char rest); eexists;
      (split; [reflexivity|reflexivity]). }
  destruct G as (m & Hm & Hr). exists m. split; [exact Hm|].
  split; [exact Hr|].
  apply match_at_sound in Hm. destruct Hm as (w & E & Hp & _).
  rewrite Hr in E. rewrite (take_skip_class url_char rest) in E at 1.
  change (sch ++ c :: take_class url_char rest ++ skip_class url_char rest)
    with (sch ++ (c :: take_class url_char rest) ++ skip_class url_char rest)
    in E.
  rewrite app_assoc in E. apply app_inv_tail in E. subst w. exact Hp.
Qed.

Lemma findall_urls_scan : forall n s pos,
    length s < n ->
    url_scan s (flat_map hits (scan_at url_pattern pos s)).
Proof.
  induction n as [|n IH]; intros s pos Hn; [lia|].
  rewrite scan_at_eq.
  destruct (match_at url_pattern pos s) as [m|] eqn:Hm.
  - destruct (match_url_starts _ _ _ Hm) as (sch & c & rest & Hs & -> & Hc).
    destruct (match_url_exact pos sch c rest Hs Hc) as (m' & Hm' & Hr & Hp).
    rewrite Hm in Hm'. inversion Hm'; subst m'; clear Hm'.
    rewrite (proj2 (Nat.eqb_neq _ _))
      by (rewrite Hp, length_app; simpl; lia).
    cbn [flat_map hits app]. rewrite Hp, Hr.
    replace (pos + length (sch ++ c :: take_class url_char rest) - pos)
      with (length (sch ++ c :: take_class url_char rest)) by lia.
    assert (E : sch ++ c :: rest
                = (sch ++ c :: take_class url_char rest)
                    ++ skip_class url_char rest).
    { rewrite (take_skip_class url_char rest) at 1.
      rewrite <- app_assoc. reflexivity. }
    rewrite E at 2. rewrite firstn_app, Nat.sub_diag, firstn_all.
    simpl firstn. rewrite app_nil_r. rewrite E at 1.
    rewrite <- app_assoc.
    apply US_url with (body := c :: take_class url_char rest); auto.
    + discriminate.
    + simpl. rewrite Hc. apply take_class_all.
    + intros c' t' Et. eapply skip_class_head. exact Et.
    + apply IH. pose proof (skip_class_length url_char rest).
      rewrite length_app in Hn. simpl in Hn. lia.
  - destruct s as [|c t]; [constructor|].
    cbn [flat_map hits app]. apply US_skip.
    + intros (sch & c' & rest & Hs & E & Hc).
      destruct (match_url_exact pos sch c' rest Hs Hc) as (m' & Hm' & _).
      rewrite <- E in Hm'. congruence.
    + apply IH. simpl in Hn. lia.
Qed.

Lemma re_findall_urls : forall s, url_scan s (re_findall url_pattern s).
Proof.
  intros s. rewrite re_findall_scan_at.
  apply findall_urls_scan with (n := S (length s)). lia.
Qed.
(* ------------------------------------------------------------------ *)
(** ** The fenced-block pattern *)

Lemma rmatch_literal_word : forall A w pos s g (k : mstate -> option A),
    rmatch (seq_of (List.map Lit w)) (MState pos s g) k
    = match strip_word N.eqb w s with
      | Some t => k (MState (pos + length w) t g)
      | None => None
      end.
Proof. intros. exact (rmatch_word A N.eqb w pos s g k). Qed.

Lemma strip_word_eqb : forall w s t,
    strip_word N.eqb w s = Some t -> s = w ++ t.
Proof.
  induction w as [|l w IH]; simpl; intros s t H; [congruence|].
  destruct s as [|c s]; [discriminate|].
  destruct (N.eqb_spec l c) as [->|]; [|discriminate].
  f_equal. auto.
Qed.

Lemma count_char_zero : forall c s, count_char c s = 0 -> ~ In c s.
Proof.
  unfold count_char. induction s as [|a s IH]; simpl; intros H; [tauto|].
  destruct (N.eqb_spec c a); simpl in H; [discriminate|].
  intros [E|E]; [congruence|]. exact (IH H E).
Qed.

Lemma forallb_any_char : forall s, forallb any_char s = true.
Proof. induction s; simpl; auto. Qed.

Lemma lstrip_fixed : forall c t, lstrip (c :: t) = c :: t -> isspace c = false.
Proof.
  unfold lstrip. intros c t H. simpl in H.
  destruct (isspace c); [|reflexivity].
  pose proof (skip_class_length isspace t) as L. rewrite H in L.
  simpl in L. lia.
Qed.

Lemma rstrip_fixed : forall s w1 w2,
    rstrip s = s -> s = w1 ++ w2 -> w2 <> [] -> forallb isspace w2 = false.
Proof.
  intros s w1 w2 H -> Hne.
  destruct (forallb isspace w2) eqn:Hw; [|reflexivity]. exfalso.
  unfold rstrip in H. rewrite rev_app_distr in H.
  rewrite lstrip_spaces_app in H
    by (rewrite forallb_forall in *; intros x Hx; apply Hw;
        apply in_rev; exact Hx).
  apply (f_equal (@length N)) in H.
  rewrite length_rev, length_app in H.
  pose proof (skip_class_length isspace (rev w1)) as L.
  unfold lstrip in H. rewrite length_rev in L.
  destruct w2; [congruence|]. simpl in H. lia.
Qed.

Lemma star_lazy_zero : forall A p pos s g (k : mstate -> option A) x,
    k (MState pos s g) = Some x -> star_lazy p pos s g k = Some x.
Proof. intros A p pos [|c t] g k x H; simpl; rewrite H; reflexivity. Qed.

(** The closing part [\s*```] where the fence is. *)
Lemma fence_close_eval : forall pos g ws2 post,
    forallb isspace ws2 = true ->
    rmatch fence_close (MState pos (ws2 ++ str "```" ++ post) g) (@Some mstate)
    = Some (MState (pos + length ws2 + 3) post g).
Proof.
  intros pos g ws2 post Hw. unfold fence_close, ws.
  cbn [seq_of rmatch mpos mrest mgroup].
  apply star_greedy_exact; [exact Hw| |].
  - intros c t E. inversion E. reflexivity.
  - unfold word. cbn [rmatch]. rewrite rmatch_literal_word. reflexivity.
Qed.

Lemma block_pattern_parts :
  block_pattern = Seq (word "```") (Seq fence_tag fence_body).
Proof. reflexivity. Qed.

Lemma fence_tag_tagged :
  forall A (k : mstate -> option A) pos g tag rest (P : A -> Prop),
    In tag [str "sql"; str "SQL"; str "mysql"; str "postgresql"] ->
    (forall n, exists m, k (MState n rest g) = Some m /\ P m) ->
    exists m, rmatch fence_tag (MState pos (tag ++ rest) g) k = Some m /\ P m.
Proof.
  intros A k pos g tag rest P Htag Hk.
  unfold fence_tag, Opt, word. cbn [alt_of rmatch].
  rewrite !rmatch_literal_word.
  destruct Htag as [<-|[<-|[<-|[<-|[]]]]]; simpl;
    match goal with
    | |- context [k (MState ?n rest g)] =>
        destruct (Hk n) as (m & E & Pm); rewrite E
    end;
    exists m; split; auto.
Qed.

Lemma starts_with_false : forall w s,
    starts_with w s = false -> strip_word N.eqb w s = None.
Proof.
  unfold starts_with. intros w s H.
  destruct (strip_word N.eqb w s); [discriminate|reflexivity].
Qed.

Lemma fence_tag_untagged :
  forall A (k : mstate -> option A) pos g rest,
    (forall w, In w fence_tags -> starts_with w rest = false) ->
    rmatch fence_tag (MState pos rest g) k = k (MState pos rest g).
Proof.
  intros A k pos g rest H.
  unfold fence_tag, Opt, word. cbn [alt_of rmatch].
  rewrite !rmatch_literal_word.
  rewrite !starts_with_false by (apply H; simpl; tauto).
  reflexivity.
Qed.

Lemma strip_fences_plain : forall s,
    count_char (chr "`") s = 0 -> strip_fences s = s.
Proof.
  intros s H. unfold strip_fences. rewrite re_sub_scan_at.
  apply scan_no_match. intros pre post E.
  rewrite block_pattern_parts. unfold match_at. cbn [rmatch].
  unfold word at 1. rewrite rmatch_literal_word.
  destruct (strip_word N.eqb (str "```") post) as [t|] eqn:Ht; [|reflexivity].
  exfalso. apply strip_word_eqb in Ht. subst post.
  apply (count_char_zero _ _ H). rewrite E. apply in_or_app. right.
  left. reflexivity.
Qed.

(* ------------------------------------------------------------------ *)
(** ** No scanned pattern matches the empty text

    so the scan never takes its empty-match branch on them. *)

Lemma matches_seq_length : forall a b pos w g g',
    matches (Seq a b) pos w g g' ->
    exists w1 w2 g1, w = w1 ++ w2 /\ matches a pos w1 g g1
                     /\ matches b (pos + length w1) w2 g1 g'.
Proof.
  intros a b pos w g g' H. inversion H; subst. eauto 7.
Qed.

Lemma scanned_patterns_consume : forall r pos s m,
    In r [block_pattern; prefix_pattern; space_run; url_pattern] ->
    match_at r pos s = Some m -> mpos m <> pos.
Proof.
  intros r pos s m Hr H. apply match_at_sound in H.
  destruct H as (w & _ & Hp & Mw).
  assert (L : length w <> 0); [|lia].
  simpl in Hr. destruct Hr as [<-|[<-|[<-|[<-|[]]]]].
  - rewrite block_pattern_parts in Mw.
    apply matches_seq_length in Mw. destruct Mw as (w1 & w2 & g1 & -> & M1 & _).
    apply matches_literal_word in M1. destruct M1 as [-> _]. discriminate.
  - unfold prefix_pattern in Mw. cbn [seq_of] in Mw.
    apply matches_seq_length in Mw. destruct Mw as (w1 & w2 & g1 & -> & _ & Mw).
    apply matches_seq_length in Mw. destruct Mw as (w3 & w4 & g2 & -> & _ & Mw).
    apply matches_seq_length in Mw. destruct Mw as (w5 & w6 & g3 & -> & _ & Mw).
    apply matches_seq_length in Mw. destruct Mw as (w7 & w8 & g4 & -> & Mc & _).
    inversion Mc; subst. rewrite !length_app. simpl. lia.
  - unfold space_run, Plus in Mw.
    apply matches_seq_length in Mw. destruct Mw as (w1 & w2 & g1 & -> & Mc & _).
    inversion Mc; subst. discriminate.
  - unfold url_pattern in Mw. cbn [seq_of] in Mw.
    apply matches_seq_length in Mw. destruct Mw as (w1 & w2 & g1 & -> & M1 & _).
    apply matches_literal_word in M1. destruct M1 as [-> _]. discriminate.
Qed.
(* ------------------------------------------------------------------ *)
(** ** Properties of [clean_sql_query] *)

Lemma clean_sql_query_found : forall raw m,
    re_search sql_statement_pattern (strip_label (strip_fences raw)) = Some m ->
    exists sel body,
      Forall2 (fun l c => ignorecase_eq l c = true) (str "SELECT") sel
      /\ count_char (chr ";") body = 0
      /\ clean_sql_query raw = sel ++ squeeze false body ++ [chr ";"].
Proof.
  intros raw m H. unfold clean_sql_query, first_statement. rewrite H.
  apply search_statement in H. destruct H as (sel & body & E & F & C & _).
  exists sel, body. rewrite E, collapse_statement by exact F. auto.
Qed.

Lemma no_semicolon_no_statement : forall s,
    count_char (chr ";") s = 0 -> no_select_statement s.
Proof.
  intros s H w (sel & body & -> & _) (pre & post & E). subst s.
  rewrite !count_char_app in H. unfold count_char at 4 in H.
  simpl in H. lia.
Qed.

(** The label example of the specification: the label goes, the result
    starts with SELECT. *)
Example label_is_stripped :
  clean_sql_query (str "SQLQuery: SELECT name FROM S_RBR WHERE team='X';")
  = str "SELECT name FROM S_RBR WHERE team='X';".
Proof. vm_compute. reflexivity. Qed.

(** C1, as the specification words it, fails: a labelled text without a
    statement is returned with the label removed and its whitespace
    collapsed, which is neither a SELECT statement nor the raw text. *)
Lemma cleaned_text_not_raw :
  ~ (forall raw,
        clean_sql_query raw <> [] ->
        (starts_with_select (clean_sql_query raw)
         /\ ends_with_semicolon (clean_sql_query raw))
        \/ clean_sql_query raw = raw).
Proof.
  intros H. specialize (H (str "SQL:  list  tables")).
  assert (E : clean_sql_query (str "SQL:  list  tables") = str "list tables")
    by (vm_compute; reflexivity).
  rewrite E in H. destruct H as [[(sel & rest & Es & F) _]|Er].
  - discriminate.
  - inversion F as [|l c ls cs Hlc F' E1 E2]; subst.
    inversion Es; subst. vm_compute in Hlc. discriminate.
  - discriminate.
Qed.

(** C1 (amended): the cleaned text either starts with the token SELECT
    (letters compared as [re.IGNORECASE] compares them) and ends with a
    semicolon, which is the case exactly when the statement search finds a
    match in the fence- and label-stripped text, or it is that stripped text
    with its ends trimmed and every whitespace run collapsed to one space. *)
Theorem cleaned_text_shape : forall raw,
    let t := strip_label (strip_fences raw) in
    (re_search sql_statement_pattern t <> None
     /\ starts_with_select (clean_sql_query raw)
     /\ ends_with_semicolon (clean_sql_query raw))
    \/ (re_search sql_statement_pattern t = None
        /\ clean_sql_query raw = collapse_spaces t).
Proof.
  intros raw t. subst t.
  destruct (re_search sql_statement_pattern (strip_label (strip_fences raw)))
    as [m|] eqn:Hs.
  - left. destruct (clean_sql_query_found raw m Hs) as (sel & body & F & _ & E).
    split; [discriminate|]. rewrite E. split.
    + exists sel, (squeeze false body ++ [chr ";"]). auto.
    + exists (sel ++ squeeze false body). rewrite <- app_assoc. reflexivity.
  - right. split; [reflexivity|].
    unfold clean_sql_query, first_statement. rewrite Hs. reflexivity.
Qed.

(** C3, as the specification words it, fails: without a statement the
    stripped text is not returned unchanged, its whitespace is collapsed. *)
Lemma fallback_not_unchanged :
  ~ (forall raw,
        no_select_statement (strip_label (strip_fences raw)) ->
        clean_sql_query raw = strip_label (strip_fences raw)).
Proof.
  intros H. specialize (H (str "list  tables")).
  assert (N : no_select_statement
                (strip_label (strip_fences (str "list  tables"))))
    by (apply no_semicolon_no_statement; vm_compute; reflexivity).
  apply H in N. vm_compute in N. discriminate.
Qed.

(** C3 (amended): [clean_sql_query] is a total function on texts, and on a
    text whose fence- and label-stripped form holds no piece that starts with
    SELECT and ends with a semicolon it returns that stripped form with its
    ends trimmed and every whitespace run collapsed to one space. *)
Theorem fallback_is_collapsed : forall raw,
    no_select_statement (strip_label (strip_fences raw)) ->
    clean_sql_query raw = collapse_spaces (strip_label (strip_fences raw)).
Proof.
  intros raw Hno. unfold clean_sql_query, first_statement.
  destruct (re_search sql_statement_pattern (strip_label (strip_fences raw)))
    as [m|] eqn:Hs; [|reflexivity].
  exfalso. apply search_statement in Hs.
  destruct Hs as (sel & body & E & F & _ & Hocc).
  apply (Hno (group1 m)); [|exact Hocc].
  exists sel, body. auto.
Qed.

Lemma fallback_is_collapsed_witness :
  no_select_statement (strip_label (strip_fences (str "list  tables")))
  /\ clean_sql_query (str "list  tables") = str "list tables".
Proof.
  assert (N : no_select_statement
                (strip_label (strip_fences (str "list  tables"))))
    by (apply no_semicolon_no_statement; vm_compute; reflexivity).
  split; [exact N|].
  rewrite (fallback_is_collapsed (str "list  tables") N).
  vm_compute. reflexivity.
Defined.

(** C10: when the statement search succeeds, the returned text ends with a
    semicolon and holds exactly one: the lazy [.*?] stops at the first
    semicolon after SELECT and what follows it is dropped. *)
Theorem found_statement_one_semicolon : forall raw m,
    re_search sql_statement_pattern (strip_label (strip_fences raw)) = Some m ->
    ends_with_semicolon (clean_sql_query raw)
    /\ count_char (chr ";") (clean_sql_query raw) = 1.
Proof.
  intros raw m Hs.
  destruct (clean_sql_query_found raw m Hs) as (sel & body & F & C & E).
  rewrite E. split.
  - exists (sel ++ squeeze false body). rewrite <- app_assoc. reflexivity.
  - rewrite !count_char_app, squeeze_count by reflexivity.
    rewrite (select_letters_no_semicolon _ F), C. reflexivity.
Qed.

Lemma found_statement_one_semicolon_witness :
  ends_with_semicolon (clean_sql_query (str "select 1; select 2;"))
  /\ count_char (chr ";") (clean_sql_query (str "select 1; select 2;")) = 1.
Proof.
  eapply (found_statement_one_semicolon (str "select 1; select 2;")).
  vm_compute. reflexivity.
Defined.

(** The tag [SQLQuery] is listed after [SQL] in the alternation, so [SQL]
    is taken and [Query] stays in the content. *)
Example sqlquery_tag_leaves_query :
  clean_sql_query (str ("```SQLQuery" ++ nl ++ "list tables" ++ nl ++ "```"))
  = str "Query list tables".
Proof. vm_compute. reflexivity. Qed.

(** C8, as the specification words it, fails: text outside the fence is
    kept, so the result is not the fenced content alone. *)
Lemma fenced_content_not_alone :
  ~ (forall pre tag ws1 content ws2 post,
        In tag ([] :: fence_tags) ->
        forallb isspace ws1 = true -> forallb isspace ws2 = true ->
        strip content = content ->
        clean_sql_query
          (pre ++ str "```" ++ tag ++ ws1 ++ content ++ ws2 ++ str "```"
               ++ post)
        = content).
Proof.
  intros H.
  specialize (H (str "see ") (str "sql") (str nl) (str "list") (str nl) []).
  assert (E : clean_sql_query
                (str "see " ++ str "```" ++ str "sql" ++ str nl ++ str "list"
                     ++ str nl ++ str "```" ++ [])
              = str "see list") by (vm_compute; reflexivity).
  rewrite E in H.
  assert (X : str "see list" = str "list")
    by (apply H; vm_compute; auto).
  discriminate.
Qed.

(* ------------------------------------------------------------------ *)
(** ** Properties of the pipeline *)

(** Every run asks the model for a query twice, whatever happens next. *)
Lemma answer_generates_twice : forall self question tr tr' r,
    KabaddiSystem.answer self question tr = (tr', r) ->
    length (filter is_generate (new_events tr tr')) = 2.
Proof.
  intros self question tr tr' r H. rewrite answer_run in H. cbv zeta in H.
  repeat match type of H with
         | context [match ?x with _ => _ end] => destruct x
         end;
    inversion H; subst; rewrite <- ?app_assoc; rewrite new_events_app;
    reflexivity.
Qed.

(** C2: on a model that answers its two calls differently, the run holds
    two generation calls, and the query that is executed and returned is the
    cleaned second answer, not the cleaned first one kept as [raw_query]. *)
Theorem query_is_cleaned_second_generation :
  let self := sample_system (str "SELECT 1;") (str "SELECT 2;")
                            (str "[(2,)]") (str "It is 2.") in
  let run := KabaddiSystem.answer self (str "how many") [] in
  List.map fst (fst run)
  = [ Generate (str "how many"); Generate (str "how many");
      Execute (str "SELECT 2;");
      Rephrase (str "how many") (str "SELECT 2;") (str "[(2,)]") ]
  /\ List.map snd (firstn 2 (fst run))
     = [inr (str "SELECT 1;"); inr (str "SELECT 2;")]
  /\ (exists resp, snd run = inr resp
                   /\ QueryData.query (QueryResponse.data resp)
                      = str "SELECT 2;")
  /\ clean_sql_query (str "SELECT 1;") = str "SELECT 1;".
Proof.
  cbv zeta. split; [vm_compute; reflexivity|].
  split; [vm_compute; reflexivity|].
  split; [|vm_compute; reflexivity].
  eexists. split; [vm_compute; reflexivity|]. reflexivity.
Qed.

(** C4: when a call of the run raised (generation, execution or
    rephrasing), the response has status "error", empty answer and query,
    no raw results, and the token count of the prompt as [tokens_used]. *)
Theorem failure_gives_error_response : forall self question tr tr' r,
    KabaddiSystem.answer self question tr = (tr', r) ->
    Exists raised (new_events tr tr') ->
    exists resp,
      r = inr resp
      /\ QueryResponse.status resp = str "error"
      /\ QueryData.answer (QueryResponse.data resp) = []
      /\ QueryData.query (QueryResponse.data resp) = []
      /\ QueryData.raw_results (QueryResponse.data resp) = []
      /\ QueryData.tokens_used (QueryResponse.data resp)
         = length (KabaddiSystem.encoder self
                     (KabaddiSystem.prompt_str self question)).
Proof.
  intros self question tr tr' r H Hex. rewrite answer_run in H.
  cbv zeta in H.
  repeat match type of H with
         | context [match ?x with _ => _ end] => destruct x eqn:?
         end;
    inversion H; subst; clear H;
    try (eexists; repeat split; fail);
    exfalso; rewrite <- ?app_assoc in Hex; rewrite new_events_app in Hex;
    simpl in Hex;
    repeat (apply Exists_cons in Hex; destruct Hex as [Hex|Hex];
            [exact Hex|]);
    apply Exists_nil in Hex; exact Hex.
Qed.

Lemma failure_gives_error_response_witness :
  Exists raised
    (new_events [] (fst (KabaddiSystem.answer quota_system (str "who won") [])))
  /\ exists resp,
      snd (KabaddiSystem.answer quota_system (str "who won") []) = inr resp
      /\ QueryResponse.status resp = str "error"
      /\ QueryData.answer (QueryResponse.data resp) = []
      /\ QueryData.query (QueryResponse.data resp) = []
      /\ QueryData.raw_results (QueryResponse.data resp) = []
      /\ QueryData.tokens_used (QueryResponse.data resp)
         = length (KabaddiSystem.encoder quota_system
                     (KabaddiSystem.prompt_str quota_system (str "who won"))).
Proof.
  assert (Hex : Exists raised
                  (new_events []
                     (fst (KabaddiSystem.answer quota_system
                             (str "who won") []))))
    by (vm_compute; constructor; exact I).
  split; [exact Hex|].
  apply (failure_gives_error_response quota_system (str "who won") []
           (fst (KabaddiSystem.answer quota_system (str "who won") []))
           (snd (KabaddiSystem.answer quota_system (str "who won") []))).
  - reflexivity.
  - exact Hex.
Defined.

(** C5: when the executor returned a result that is empty once trimmed,
    the answer is the literal "No data available." and the run holds no
    rephrasing call. *)
Theorem empty_result_short_circuit :
  forall self question tr tr' r sql result,
    KabaddiSystem.answer self question tr = (tr', r) ->
    In (Execute sql, inr result) (new_events tr tr') ->
    strip result = [] ->
    (exists resp,
        r = inr resp
        /\ QueryResponse.status resp = str "success"
        /\ QueryData.answer (QueryResponse.data resp)
           = str "No data available.")
    /\ filter is_rephrase (new_events tr tr') = [].
Proof.
  intros self question tr tr' r sql result H Hin Hempty.
  rewrite answer_run in H. cbv zeta in H.
  repeat match type of H with
         | context [match ?x with _ => _ end] => destruct x eqn:?
         end;
    inversion H; subst; clear H;
    rewrite <- ?app_assoc in *; rewrite new_events_app in *;
    simpl in Hin;
    repeat match goal with
           | Hx : _ \/ _ |- _ => destruct Hx as [Hx|Hx]
           | Hx : (_, _) = (_, _) |- _ => inversion Hx; subst; clear Hx
           | Hx : False |- _ => contradiction
           end;
    try congruence.
  split; [|reflexivity]. eexists. repeat split.
Qed.

Lemma empty_result_short_circuit_witness :
  let self := sample_system (str "SELECT name FROM S_RBR;")
                            (str "SELECT name FROM S_RBR;")
                            (str "  ") (str "unused") in
  let run := KabaddiSystem.answer self (str "who won") [] in
  (exists resp,
      snd run = inr resp
      /\ QueryResponse.status resp = str "success"
      /\ QueryData.answer (QueryResponse.data resp)
         = str "No data available.")
  /\ filter is_rephrase (new_events [] (fst run)) = [].
Proof.
  cbv zeta.
  apply (empty_result_short_circuit
           (sample_system (str "SELECT name FROM S_RBR;")
                          (str "SELECT name FROM S_RBR;")
                          (str "  ") (str "unused"))
           (str "who won") [] _ _
           (str "SELECT name FROM S_RBR;") (str "  ")).
  - vm_compute. reflexivity.
  - vm_compute. right. right. left. reflexivity.
  - vm_compute. reflexivity.
Defined.

(** C6: in a successful response of a run whose executor returned a
    non-empty result, [tokens_used] is the token count of the prompt plus the
    token count of the answer text. *)
Theorem tokens_used_is_prompt_plus_answer :
  forall self question tr tr' resp sql result,
    KabaddiSystem.answer self question tr = (tr', inr resp) ->
    QueryResponse.status resp = str "success" ->
    In (Execute sql, inr result) (new_events tr tr') ->
    strip result <> [] ->
    QueryData.tokens_used (QueryResponse.data resp)
    = length (KabaddiSystem.encoder self
                (KabaddiSystem.prompt_str self question))
      + length (KabaddiSystem.encoder self
                  (QueryData.answer (QueryResponse.data resp))).
Proof.
  intros self question tr tr' resp sql result H Hok _ _.
  rewrite answer_run in H. cbv zeta in H.
  repeat match type of H with
         | context [match ?x with _ => _ end] => destruct x eqn:?
         end;
    inversion H; subst; clear H;
    try (vm_compute in Hok; discriminate); reflexivity.
Qed.

Lemma tokens_used_is_prompt_plus_answer_witness :
  let self := sample_system (str "SELECT name FROM S_RBR;")
                            (str "SELECT name FROM S_RBR;")
                            (str "[('Pawan',)]") (str "Pawan") in
  exists resp,
    snd (KabaddiSystem.answer self (str "who won") []) = inr resp
    /\ QueryData.tokens_used (QueryResponse.data resp)
       = length (KabaddiSystem.encoder self
                   (KabaddiSystem.prompt_str self (str "who won")))
         + length (KabaddiSystem.encoder self (str "Pawan")).
Proof.
  cbv zeta. eexists. split; [vm_compute; reflexivity|].
  refine (tokens_used_is_prompt_plus_answer
            (sample_system (str "SELECT name FROM S_RBR;")
                           (str "SELECT name FROM S_RBR;")
                           (str "[('Pawan',)]") (str "Pawan"))
            (str "who won") [] _ _
            (str "SELECT name FROM S_RBR;") (str "[('Pawan',)]") _ _ _ _).
  - vm_compute. reflexivity.
  - vm_compute. reflexivity.
  - vm_compute. right. right. left. reflexivity.
  - vm_compute. discriminate.
Defined.

Lemma success_raw_results : forall self n response tr,
    QueryData.raw_results
      (QueryResponse.data (KabaddiSystem.success_response self n response tr))
    = List.map (fun u => {| url := u |})
        (re_findall url_pattern (ChainOutput.answer response))
    /\ QueryData.answer
         (QueryResponse.data
            (KabaddiSystem.success_response self n response tr))
       = ChainOutput.answer response.
Proof. intros. split; reflexivity. Qed.

(** C7: in a successful response, [raw_results] holds one entry per URL of
    the answer text, in order: reading the answer left to right, each
    [http://] or [https://] followed by a character that is neither
    whitespace nor a pipe starts a URL, which runs up to the next whitespace,
    pipe or the end of the text.  An answer "See https://example.com/a|other
    text" gives the single entry "https://example.com/a". *)
Theorem raw_results_are_the_urls : forall self question tr tr' resp,
    KabaddiSystem.answer self question tr = (tr', inr resp) ->
    QueryResponse.status resp = str "success" ->
    QueryData.raw_results (QueryResponse.data resp)
    = List.map (fun u => {| url := u |})
        (re_findall url_pattern (QueryData.answer (QueryResponse.data resp)))
    /\ url_scan (QueryData.answer (QueryResponse.data resp))
         (List.map url (QueryData.raw_results (QueryResponse.data resp)))
    /\ (QueryData.answer (QueryResponse.data resp)
        = str "See https://example.com/a|other text" ->
        QueryData.raw_results (QueryResponse.data resp)
        = [ {| url := str "https://example.com/a" |} ]).
Proof.
  intros self question tr tr' resp H Hok.
  assert (G : QueryData.raw_results (QueryResponse.data resp)
              = List.map (fun u => {| url := u |})
                  (re_findall url_pattern
                     (QueryData.answer (QueryResponse.data resp)))).
  { rewrite answer_run in H. cbv zeta in H.
    repeat match type of H with
           | context [match ?x with _ => _ end] => destruct x eqn:?
           end;
      inversion H; subst; clear H;
      try (vm_compute in Hok; discriminate); reflexivity. }
  split; [exact G|]. split.
  - rewrite G, map_map. cbn [url]. rewrite map_id. apply re_findall_urls.
  - intros E. rewrite G, E. vm_compute. reflexivity.
Qed.

Lemma raw_results_are_the_urls_witness :
  let self := sample_system (str "SELECT name FROM S_RBR;")
                            (str "SELECT name FROM S_RBR;")
                            (str "[('a',)]")
                            (str "See https://example.com/a|other text") in
  exists resp,
    snd (KabaddiSystem.answer self (str "who won") []) = inr resp
    /\ QueryData.answer (QueryResponse.data resp)
       = str "See https://example.com/a|other text"
    /\ QueryData.raw_results (QueryResponse.data resp)
       = [ {| url := str "https://example.com/a" |} ].
Proof.
  cbv zeta. eexists. split; [vm_compute; reflexivity|].
  split; [vm_compute; reflexivity|].
  refine (proj2 (proj2 (raw_results_are_the_urls
            (sample_system (str "SELECT name FROM S_RBR;")
                           (str "SELECT name FROM S_RBR;")
                           (str "[('a',)]")
                           (str "See https://example.com/a|other text"))
            (str "who won") [] _ _ _ _)) _).
  - vm_compute. reflexivity.
  - vm_compute. reflexivity.
  - vm_compute. reflexivity.
Defined.

(* ------------------------------------------------------------------ *)
(** ** Further properties of [clean_sql_query] *)

#[local] Arguments scan_at : simpl never.

Lemma skip_class_idem : forall p s,
    skip_class p (skip_class p s) = skip_class p s.
Proof.
  induction s as [|c t IH]; simpl; [reflexivity|].
  destruct (p c) eqn:Hc; [exact IH|]. simpl. rewrite Hc. reflexivity.
Qed.

Lemma skip_class_snoc : forall p s a,
    p a = false -> skip_class p (s ++ [a]) = skip_class p s ++ [a].
Proof.
  induction s as [|c t IH]; simpl; intros a Ha.
  - rewrite Ha. reflexivity.
  - destruct (p c); auto.
Qed.

Lemma rstrip_cons_kept : forall a t,
    isspace a = false -> rstrip (a :: t) = a :: rstrip t.
Proof.
  intros a t Ha. unfold rstrip, lstrip. simpl rev.
  rewrite skip_class_snoc by exact Ha. rewrite rev_app_distr. reflexivity.
Qed.

Lemma rstrip_snoc_kept : forall t b,
    isspace b = false -> rstrip (t ++ [b]) = t ++ [b].
Proof.
  intros t b Hb. unfold rstrip, lstrip. rewrite rev_app_distr. simpl.
  rewrite Hb. change (b :: rev t) with (rev [b] ++ rev t).
  rewrite <- rev_app_distr, rev_involutive. reflexivity.
Qed.

Lemma rstrip_idem : forall s, rstrip (rstrip s) = rstrip s.
Proof.
  intros s. unfold rstrip, lstrip. rewrite rev_involutive, skip_class_idem.
  reflexivity.
Qed.

Lemma lstrip_strip : forall s, lstrip (strip s) = strip s.
Proof.
  intros s. unfold strip.
  destruct (lstrip s) as [|a t] eqn:E; [reflexivity|].
  assert (Ha : isspace a = false)
    by (eapply skip_class_head; exact E).
  rewrite rstrip_cons_kept by exact Ha. unfold lstrip. simpl.
  rewrite Ha. reflexivity.
Qed.

Lemma rstrip_strip : forall s, rstrip (strip s) = strip s.
Proof. intros s. unfold strip. apply rstrip_idem. Qed.

(** A text [rstrip] leaves alone is empty or ends with a character that is
    not whitespace. *)
Lemma rstrip_fixed_last : forall s,
    rstrip s = s -> s = [] \/ exists t b, s = t ++ [b] /\ isspace b = false.
Proof.
  intros s H. destruct (rev s) as [|b r] eqn:E.
  - left. apply (f_equal (@rev N)) in E. rewrite rev_involutive in E.
    exact E.
  - right. exists (rev r), b.
    assert (Es : s = rev r ++ [b]).
    { apply (f_equal (@rev N)) in E. rewrite rev_involutive in E.
      exact E. }
    split; [exact Es|].
    assert (F : forallb isspace [b] = false)
      by (apply (rstrip_fixed s (rev r) [b] H Es); discriminate).
    simpl in F. rewrite andb_true_r in F. exact F.
Qed.

Lemma squeeze_trimmed : forall s,
    lstrip s = s -> rstrip s = s ->
    lstrip (squeeze false s) = squeeze false s
    /\ rstrip (squeeze false s) = squeeze false s.
Proof.
  intros s Hl Hr. split.
  - destruct s as [|a t]; [reflexivity|].
    pose proof (lstrip_fixed a t Hl) as Ha. simpl. rewrite Ha.
    unfold lstrip. simpl. rewrite Ha. reflexivity.
  - destruct (rstrip_fixed_last s Hr) as [->|(t & b & -> & Hb)];
      [reflexivity|].
    rewrite squeeze_last by exact Hb. apply rstrip_snoc_kept. exact Hb.
Qed.

Lemma squeeze_single_spaced : forall t b,
    single_spaced b (squeeze b t) = true.
Proof.
  induction t as [|c t IH]; intros b; simpl; [reflexivity|].
  destruct (isspace c) eqn:Hc.
  - destruct b; [apply IH|]. simpl. rewrite IH. reflexivity.
  - simpl. rewrite Hc. apply IH.
Qed.

Lemma single_spaced_squeeze : forall t b,
    single_spaced b t = true -> squeeze b t = t.
Proof.
  induction t as [|c t IH]; intros b H; simpl in *; [reflexivity|].
  destruct (isspace c) eqn:Hc.
  - apply andb_true_iff in H. destruct H as [H Ht].
    apply andb_true_iff in H. destruct H as [E Hb].
    apply N.eqb_eq in E. subst c. destruct b; [discriminate|].
    f_equal. apply IH. exact Ht.
  - f_equal. apply IH. exact H.
Qed.

Lemma single_spaced_chars : forall t b c,
    single_spaced b t = true -> In c t -> isspace c = true -> c = 32%N.
Proof.
  induction t as [|a t IH]; intros b c H Hin Hc; [contradiction|].
  simpl in H. destruct (isspace a) eqn:Ha.
  - apply andb_true_iff in H. destruct H as [H Ht].
    apply andb_true_iff in H. destruct H as [E _]. apply N.eqb_eq in E.
    destruct Hin as [<-|Hin]; [exact E|]. eapply IH; eauto.
  - destruct Hin as [<-|Hin]; [congruence|]. eapply IH; eauto.
Qed.

Lemma collapse_spaces_shape : forall t,
    strip (collapse_spaces t) = collapse_spaces t
    /\ single_spaced false (collapse_spaces t) = true.
Proof.
  intros t. rewrite collapse_spaces_squeeze.
  destruct (squeeze_trimmed (strip t) (lstrip_strip t) (rstrip_strip t))
    as [Hl Hr].
  split; [|apply squeeze_single_spaced].
  unfold strip at 1. rewrite Hl. exact Hr.
Qed.

(** X1: the text [clean_sql_query] returns has no whitespace at its ends,
    and whitespace inside it is single U+0020 characters only: no newline or
    tab, no two spaces in a row. *)
Theorem cleaned_text_is_single_spaced : forall raw,
    strip (clean_sql_query raw) = clean_sql_query raw
    /\ single_spaced false (clean_sql_query raw) = true
    /\ (forall c, In c (clean_sql_query raw) -> isspace c = true ->
                  c = 32%N).
Proof.
  intros raw. unfold clean_sql_query.
  destruct (collapse_spaces_shape
              (first_statement (strip_label (strip_fences raw))))
    as [Hs Hss].
  split; [exact Hs|]. split; [exact Hss|].
  intros c. apply single_spaced_chars with (b := false). exact Hss.
Qed.

(** X2: collapsing whitespace twice is collapsing it once. *)
Theorem collapse_spaces_idempotent : forall t,
    collapse_spaces (collapse_spaces t) = collapse_spaces t.
Proof.
  intros t. destruct (collapse_spaces_shape t) as [Hs Hss].
  rewrite (collapse_spaces_squeeze (collapse_spaces t)), Hs.
  apply single_spaced_squeeze. exact Hss.
Qed.

(* ------------------------------------------------------------------ *)
(** ** The matcher finds a match when there is one *)

Section MatcherComplete.
Variable A : Type.
Implicit Types (k : mstate -> option A) (p : N -> bool).

Lemma star_greedy_complete : forall p w rest pos g k x,
    forallb p w = true ->
    k (MState (pos + length w) rest g) = Some x ->
    exists y, star_greedy p pos (w ++ rest) g k = Some y.
Proof.
  induction w as [|c w IH]; intros rest pos g k x Hw Hk.
  - simpl in *. rewrite Nat.add_0_r in Hk.
    destruct rest as [|c t]; simpl; [eauto|].
    destruct (p c); [|eauto].
    destruct (star_greedy p (S pos) t g k); eauto.
  - simpl in Hw. apply andb_true_iff in Hw. destruct Hw as [Hc Hw].
    simpl. rewrite Hc.
    destruct (IH rest (S pos) g k x Hw) as (y & E).
    + replace (S pos + length w) with (pos + length (c :: w))
        by (simpl; lia). exact Hk.
    + rewrite E. eauto.
Qed.

Lemma star_lazy_complete : forall p w rest pos g k x,
    forallb p w = true ->
    k (MState (pos + length w) rest g) = Some x ->
    exists y, star_lazy p pos (w ++ rest) g k = Some y.
Proof.
  induction w as [|c w IH]; intros rest pos g k x Hw Hk.
  - simpl in *. rewrite Nat.add_0_r in Hk. exists x.
    apply star_lazy_zero. exact Hk.
  - simpl in Hw. apply andb_true_iff in Hw. destruct Hw as [Hc Hw].
    simpl. destruct (k (MState pos (c :: w ++ rest) g)); [eauto|].
    rewrite Hc. apply (IH rest (S pos) g k x Hw).
    replace (S pos + length w) with (pos + length (c :: w))
      by (simpl; lia). exact Hk.
Qed.

Lemma rmatch_complete : forall r pos w g g',
    matches r pos w g g' ->
    forall rest k x,
      k (MState (pos + length w) rest g') = Some x ->
      exists y, rmatch r (MState pos (w ++ rest) g) k = Some y.
Proof.
  induction 1 as [pos g|g|p c pos g Hc|a b pos w1 w2 g g1 g2 Ha IHa Hb IHb
                 |a b pos w g g' Ha IHa|a b pos w g g' Hb IHb
                 |p pos w g Hw|p pos w g Hw|a pos w g g' Ha IHa];
    intros rest k x Hk; simpl.
  - rewrite Nat.add_0_r in Hk. eauto.
  - eauto.
  - rewrite Hc. simpl in Hk. rewrite Nat.add_1_r in Hk. eauto.
  - rewrite <- app_assoc. rewrite length_app, Nat.add_assoc in Hk.
    destruct (IHb rest k x Hk) as (y & Ey).
    apply (IHa (w2 ++ rest) (fun st' => rmatch b st' k) y). exact Ey.
  - destruct (IHa rest k x Hk) as (y & Ey). rewrite Ey. eauto.
  - destruct (rmatch a (MState pos (w ++ rest) g) k); [eauto|].
    apply (IHb rest k x Hk).
  - apply star_greedy_complete with (x := x); assumption.
  - apply star_lazy_complete with (x := x); assumption.
  - apply (IHa rest _ x). simpl.
    replace (pos + length w - pos) with (length w) by lia.
    rewrite firstn_app, Nat.sub_diag, firstn_all. simpl.
    rewrite app_nil_r. exact Hk.
Qed.
End MatcherComplete.

Lemma match_at_complete : forall r pos w rest g',
    matches r pos w None g' ->
    exists m, match_at r pos (w ++ rest) = Some m.
Proof.
  intros r pos w rest g' H. unfold match_at.
  eapply rmatch_complete; [exact H|reflexivity].
Qed.

Lemma search_from_complete : forall r pre post pos m,
    match_at r (pos + length pre) post = Some m ->
    exists m', search_from r pos (pre ++ post) = Some m'.
Proof.
  intros r. induction pre as [|c pre IH]; intros post pos m H.
  - simpl in H. rewrite Nat.add_0_r in H. simpl.
    destruct post; simpl; rewrite H; eauto.
  - simpl. destruct (match_at r pos (c :: pre ++ post)); [eauto|].
    apply (IH post (S pos) m).
    replace (S pos + length pre) with (pos + length (c :: pre))
      by (simpl; lia). exact H.
Qed.

Lemma matches_word_intro : forall (f : N -> N -> bool) w s pos g,
    Forall2 (fun l c => f l c = true) w s ->
    matches (seq_of (List.map (fun l => Chr (f l)) w)) pos s g g.
Proof.
  intros f w s pos g H. revert pos.
  induction H as [|l c w s Hlc _ IH]; intros pos; simpl.
  - constructor.
  - change (c :: s) with ([c] ++ s). econstructor.
    + constructor. exact Hlc.
    + apply IH.
Qed.

Lemma matches_classes_within : forall P r pos w g g',
    classes_within P r -> matches r pos w g g' -> forallb P w = true.
Proof.
  intros P r pos w g g' Hc H. induction H; simpl in Hc; simpl; auto.
  - rewrite (Hc _ H). reflexivity.
  - destruct Hc as [Ca Cb]. rewrite forallb_app, IHmatches1, IHmatches2; auto.
  - destruct Hc; auto.
  - destruct Hc; auto.
  - rewrite forallb_forall in *. auto.
  - rewrite forallb_forall in *. auto.
Qed.

(* ------------------------------------------------------------------ *)
(** ** The label pattern *)

Lemma isspace_printable : forall c, (33 <= c <= 132)%N -> isspace c = false.
Proof.
  intros c H. unfold isspace.
  repeat match goal with
         | |- context [(?a <=? ?b)%N] =>
             destruct (N.leb_spec a b); try (exfalso; lia)
         | |- context [(?a =? ?b)%N] =>
             destruct (N.eqb_spec a b); try (exfalso; lia)
         end; reflexivity.
Qed.

Lemma sre_lower_letter : forall l,
    ascii_letter l = true -> (97 <= sre_lower l <= 122)%N.
Proof.
  intros l H. unfold ascii_letter in H. unfold sre_lower.
  repeat match goal with
         | |- context [(?a <=? ?b)%N] => destruct (N.leb_spec a b)
         | |- context [(?a =? ?b)%N] => destruct (N.eqb_spec a b)
         | H : context [(?a <=? ?b)%N] |- _ => destruct (N.leb_spec a b)
         end; simpl in *; try discriminate; lia.
Qed.

(** What a letter of a pattern matches under [re.IGNORECASE]. *)
Lemma ignorecase_letter_class : forall l c,
    ascii_letter l = true -> ignorecase_eq l c = true ->
    isspace c = false /\ not_colon c = true.
Proof.
  intros l c Hl H. pose proof (sre_lower_letter l Hl) as R.
  unfold ignorecase_eq in H. apply orb_true_iff in H.
  assert (G : (65 <= c <= 122)%N \/ c = 304%N \/ c = 8490%N \/ c = 383%N).
  { destruct H as [H|H].
    - apply N.eqb_eq in H.
      destruct (sre_lower_cases c) as [E|[[Rc E]|[[-> E]|[-> E]]]]; auto.
      + left. lia.
      + left. lia.
    - apply andb_true_iff in H. destruct H as [_ H]. apply N.eqb_eq in H.
      auto. }
  destruct G as [G|[ -> |[ -> | -> ]]]; try (split; reflexivity).
  split; [apply isspace_printable; lia|].
  unfold not_colon. destruct (N.eqb_spec c 58); [lia|reflexivity].
Qed.

Lemma space_not_colon : forall c, isspace c = true -> not_colon c = true.
Proof.
  intros c H. unfold not_colon. destruct (N.eqb_spec c 58) as [->|];
    [vm_compute in H; discriminate|reflexivity].
Qed.

Lemma label_classes : classes_within not_colon (Seq label_alternatives ws).
Proof.
  unfold label_alternatives, ws. cbn [alt_of seq_of classes_within].
  repeat split; try exact space_not_colon;
    unfold LitI; intros c Hc;
    refine (proj2 (ignorecase_letter_class _ c _ Hc)); reflexivity.
Qed.

Lemma not_colon_count : forall l,
    forallb not_colon l = true -> count_char (chr ":") l = 0.
Proof.
  intros l H. unfold count_char. apply filter_none. intros c Hc.
  rewrite forallb_forall in H. specialize (H c Hc). unfold not_colon in H.
  apply negb_true_iff in H. rewrite N.eqb_sym. exact H.
Qed.

Lemma first_split_unique : forall (c : N) a a' r r',
    a ++ c :: r = a' ++ c :: r' -> ~ In c a -> ~ In c a' ->
    a = a' /\ r = r'.
Proof.
  intros c. induction a as [|x a IH]; intros [|y a'] r r' E Ha Ha'.
  - inversion E. auto.
  - inversion E; subst. exfalso. apply Ha'. left. reflexivity.
  - inversion E; subst. exfalso. apply Ha. left. reflexivity.
  - inversion E; subst.
    destruct (IH a' r r') as [-> ->]; auto.
    + intros H. apply Ha. right. exact H.
    + intros H. apply Ha'. right. exact H.
Qed.

Lemma prefix_pattern_front : forall pos s,
    match_at prefix_pattern pos s
    = rmatch label_front (MState pos s None)
        (fun st => star_greedy isspace (mpos st) (mrest st) (mgroup st)
                     (@Some mstate)).
Proof. reflexivity. Qed.

Lemma prefix_pattern_anchored : forall pos s,
    pos <> 0 -> match_at prefix_pattern pos s = None.
Proof.
  intros [|pos] s H; [contradiction|]. reflexivity.
Qed.

(** What the label alternatives match. *)
Lemma matches_label_word : forall pos w g g',
    matches label_alternatives pos w g g' -> label_word w /\ g' = g.
Proof.
  intros pos w g g' H. unfold label_alternatives in H.
  cbn [alt_of seq_of] in H. unfold label_word.
  inversion H as [| | | |? ? ? ? ? ? H1|? ? ? ? ? ? H2| | |]; subst; clear H.
  { apply matches_seq_length in H1.
    destruct H1 as (a & r1 & g1 & -> & Ma & H1).
    apply matches_seq_length in H1.
    destruct H1 as (sp & r2 & g2 & -> & Ms & H1).
    apply matches_seq_length in H1.
    destruct H1 as (b & r3 & g3 & -> & Mb & H1).
    inversion H1; subst. inversion Ms; subst.
    apply (matches_word ignorecase_eq) in Ma, Mb.
    destruct Ma as [Fa ->], Mb as [Fb ->].
    split; [|reflexivity]. left. exists a, sp, b.
    rewrite app_nil_r. auto. }
  inversion H2 as [| | | |? ? ? ? ? ? H1|? ? ? ? ? ? H3| | |]; subst; clear H2.
  { apply (matches_word ignorecase_eq) in H1. destruct H1 as [F ->].
    split; [|reflexivity]. right. left. exact F. }
  inversion H3 as [| | | |? ? ? ? ? ? H1|? ? ? ? ? ? H4| | |]; subst; clear H3.
  { apply (matches_word ignorecase_eq) in H1. destruct H1 as [F ->].
    split; [|reflexivity]. right. right. left. exact F. }
  inversion H4 as [| | | |? ? ? ? ? ? H1|? ? ? ? ? ? H5| | |]; subst; clear H4.
  { apply (matches_word ignorecase_eq) in H1. destruct H1 as [F ->].
    split; [|reflexivity]. right. right. right. left. exact F. }
  apply (matches_word ignorecase_eq) in H5. destruct H5 as [F ->].
  split; [|reflexivity]. right. right. right. right. exact F.
Qed.

Lemma label_word_matches : forall pos w g,
    label_word w -> matches label_alternatives pos w g g.
Proof.
  intros pos w g H. unfold label_alternatives. cbn [alt_of seq_of].
  destruct H as [(a & sp & b & -> & Fa & Hs & Fb)|[F|[F|[F|F]]]].
  - apply M_AltL. econstructor.
    + apply (matches_word_intro ignorecase_eq). exact Fa.
    + econstructor; [constructor; exact Hs|].
      rewrite <- (app_nil_r b). econstructor; [|constructor].
      apply (matches_word_intro ignorecase_eq). exact Fb.
  - apply M_AltR, M_AltL. apply (matches_word_intro ignorecase_eq). exact F.
  - apply M_AltR, M_AltR, M_AltL.
    apply (matches_word_intro ignorecase_eq). exact F.
  - apply M_AltR, M_AltR, M_AltR, M_AltL.
    apply (matches_word_intro ignorecase_eq). exact F.
  - apply M_AltR, M_AltR, M_AltR, M_AltR.
    apply (matches_word_intro ignorecase_eq). exact F.
Qed.

(** A match of [prefix_pattern]: a label, whitespace, the colon, and all
    the whitespace after it. *)
Lemma match_label_shape : forall pos s m,
    match_at prefix_pattern pos s = Some m ->
    exists lab sp rest,
      s = lab ++ sp ++ chr ":" :: rest
      /\ label_word lab /\ forallb isspace sp = true
      /\ count_char (chr ":") (lab ++ sp) = 0
      /\ mrest m = lstrip rest.
Proof.
  intros pos s m H. rewrite prefix_pattern_front in H.
  apply rmatch_sound in H. destruct H as (w & rest & g' & E & Mw & Hk).
  cbn [mpos mrest mgroup] in *. rewrite star_greedy_all in Hk.
  inversion Hk; subst m; clear Hk. cbn [mrest].
  unfold label_front in Mw.
  apply matches_seq_length in Mw. destruct Mw as (w0 & w1 & g1 & -> & M0 & Mw).
  inversion M0; subst; clear M0. cbn [app length] in *.
  apply matches_seq_length in Mw.
  destruct Mw as (lab & w2 & g2 & -> & Mlab & Mw).
  apply matches_seq_length in Mw.
  destruct Mw as (sp & w3 & g3 & -> & Msp & Mc).
  assert (Hnc : forallb not_colon (lab ++ sp) = true).
  { apply (matches_classes_within not_colon (Seq label_alternatives ws)
             0 (lab ++ sp) None g3 label_classes).
    econstructor; eassumption. }
  apply matches_label_word in Mlab. destruct Mlab as [Hlab ->].
  inversion Msp; subst. unfold Lit in Mc.
  inversion Mc as [| |? c0 ? ? Hc0| | | | | |]; subst.
  apply N.eqb_eq in Hc0. subst c0.
  exists lab, sp, rest. rewrite <- ?app_assoc.
  repeat split; auto. apply not_colon_count. exact Hnc.
Qed.

(** [strip_label] is decided by the one match attempt at position 0. *)
Lemma strip_label_at_start : forall s,
    strip_label s = match match_at prefix_pattern 0 s with
                    | Some m => mrest m
                    | None => s
                    end.
Proof.
  intros s. unfold strip_label. rewrite re_sub_scan_at, scan_at_eq.
  assert (Later : forall pos t, pos <> 0 ->
            flat_map (expand (fun _ => [])) (scan_at prefix_pattern pos t) = t).
  { intros pos t Hp. apply scan_no_match. intros pre post _.
    apply prefix_pattern_anchored. lia. }
  destruct (match_at prefix_pattern 0 s) as [m|] eqn:Hm.
  - pose proof (scanned_patterns_consume prefix_pattern 0 s m) as Hne.
    rewrite (proj2 (Nat.eqb_neq _ _)) by (apply Hne; simpl; auto).
    cbn [flat_map expand app]. apply Later. apply Hne; simpl; auto.
  - destruct s as [|c t]; [reflexivity|].
    cbn [flat_map expand app]. f_equal. apply Later. discriminate.
Qed.

Lemma same_letters_head : forall s0 s l,
    same_letters (String s0 s) l ->
    exists a r, l = a :: r /\ ignorecase_eq (N_of_ascii s0) a = true
                /\ same_letters s r.
Proof.
  unfold same_letters. intros s0 s l H. simpl in H.
  inversion H; subst. eauto.
Qed.

Lemma label_word_head : forall lab,
    label_word lab ->
    exists a b r,
      lab = a :: b :: r /\ isspace a = false
      /\ (ignorecase_eq 81 b = true \/ ignorecase_eq 121 b = true
          \/ ignorecase_eq 111 b = true).
Proof.
  intros lab H.
  assert (G : forall s0 s1 s l,
             same_letters (String s0 (String s1 s)) l ->
             ascii_letter (N_of_ascii s0) = true ->
             exists a b r, l = a :: b :: r /\ isspace a = false
                           /\ ignorecase_eq (N_of_ascii s1) b = true).
  { intros s0 s1 s l F L.
    apply same_letters_head in F. destruct F as (a & r & -> & Ha & F).
    apply same_letters_head in F. destruct F as (b & r' & -> & Hb & _).
    exists a, b, r'. split; [reflexivity|]. split; [|exact Hb].
    apply (ignorecase_letter_class _ a L Ha). }
  destruct H as [(a & sp & b & -> & Fa & _ & _)|[F|[F|[F|F]]]];
    try (destruct (G _ _ _ _ F eq_refl) as (x & y & r & -> & Hx & Hy);
         exists x, y, r; simpl in Hy; auto 6).
  destruct (G _ _ _ _ Fa eq_refl) as (x & y & r & -> & Hx & Hy).
  exists x, y, (r ++ sp ++ b). simpl in Hy. auto 6.
Qed.

Lemma search_none : forall s,
    no_select_statement s -> re_search sql_statement_pattern s = None.
Proof.
  intros s Hno.
  destruct (re_search sql_statement_pattern s) as [m|] eqn:Hs;
    [|reflexivity].
  exfalso. apply search_statement in Hs.
  destruct Hs as (sel & body & E & F & _ & Hocc).
  apply (Hno (group1 m)); [|exact Hocc]. exists sel, body. auto.
Qed.

Lemma strip_label_no_colon : forall s,
    count_char (chr ":") s = 0 -> strip_label s = s.
Proof.
  intros s H. rewrite strip_label_at_start.
  destruct (match_at prefix_pattern 0 s) as [m|] eqn:Hm; [|reflexivity].
  exfalso. apply match_label_shape in Hm.
  destruct Hm as (lab & sp & rest & -> & _).
  apply (count_char_zero _ _ H). rewrite app_assoc.
  apply in_or_app. right. left. reflexivity.
Qed.

(** X3: a text without backtick, colon and semicolon only has its
    whitespace trimmed and collapsed. *)
Theorem plain_text_is_only_collapsed : forall t,
    count_char (chr "`") t = 0 -> count_char (chr ":") t = 0 ->
    count_char (chr ";") t = 0 ->
    clean_sql_query t = collapse_spaces t.
Proof.
  intros t Hb Hc Hs. unfold clean_sql_query, first_statement.
  rewrite (strip_fences_plain t Hb), (strip_label_no_colon t Hc).
  rewrite search_none by (apply no_semicolon_no_statement; exact Hs).
  reflexivity.
Qed.

Lemma plain_text_is_only_collapsed_witness :
  clean_sql_query (str "  I cannot answer   that ")
  = str "I cannot answer that".
Proof.
  rewrite (plain_text_is_only_collapsed (str "  I cannot answer   that "))
    by (vm_compute; reflexivity).
  vm_compute. reflexivity.
Defined.

(** X4: [strip_label] either leaves the text as it is, or the text is a
    label, whitespace, a colon and a rest, and what is returned is the rest
    without its leading whitespace: nothing but the label at the very start
    is ever removed. *)
Theorem label_removal_shape : forall t,
    strip_label t = t
    \/ exists lab sp rest,
        t = lab ++ sp ++ chr ":" :: rest
        /\ label_word lab /\ forallb isspace sp = true
        /\ strip_label t = lstrip rest.
Proof.
  intros t. rewrite strip_label_at_start.
  destruct (match_at prefix_pattern 0 t) as [m|] eqn:Hm; [|left; reflexivity].
  right. apply match_label_shape in Hm.
  destruct Hm as (lab & sp & rest & E & Hl & Hs & _ & Hr).
  exists lab, sp, rest. auto.
Qed.

(** X5: a label at the start, in any letter case and with any whitespace
    around its colon, is removed together with the colon and that
    whitespace. *)
Theorem label_is_removed : forall lab sp rest,
    label_word lab -> forallb isspace sp = true ->
    strip_label (lab ++ sp ++ chr ":" :: rest) = lstrip rest.
Proof.
  intros lab sp rest Hl Hs.
  assert (Mls : matches (Seq label_alternatives ws) 0 (lab ++ sp) None None).
  { econstructor; [apply label_word_matches; exact Hl|].
    constructor. exact Hs. }
  assert (Mf : matches label_front 0 ((lab ++ sp) ++ [chr ":"]) None None).
  { unfold label_front. change ((lab ++ sp) ++ [chr ":"])
      with ([] ++ (lab ++ sp) ++ [chr ":"]).
    econstructor; [constructor|]. simpl. rewrite <- app_assoc.
    econstructor; [apply label_word_matches; exact Hl|].
    econstructor; [constructor; exact Hs|].
    constructor. apply N.eqb_refl. }
  assert (Hm : exists m,
             match_at prefix_pattern 0 (lab ++ sp ++ chr ":" :: rest) = Some m).
  { rewrite prefix_pattern_front.
    replace (lab ++ sp ++ chr ":" :: rest)
      with (((lab ++ sp) ++ [chr ":"]) ++ rest)
      by (rewrite <- !app_assoc; reflexivity).
    eapply rmatch_complete; [exact Mf|].
    cbn [mpos mrest mgroup]. apply star_greedy_all. }
  destruct Hm as (m & Hm). rewrite strip_label_at_start, Hm.
  apply match_label_shape in Hm.
  destruct Hm as (lab' & sp' & rest' & E & _ & _ & Hc & ->).
  rewrite !app_assoc in E.
  apply first_split_unique in E.
  - destruct E as [_ ->]. reflexivity.
  - apply count_char_zero, not_colon_count.
    apply (matches_classes_within not_colon _ _ _ _ _ label_classes Mls).
  - apply count_char_zero. exact Hc.
Qed.

Lemma label_is_removed_witness :
  strip_label (str "sqlquery" ++ str " " ++ chr ":" :: str "  SELECT 1;")
  = str "SELECT 1;".
Proof.
  change (str "SELECT 1;") with (lstrip (str "  SELECT 1;")).
  apply label_is_removed.
  - right. left. unfold same_letters. repeat constructor.
  - reflexivity.
Defined.

(** X6: the label is looked for at the very first character only: a text
    that starts with whitespace keeps its label, and when it has no fence
    either, the label is still there when the statement search and the
    whitespace collapse run. *)
Theorem label_after_whitespace_is_kept : forall c t,
    isspace c = true ->
    strip_label (c :: t) = c :: t
    /\ (count_char (chr "`") t = 0 ->
        clean_sql_query (c :: t) = collapse_spaces (first_statement (c :: t))).
Proof.
  intros c t Hc.
  assert (E : strip_label (c :: t) = c :: t).
  { rewrite strip_label_at_start.
    destruct (match_at prefix_pattern 0 (c :: t)) as [m|] eqn:Hm;
      [|reflexivity].
    exfalso. apply match_label_shape in Hm.
    destruct Hm as (lab & sp & rest & El & Hl & _).
    apply label_word_head in Hl.
    destruct Hl as (a & b & r & -> & Ha & _).
    inversion El; subst. congruence. }
  split; [exact E|]. intros Hb. unfold clean_sql_query.
  rewrite strip_fences_plain, E; [reflexivity|].
  unfold count_char in *. cbn [filter].
  destruct (N.eqb_spec (chr "`") c) as [<-|]; [|exact Hb].
  vm_compute in Hc. discriminate.
Qed.

Lemma label_after_whitespace_is_kept_witness :
  clean_sql_query (str " SQL: list  tables") = str "SQL: list tables".
Proof.
  change (str " SQL: list  tables")
    with (chr " " :: str "SQL: list  tables").
  rewrite (proj2 (label_after_whitespace_is_kept
                    (chr " ") (str "SQL: list  tables") eq_refl))
    by (vm_compute; reflexivity).
  vm_compute. reflexivity.
Defined.

(* ------------------------------------------------------------------ *)
(** ** The statement search, the other way round *)

Lemma matches_statement : forall pos sel body,
    same_letters "SELECT" sel ->
    matches sql_statement_pattern pos (sel ++ body ++ [chr ";"]) None
            (Some (sel ++ body ++ [chr ";"])).
Proof.
  intros pos sel body F. unfold sql_statement_pattern. cbn [seq_of].
  apply M_Grp with (g' := None). econstructor.
  - apply (matches_word_intro ignorecase_eq). exact F.
  - econstructor; [constructor; apply forallb_any_char|].
    rewrite <- (app_nil_r [chr ";"]).
    econstructor; [|constructor]. constructor. apply N.eqb_refl.
Qed.

Lemma statement_is_found : forall s w,
    select_statement w -> occurs_in w s ->
    exists m, re_search sql_statement_pattern s = Some m.
Proof.
  intros s w (sel & body & -> & F) (pre & post & ->).
  unfold re_search.
  destruct (match_at_complete sql_statement_pattern (0 + length pre)
              (sel ++ body ++ [chr ";"]) post _
              (matches_statement _ sel body F)) as (m & Hm).
  eapply search_from_complete. exact Hm.
Qed.

(** X7: when the fence- and label-stripped text holds a piece that starts
    with SELECT and ends with a semicolon, the search finds a statement: the
    result starts with SELECT, ends with a semicolon and holds no other
    semicolon. *)
Theorem statement_present_is_returned : forall raw w,
    select_statement w ->
    occurs_in w (strip_label (strip_fences raw)) ->
    starts_with_select (clean_sql_query raw)
    /\ ends_with_semicolon (clean_sql_query raw)
    /\ count_char (chr ";") (clean_sql_query raw) = 1.
Proof.
  intros raw w Hw Hocc.
  destruct (statement_is_found _ w Hw Hocc) as (m & Hs).
  destruct (clean_sql_query_found raw m Hs) as (sel & body & F & C & E).
  rewrite E. split; [|split].
  - exists sel, (squeeze false body ++ [chr ";"]). auto.
  - exists (sel ++ squeeze false body). rewrite <- app_assoc. reflexivity.
  - rewrite !count_char_app, squeeze_count by reflexivity.
    rewrite (select_letters_no_semicolon _ F), C. reflexivity.
Qed.

Lemma statement_present_is_returned_witness :
  starts_with_select (clean_sql_query (str "Here it is: select 1; enjoy"))
  /\ ends_with_semicolon (clean_sql_query (str "Here it is: select 1; enjoy"))
  /\ count_char (chr ";")
       (clean_sql_query (str "Here it is: select 1; enjoy")) = 1.
Proof.
  apply (statement_present_is_returned
           (str "Here it is: select 1; enjoy") (str "select 1;")).
  - exists (str "select"), (str " 1"). split; [reflexivity|].
    repeat constructor.
  - exists (str "Here it is: "), (str " enjoy"). vm_compute. reflexivity.
Defined.

Lemma search_from_head : forall r pos s m,
    match_at r pos s = Some m -> search_from r pos s = Some m.
Proof. intros r pos [|c t] m H; simpl; rewrite H; reflexivity. Qed.

Lemma app_same_length : forall (a a' b b' : text),
    length a = length a' -> a ++ b = a' ++ b' -> a = a' /\ b = b'.
Proof.
  induction a as [|x a IH]; intros [|y a'] b b' L E; simpl in *;
    try discriminate; auto.
  inversion E; subst. destruct (IH a' b b') as [-> ->]; auto.
Qed.

(** X8: a raw text without backtick that begins with a SELECT statement is
    cut after the first semicolon: the result is the six letters as written,
    the body up to that semicolon with its whitespace collapsed, and the
    semicolon; whatever follows is dropped. *)
Theorem leading_statement_is_cut_at_first_semicolon :
  forall sel body post,
    same_letters "SELECT" sel ->
    count_char (chr ";") body = 0 ->
    count_char (chr "`") (sel ++ body ++ chr ";" :: post) = 0 ->
    clean_sql_query (sel ++ body ++ chr ";" :: post)
    = sel ++ squeeze false body ++ [chr ";"].
Proof.
  intros sel body post F Hsemi Hbt.
  set (raw := sel ++ body ++ chr ";" :: post) in *.
  assert (Hlabel : strip_label raw = raw).
  { rewrite strip_label_at_start.
    destruct (match_at prefix_pattern 0 raw) as [m|] eqn:Hm; [|reflexivity].
    exfalso. apply match_label_shape in Hm.
    destruct Hm as (lab & sp & rest & El & Hl & _).
    apply label_word_head in Hl.
    destruct Hl as (a & b & r & -> & _ & Hb).
    unfold same_letters in F. simpl in F.
    inversion F as [|? c1 ? l1 _ F1]; subst.
    inversion F1 as [|? c2 ? l2 H2 _]; subst.
    unfold raw in El. simpl in El. inversion El; subst.
    destruct (ignorecase_letter 69 b) as [->|[->|[X _]]];
      [simpl; auto|exact H2| | |discriminate];
      destruct Hb as [Hb|[Hb|Hb]]; vm_compute in Hb; discriminate. }
  assert (Hfound : exists m,
             match_at sql_statement_pattern 0 raw = Some m).
  { unfold raw.
    replace (sel ++ body ++ chr ";" :: post)
      with ((sel ++ body ++ [chr ";"]) ++ post)
      by (rewrite <- !app_assoc; reflexivity).
    eapply match_at_complete. apply matches_statement. exact F. }
  destruct Hfound as (m & Hm).
  assert (Hsearch : re_search sql_statement_pattern raw = Some m).
  { unfold re_search. apply search_from_head. exact Hm. }
  unfold clean_sql_query, first_statement.
  rewrite (strip_fences_plain raw Hbt), Hlabel, Hsearch.
  apply match_statement in Hm.
  destruct Hm as (sel' & body' & E & F' & C' & G).
  unfold raw in E.
  assert (L : length sel = length sel')
    by (apply Forall2_length in F, F'; congruence).
  destruct (app_same_length sel sel' _ _ L E) as [<- E'].
  apply first_split_unique in E';
    [|apply count_char_zero; assumption|apply count_char_zero; assumption].
  destruct E' as [<- _]. unfold group1. rewrite G.
  apply collapse_statement. exact F.
Qed.

Lemma leading_statement_is_cut_at_first_semicolon_witness :
  clean_sql_query (str "Select" ++ str "  name  FROM S_RBR" ++ chr ";"
                       :: str " SELECT 2; -- done")
  = str "Select" ++ str " name FROM S_RBR" ++ [chr ";"].
Proof.
  change (str " name FROM S_RBR")
    with (squeeze false (str "  name  FROM S_RBR")).
  apply leading_statement_is_cut_at_first_semicolon.
  - unfold same_letters. repeat constructor.
  - vm_compute. reflexivity.
  - vm_compute. reflexivity.
Defined.

(* ------------------------------------------------------------------ *)
(** ** The URLs found *)

Lemma url_scan_member : forall s us,
    url_scan s us ->
    forall u, In u us ->
      occurs_in u s
      /\ exists sch body, url_scheme sch /\ u = sch ++ body /\ body <> []
                          /\ forallb url_char body = true.
Proof.
  induction 1 as [|c t us Hno _ IH|sch body t us Hs Hne Hb Hend _ IH];
    intros u Hin.
  - contradiction.
  - destruct (IH u Hin) as ((pre & post & ->) & W). split; [|exact W].
    exists (c :: pre), post. reflexivity.
  - destruct Hin as [<-|Hin].
    + split.
      * exists [], t. simpl. rewrite <- app_assoc. reflexivity.
      * exists sch, body. auto.
    + destruct (IH u Hin) as ((pre & post & ->) & W). split; [|exact W].
      exists (sch ++ body ++ pre), post. rewrite <- !app_assoc. reflexivity.
Qed.

(** X9: every URL that [re.findall] returns for [url_pattern] is a piece of
    the text, starts with [http://] or [https://], goes on with at least one
    character, and holds neither whitespace nor a pipe after the scheme. *)
Theorem found_urls_are_well_formed : forall s u,
    In u (re_findall url_pattern s) ->
    occurs_in u s
    /\ exists sch body, url_scheme sch /\ u = sch ++ body /\ body <> []
                        /\ forallb url_char body = true.
Proof.
  intros s u Hin. exact (url_scan_member s _ (re_findall_urls s) u Hin).
Qed.

Lemma found_urls_are_well_formed_witness :
  occurs_in (str "http://a.b/c") (str "see http://a.b/c|x and HTTP://no")
  /\ exists sch body,
      url_scheme sch /\ str "http://a.b/c" = sch ++ body /\ body <> []
      /\ forallb url_char body = true.
Proof.
  apply (found_urls_are_well_formed (str "see http://a.b/c|x and HTTP://no")).
  vm_compute. left. reflexivity.
Defined.

(* ------------------------------------------------------------------ *)
(** ** Further properties of the pipeline *)

Ltac answer_cases H :=
  rewrite answer_run in H; cbv zeta in H;
  repeat match type of H with
         | context [match ?x with _ => _ end] => destruct x eqn:?
         end;
  inversion H; subst; clear H;
  rewrite <- ?app_assoc in *; rewrite ?new_events_app in *;
  cbn [app] in *.

Ltac in_cases H :=
  simpl in H;
  repeat match type of H with
         | _ \/ _ => destruct H as [H|H]
         | False => contradiction
         end.

(** X11: a successful response reports the SQL that was executed, and its
    answer is either the fixed text for a blank result or, unchanged, the
    text the rephraser returned for the question, that SQL and that
    result. *)
Theorem success_response_provenance :
  forall self question tr tr' resp,
    KabaddiSystem.answer self question tr = (tr', inr resp) ->
    QueryResponse.status resp = str "success" ->
    exists result,
      In (Execute (QueryData.query (QueryResponse.data resp)), inr result)
         (new_events tr tr')
      /\ ((strip result = []
           /\ QueryData.answer (QueryResponse.data resp)
              = str "No data available.")
          \/ (strip result <> []
              /\ In (Rephrase question
                       (QueryData.query (QueryResponse.data resp)) result,
                     inr (QueryData.answer (QueryResponse.data resp)))
                    (new_events tr tr'))).
Proof.
  intros self question tr tr' resp H Hok.
  answer_cases H; try (vm_compute in Hok; discriminate);
    eexists; (split; [simpl; auto 6|]).
  - left. split; [assumption|reflexivity].
  - right. split; [congruence|]. simpl. auto 6.
Qed.

Lemma success_response_provenance_witness :
  let self := sample_system (str "SELECT 1;") (str "SELECT 2;")
                            (str "[(2,)]") (str "It is 2.") in
  let run := KabaddiSystem.answer self (str "how many") [] in
  exists resp result,
    snd run = inr resp
    /\ In (Execute (QueryData.query (QueryResponse.data resp)), inr result)
          (new_events [] (fst run))
    /\ ((strip result = []
         /\ QueryData.answer (QueryResponse.data resp)
            = str "No data available.")
        \/ (strip result <> []
            /\ In (Rephrase (str "how many")
                     (QueryData.query (QueryResponse.data resp)) result,
                   inr (QueryData.answer (QueryResponse.data resp)))
                  (new_events [] (fst run)))).
Proof.
  cbv zeta. eexists.
  assert (E : KabaddiSystem.answer
                (sample_system (str "SELECT 1;") (str "SELECT 2;")
                               (str "[(2,)]") (str "It is 2."))
                (str "how many") []
              = (fst (KabaddiSystem.answer
                        (sample_system (str "SELECT 1;") (str "SELECT 2;")
                                       (str "[(2,)]") (str "It is 2."))
                        (str "how many") []), inr _))
    by (vm_compute; reflexivity).
  destruct (success_response_provenance _ _ _ _ _ E eq_refl)
    as (result & H1 & H2).
  exists result. split; [rewrite E at 1; reflexivity|]. split; assumption.
Defined.

(* ------------------------------------------------------------------ *)
(** ** The endpoints *)

(** X15: [health] reports "unhealthy" exactly when [ask] answers every
    request with the 500 error "System not initialized", which is the case
    when the construction of the system raised at start-up. *)
Theorem health_tells_whether_ask_is_served :
  forall system stamp,
    (fst (health system stamp) = str "unhealthy"
     <-> forall request tr,
           ask system request tr
           = (tr, inl {| status_code := 500;
                         detail := str "System not initialized" |}))
    /\ (forall e, fst (health (initialize (inl e)) stamp) = str "unhealthy").
Proof.
  intros system stamp. split; [|reflexivity]. split.
  - destruct system; intros H; [vm_compute in H; discriminate|reflexivity].
  - intros H. destruct system as [self|]; [|reflexivity].
    specialize (H {| question := [] |} []). vm_compute in H. discriminate.
Qed.

(* ------------------------------------------------------------------ *)
(** ** Nothing is made up *)

Lemma subseq_refl : forall a, subseq a a.
Proof. induction a; [apply subseq_nil|apply subseq_keep; auto]. Qed.

Lemma subseq_nil_l : forall b, subseq [] b.
Proof. induction b; [apply subseq_nil|apply subseq_drop; auto]. Qed.

Lemma subseq_trans : forall a b c, subseq a b -> subseq b c -> subseq a c.
Proof.
  intros a b c Hab Hbc. revert a Hab.
  induction Hbc as [|b x c _ IH|b x c _ IH]; intros a Hab.
  - exact Hab.
  - apply subseq_drop. auto.
  - inversion Hab; subst; [apply subseq_drop|apply subseq_keep]; auto.
Qed.

Lemma subseq_app : forall a b c d,
    subseq a b -> subseq c d -> subseq (a ++ c) (b ++ d).
Proof.
  intros a b c d Hab Hcd.
  induction Hab; simpl; [exact Hcd|apply subseq_drop|apply subseq_keep];
    auto.
Qed.

Lemma subseq_occurs : forall w s, occurs_in w s -> subseq w s.
Proof.
  intros w s (pre & post & ->).
  change w with ([] ++ w) at 1. apply subseq_app; [apply subseq_nil_l|].
  rewrite <- (app_nil_r w) at 1.
  apply subseq_app; [apply subseq_refl|apply subseq_nil_l].
Qed.

Lemma subseq_filter : forall f a, subseq (filter f a) a.
Proof.
  induction a as [|c a IH]; simpl; [apply subseq_nil|].
  destruct (f c); [apply subseq_keep|apply subseq_drop]; exact IH.
Qed.

(** Group 1 after a match is the group from before, or a piece of what
    was matched. *)
Lemma matches_group_piece : forall r pos w g g',
    matches r pos w g g' ->
    g' = g \/ exists u, g' = Some u /\ occurs_in u w.
Proof.
  induction 1; auto.
  - destruct IHmatches2 as [->|(u & -> & (p & q & ->))].
    + destruct IHmatches1 as [->|(u & -> & (p & q & ->))]; auto.
      right. exists u. split; [reflexivity|].
      exists p, (q ++ w2). rewrite <- !app_assoc. reflexivity.
    + right. exists u. split; [reflexivity|].
      exists (w1 ++ p), q. rewrite <- !app_assoc. reflexivity.
  - right. exists w. split; [reflexivity|]. exists [], []. simpl.
    rewrite app_nil_r. reflexivity.
Qed.

(** A substitution that puts a piece of each match in its place only
    drops characters. *)
Lemma scan_subseq : forall r repl,
    (forall pos s m w, match_at r pos s = Some m -> s = w ++ mrest m ->
                       subseq (repl m) w) ->
    forall n s pos, length s < n ->
                    subseq (flat_map (expand repl) (scan_at r pos s)) s.
Proof.
  intros r repl Hrepl. induction n as [|n IH]; intros s pos Hn; [lia|].
  rewrite scan_at_eq.
  assert (Hstep : subseq
            (flat_map (expand repl)
               match s with
               | [] => []
               | c :: t => Skip c :: scan_at r (S pos) t
               end) s).
  { destruct s as [|c t]; [apply subseq_nil|]. cbn [flat_map expand app].
    apply subseq_keep. apply IH. simpl in Hn. lia. }
  destruct (match_at r pos s) as [m|] eqn:Hm; [|exact Hstep].
  pose proof (match_at_sound _ _ _ _ Hm) as (w & E & Hp & _).
  destruct (Nat.eqb (mpos m) pos) eqn:Hz.
  - apply Nat.eqb_eq in Hz. assert (w = []) by (destruct w; simpl in *; [auto|lia]).
    subst w. pose proof (Hrepl pos s m [] Hm E) as Hr.
    inversion Hr as [Hnil| |]. cbn [flat_map expand]. rewrite <- Hnil.
    exact Hstep.
  - cbn [flat_map expand]. rewrite E at 1.
    apply subseq_app; [eapply Hrepl; eauto|].
    apply IH. pose proof (match_at_shorter _ _ _ _ Hm Hz). lia.
Qed.

Lemma strip_fences_subseq : forall t, subseq (strip_fences t) t.
Proof.
  intros t. unfold strip_fences. rewrite re_sub_scan_at.
  apply scan_subseq with (n := S (length t)); [|lia].
  intros pos s m w Hm E. apply match_at_sound in Hm.
  destruct Hm as (w' & E' & _ & Mw). rewrite E' in E at 1.
  apply app_inv_tail in E. subst w'. unfold group1.
  destruct (matches_group_piece _ _ _ _ _ Mw) as [->|(u & -> & Hu)].
  - apply subseq_nil_l.
  - apply subseq_occurs. exact Hu.
Qed.

Lemma strip_label_subseq : forall t, subseq (strip_label t) t.
Proof.
  intros t. unfold strip_label. rewrite re_sub_scan_at.
  apply scan_subseq with (n := S (length t)); [|lia].
  intros. apply subseq_nil_l.
Qed.

Lemma first_statement_subseq : forall t, subseq (first_statement t) t.
Proof.
  intros t. unfold first_statement.
  destruct (re_search sql_statement_pattern t) as [m|] eqn:Hs;
    [|apply subseq_refl].
  apply search_statement in Hs. destruct Hs as (_ & _ & _ & _ & _ & Hocc).
  apply subseq_occurs. exact Hocc.
Qed.

Lemma visible_skip_class : forall t,
    filter visible (skip_class isspace t) = filter visible t.
Proof.
  induction t as [|c t IH]; simpl; [reflexivity|].
  destruct (isspace c) eqn:Hc; [|reflexivity].
  unfold visible at 2. rewrite Hc. exact IH.
Qed.

Lemma filter_rev_text : forall (f : N -> bool) l,
    filter f (rev l) = rev (filter f l).
Proof.
  induction l as [|c l IH]; simpl; [reflexivity|].
  rewrite filter_app, IH. simpl. destruct (f c); simpl;
    [reflexivity|apply app_nil_r].
Qed.

Lemma visible_strip : forall t, filter visible (strip t) = filter visible t.
Proof.
  intros t. unfold strip, rstrip, lstrip.
  rewrite filter_rev_text, visible_skip_class, filter_rev_text.
  rewrite rev_involutive. apply visible_skip_class.
Qed.

Lemma visible_squeeze : forall t b,
    filter visible (squeeze b t) = filter visible t.
Proof.
  induction t as [|c t IH]; intros b; [reflexivity|].
  cbn [squeeze filter]. unfold visible at 2.
  destruct (isspace c) eqn:Hc; cbn [negb].
  - destruct b; [apply IH|].
    cbn [filter]. change (visible 32) with false. cbv iota. apply IH.
  - cbn [filter]. unfold visible at 1. rewrite Hc. cbn [negb].
    f_equal. apply IH.
Qed.

(** X16: [clean_sql_query] makes up no text: leaving whitespace aside, its
    result is the raw text with characters dropped, in the same order. *)
Theorem cleaned_text_is_drawn_from_raw : forall raw,
    subseq (filter visible (clean_sql_query raw)) raw.
Proof.
  intros raw. unfold clean_sql_query.
  rewrite collapse_spaces_squeeze, visible_squeeze, visible_strip.
  eapply subseq_trans; [apply subseq_filter|].
  eapply subseq_trans; [apply first_statement_subseq|].
  eapply subseq_trans; [apply strip_label_subseq|].
  apply strip_fences_subseq.
Qed.

(* ------------------------------------------------------------------ *)
(** ** Fences need a partner, and the leftmost statement wins *)

Lemma block_match_backticks : forall pos w g g',
    matches block_pattern pos w g g' -> 6 <= count_char (chr "`") w.
Proof.
  intros pos w g g' H. unfold block_pattern in H. cbn [seq_of] in H.
  apply matches_seq_length in H. destruct H as (w1 & r1 & g1 & -> & M1 & H).
  apply matches_seq_length in H. destruct H as (w2 & r2 & g2 & -> & _ & H).
  apply matches_seq_length in H. destruct H as (w3 & r3 & g3 & -> & _ & H).
  apply matches_seq_length in H. destruct H as (w4 & r4 & g4 & -> & _ & H).
  apply matches_seq_length in H. destruct H as (w5 & r5 & g5 & -> & _ & H).
  apply matches_seq_length in H. destruct H as (w6 & r6 & g6 & -> & M6 & _).
  apply matches_literal_word in M1, M6. destruct M1 as [-> _], M6 as [-> _].
  rewrite !count_char_app.
  change (count_char (chr "`") (str "```")) with 3. lia.
Qed.

(** X17: fence stripping changes nothing unless the text holds an opening
    and a closing fence, six backticks at least; a block that is opened and
    never closed keeps its fence and its tag. *)
Theorem unpaired_fence_is_kept : forall t,
    count_char (chr "`") t < 6 -> strip_fences t = t.
Proof.
  intros t H. unfold strip_fences. rewrite re_sub_scan_at.
  apply scan_no_match. intros pre post E.
  destruct (match_at block_pattern (0 + length pre) post) as [m|] eqn:Hm;
    [|reflexivity].
  exfalso. apply match_at_sound in Hm. destruct Hm as (w & Ew & _ & Mw).
  apply block_match_backticks in Mw.
  rewrite E, Ew, !count_char_app in H. lia.
Qed.

Lemma unpaired_fence_is_kept_witness :
  clean_sql_query (str "```sql list  tables") = str "```sql list tables".
Proof.
  unfold clean_sql_query.
  rewrite (unpaired_fence_is_kept (str "```sql list  tables"))
    by (vm_compute; lia).
  vm_compute. reflexivity.
Defined.

Lemma search_from_leftmost : forall r s pos m,
    search_from r pos s = Some m ->
    exists pre post,
      s = pre ++ post
      /\ match_at r (pos + length pre) post = Some m
      /\ forall p1 p2, pre = p1 ++ p2 -> p2 <> [] ->
                       match_at r (pos + length p1) (p2 ++ post) = None.
Proof.
  intros r. induction s as [|c t IH]; intros pos m H; simpl in H.
  - destruct (match_at r pos []) eqn:Hm; [|discriminate].
    inversion H; subst. exists [], []. simpl. rewrite Nat.add_0_r.
    repeat split; auto. intros [|? ?] [|? ?] E Hne; try discriminate.
    congruence.
  - destruct (match_at r pos (c :: t)) eqn:Hm.
    + inversion H; subst. exists [], (c :: t). simpl. rewrite Nat.add_0_r.
      repeat split; auto. intros [|? ?] [|? ?] E Hne; try discriminate.
      congruence.
    + apply IH in H. destruct H as (pre & post & -> & Hp & Hmin).
      exists (c :: pre), post. simpl.
      replace (pos + S (length pre)) with (S pos + length pre) by lia.
      repeat split; auto.
      intros [|x p1] p2 E Hne; simpl in E.
      * subst p2. simpl. rewrite Nat.add_0_r. exact Hm.
      * inversion E; subst. simpl.
        replace (pos + S (length p1)) with (S pos + length p1) by lia.
        apply Hmin; auto.
Qed.

(** X18: the statement isolated is the leftmost one: it is a piece of the
    text, and no piece that starts with SELECT and ends with a semicolon
    begins before it, prose included. *)
Theorem isolated_statement_is_leftmost : forall t m,
    re_search sql_statement_pattern t = Some m ->
    exists pre post,
      t = pre ++ first_statement t ++ post
      /\ forall p1 p2 w r,
           pre = p1 ++ p2 -> p2 <> [] -> select_statement w ->
           p2 ++ first_statement t ++ post <> w ++ r.
Proof.
  intros t m Hs. unfold first_statement. rewrite Hs.
  unfold re_search in Hs. apply search_from_leftmost in Hs.
  destruct Hs as (pre & post & -> & Hm & Hmin).
  pose proof (match_statement _ _ _ Hm) as (sel & body & E & _ & _ & G).
  exists pre, (mrest m). unfold group1. rewrite G.
  assert (Epost : post = (sel ++ body ++ [chr ";"]) ++ mrest m)
    by (rewrite E, <- !app_assoc; reflexivity).
  split; [rewrite Epost; reflexivity|].
  intros p1 p2 w r Ep Hne (sel' & body' & -> & F') Ew.
  specialize (Hmin p1 p2 Ep Hne). rewrite Epost, Ew in Hmin.
  destruct (match_at_complete sql_statement_pattern (0 + length p1)
              (sel' ++ body' ++ [chr ";"]) r _
              (matches_statement _ sel' body' F')) as (m' & Hm').
  congruence.
Qed.

Lemma isolated_statement_is_leftmost_witness :
  first_statement (str "Use select to query; SELECT 1;")
  = str "select to query;"
  /\ exists pre post,
      str "Use select to query; SELECT 1;"
      = pre ++ first_statement (str "Use select to query; SELECT 1;") ++ post.
Proof.
  split; [vm_compute; reflexivity|].
  destruct (isolated_statement_is_leftmost
              (str "Use select to query; SELECT 1;")
              (MState 20 (str " SELECT 1;") (Some (str "select to query;"))))
    as (pre & post & E & _).
  - vm_compute. reflexivity.
  - exists pre, post. exact E.
Defined.

(* ------------------------------------------------------------------ *)
(** ** Matches do not depend on the position, the anchor apart *)

#[local] Arguments scan_at : simpl never.

Section Shift.
Variable A : Type.
Variable d : nat.
Implicit Types (k : mstate -> option A) (p : N -> bool).

Lemma star_greedy_shift : forall p s pos g k k',
    (forall st, k' (shift d st) = k st) ->
    star_greedy p (pos + d) s g k' = star_greedy p pos s g k.
Proof.
  induction s as [|c t IH]; intros pos g k k' H; simpl.
  - apply (H (MState pos [] g)).
  - change (S (pos + d)) with (S pos + d).
    assert (Hk : k' (MState (pos + d) (c :: t) g) = k (MState pos (c :: t) g))
      by apply (H (MState pos (c :: t) g)).
    rewrite (IH (S pos) g k k' H), Hk. reflexivity.
Qed.

Lemma star_lazy_shift : forall p s pos g k k',
    (forall st, k' (shift d st) = k st) ->
    star_lazy p (pos + d) s g k' = star_lazy p pos s g k.
Proof.
  induction s as [|c t IH]; intros pos g k k' H; simpl.
  - assert (Hk : k' (MState (pos + d) [] g) = k (MState pos [] g))
      by apply (H (MState pos [] g)).
    rewrite Hk. reflexivity.
  - change (S (pos + d)) with (S pos + d).
    assert (Hk : k' (MState (pos + d) (c :: t) g) = k (MState pos (c :: t) g))
      by apply (H (MState pos (c :: t) g)).
    rewrite Hk, (IH (S pos) g k k' H). reflexivity.
Qed.

Lemma rmatch_shift : forall r,
    no_bol r = true ->
    forall st k k',
      (forall st', k' (shift d st') = k st') ->
      rmatch r (shift d st) k' = rmatch r st k.
Proof.
  induction r as [| |p|a IHa b IHb|a IHa b IHb|p|p|a IHa];
    intros Hr [pos s g] k k' H; simpl in *.
  - apply (H (MState pos s g)).
  - discriminate.
  - destruct s as [|c t]; [reflexivity|].
    destruct (p c); [|reflexivity]. apply (H (MState (S pos) t g)).
  - apply andb_true_iff in Hr. destruct Hr as [Ha Hb].
    apply (IHa Ha (MState pos s g)). intros st'. apply (IHb Hb). exact H.
  - apply andb_true_iff in Hr. destruct Hr as [Ha Hb].
    rewrite (IHa Ha (MState pos s g) k k' H).
    rewrite (IHb Hb (MState pos s g) k k' H). reflexivity.
  - apply star_greedy_shift. exact H.
  - apply star_lazy_shift. exact H.
  - apply (IHa Hr (MState pos s g)). intros [pos' s' g']. simpl.
    replace (pos' + d - (pos + d)) with (pos' - pos) by lia.
    apply (H (MState pos' s' (Some (firstn (pos' - pos) s)))).
Qed.
End Shift.

Section MapResult.
Variables A B : Type.
Variable h : A -> B.
Implicit Types (k : mstate -> option A) (p : N -> bool).

Lemma star_greedy_map : forall p s pos g k (k' : mstate -> option B),
    (forall st, k' st = option_map h (k st)) ->
    star_greedy p pos s g k' = option_map h (star_greedy p pos s g k).
Proof.
  induction s as [|c t IH]; intros pos g k k' H; simpl; [apply H|].
  destruct (p c); [|apply H]. rewrite (IH (S pos) g k k' H).
  destruct (star_greedy p (S pos) t g k); [reflexivity|apply H].
Qed.

Lemma star_lazy_map : forall p s pos g k (k' : mstate -> option B),
    (forall st, k' st = option_map h (k st)) ->
    star_lazy p pos s g k' = option_map h (star_lazy p pos s g k).
Proof.
  induction s as [|c t IH]; intros pos g k k' H; simpl; rewrite H.
  - destruct (k (MState pos [] g)); reflexivity.
  - destruct (k (MState pos (c :: t) g)); [reflexivity|]. simpl.
    destruct (p c); [apply IH; exact H|reflexivity].
Qed.

Lemma rmatch_map : forall r st k (k' : mstate -> option B),
    (forall st', k' st' = option_map h (k st')) ->
    rmatch r st k' = option_map h (rmatch r st k).
Proof.
  induction r as [| |p|a IHa b IHb|a IHa b IHb|p|p|a IHa];
    intros [pos s g] k k' H; simpl.
  - apply H.
  - destruct (Nat.eqb pos 0); [apply H|reflexivity].
  - destruct s as [|c t]; [reflexivity|].
    destruct (p c); [apply H|reflexivity].
  - apply IHa. intros st'. apply IHb. exact H.
  - rewrite (IHa _ k k' H), (IHb _ k k' H).
    destruct (rmatch a (MState pos s g) k); reflexivity.
  - apply star_greedy_map. exact H.
  - apply star_lazy_map. exact H.
  - apply (IHa (MState pos s g)). intros st'. apply H.
Qed.
End MapResult.

Lemma match_at_shift : forall r d pos s,
    no_bol r = true ->
    match_at r (pos + d) s = option_map (shift d) (match_at r pos s).
Proof.
  intros r d pos s Hr. unfold match_at.
  change (MState (pos + d) s None) with (shift d (MState pos s None)).
  rewrite (rmatch_shift mstate d r Hr (MState pos s None)
             (fun st => option_map (shift d) (Some st)) (@Some mstate))
    by reflexivity.
  apply rmatch_map. reflexivity.
Qed.

(** The items of a scan started at another position expand to the same
    text, when the replacement does not read the position. *)
Lemma scan_shift : forall r repl d,
    no_bol r = true ->
    (forall m, repl (shift d m) = repl m) ->
    forall n s pos,
      length s < n ->
      flat_map (expand repl) (scan_at r (pos + d) s)
      = flat_map (expand repl) (scan_at r pos s).
Proof.
  intros r repl d Hr Hrepl. induction n as [|n IH]; intros s pos Hn; [lia|].
  rewrite (scan_at_eq r (pos + d)), (scan_at_eq r pos).
  rewrite match_at_shift by exact Hr.
  assert (Hstep :
    flat_map (expand repl)
      match s with
      | [] => []
      | c :: t => Skip c :: scan_at r (S (pos + d)) t
      end
    = flat_map (expand repl)
        match s with
        | [] => []
        | c :: t => Skip c :: scan_at r (S pos) t
        end).
  { destruct s as [|c t]; [reflexivity|]. cbn [flat_map expand app].
    f_equal. apply (IH t (S pos)). simpl in Hn. lia. }
  destruct (match_at r pos s) as [m|] eqn:Hm; [|exact Hstep].
  cbn [option_map shift mpos mrest].
  destruct (Nat.eqb (mpos m) pos) eqn:Hz.
  - rewrite (proj2 (Nat.eqb_eq _ _))
      by (apply Nat.eqb_eq in Hz; lia).
    cbn [flat_map expand]. rewrite Hrepl, Hstep. reflexivity.
  - rewrite (proj2 (Nat.eqb_neq _ _))
      by (apply Nat.eqb_neq in Hz; lia).
    cbn [flat_map expand]. rewrite Hrepl. f_equal.
    apply IH. pose proof (match_at_shorter _ _ _ _ Hm Hz). lia.
Qed.

Lemma strip_fences_at : forall pos s,
    flat_map (expand group1) (scan_at block_pattern pos s) = strip_fences s.
Proof.
  intros pos s. unfold strip_fences. rewrite re_sub_scan_at.
  apply (scan_shift block_pattern group1 pos eq_refl (fun m => eq_refl)
           (S (length s)) s 0). lia.
Qed.

(** Characters no match starts at are passed over. *)
Lemma scan_skip_prefix : forall r repl pre s pos,
    (forall p1 p2, pre = p1 ++ p2 -> p2 <> [] ->
                   match_at r (pos + length p1) (p2 ++ s) = None) ->
    flat_map (expand repl) (scan_at r pos (pre ++ s))
    = pre ++ flat_map (expand repl) (scan_at r (pos + length pre) s).
Proof.
  intros r repl. induction pre as [|c pre IH]; intros s pos H.
  - simpl. rewrite Nat.add_0_r. reflexivity.
  - rewrite scan_at_eq. pose proof (H [] (c :: pre) eq_refl) as H0.
    simpl in H0. rewrite Nat.add_0_r in H0. simpl app.
    rewrite H0 by discriminate. cbn [flat_map expand app]. f_equal.
    cbn [length].
    replace (pos + S (length pre)) with (S pos + length pre) by lia.
    apply IH. intros p1 p2 E Hne.
    replace (S pos + length p1) with (pos + length (c :: p1))
      by (simpl; lia).
    apply H; [simpl; congruence|exact Hne].
Qed.

(* ------------------------------------------------------------------ *)
(** ** A fenced block inside a text *)

Lemma no_start_spec : forall test s follow,
    no_start test s follow = true ->
    forall p1 p2, s = p1 ++ p2 -> p2 <> [] -> test (p2 ++ follow) = false.
Proof.
  intros test. induction s as [|c s IH]; intros follow H p1 p2 E Hne.
  - destruct p1; destruct p2; try discriminate. congruence.
  - cbn [no_start] in H. apply andb_true_iff in H. destruct H as [H0 H].
    destruct p1 as [|x p1]; simpl in E.
    + subst p2. apply negb_true_iff in H0. exact H0.
    + inversion E; subst. apply (IH follow H p1 p2); auto.
Qed.

Lemma strip_word_app : forall f w a b,
    length w <= length a ->
    strip_word f w (a ++ b) = option_map (fun t => t ++ b) (strip_word f w a).
Proof.
  induction w as [|l w IH]; intros a b L; simpl; [reflexivity|].
  destruct a as [|c a]; simpl in L; [lia|]. simpl.
  destruct (f l c); [apply IH; lia|reflexivity].
Qed.

Lemma starts_with_app : forall w a b,
    length w <= length a -> starts_with w (a ++ b) = starts_with w a.
Proof.
  intros w a b L. unfold starts_with. rewrite strip_word_app by exact L.
  destruct (strip_word N.eqb w a); reflexivity.
Qed.

Lemma starts_with_ignorecase_app : forall w a b,
    length w <= length a ->
    starts_with_ignorecase w (a ++ b) = starts_with_ignorecase w a.
Proof.
  intros w a b L. unfold starts_with_ignorecase.
  rewrite strip_word_app by exact L.
  destruct (strip_word ignorecase_eq w a); reflexivity.
Qed.

Lemma strip_word_intro : forall f w a b,
    Forall2 (fun l c => f l c = true) w a -> strip_word f w (a ++ b) = Some b.
Proof.
  intros f w a b H. induction H as [|l c w a Hlc _ IH]; simpl; [reflexivity|].
  rewrite Hlc. exact IH.
Qed.

Lemma starts_with_intro : forall w t, starts_with w (w ++ t) = true.
Proof.
  intros w t. unfold starts_with. rewrite (strip_word_intro N.eqb w w t).
  - reflexivity.
  - induction w; constructor; auto. apply N.eqb_refl.
Qed.

(** A word without backtick that is not at the head of a text which holds
    a backtick is not at the head of a longer text either. *)
Lemma starts_with_keep : forall w a b,
    ~ In (chr "`") w -> In (chr "`") a ->
    starts_with w a = false -> starts_with w (a ++ b) = false.
Proof.
  unfold starts_with.
  induction w as [|l w IH]; intros a b Hw Ha H; simpl in *; [discriminate|].
  destruct a as [|c a]; [contradiction|]. simpl.
  destruct (N.eqb_spec l c) as [->|]; [|reflexivity].
  apply IH; auto.
  destruct Ha as [Ha|Ha]; [|exact Ha]. exfalso. apply Hw. left.
  exact Ha.
Qed.

Lemma match_block_starts : forall pos s m,
    match_at block_pattern pos s = Some m -> starts_with fence s = true.
Proof.
  intros pos s m H. rewrite block_pattern_parts in H. unfold match_at in H.
  cbn [rmatch] in H. unfold word at 1 in H.
  rewrite rmatch_literal_word in H. unfold starts_with, fence.
  destruct (strip_word N.eqb (str "```") s); [reflexivity|discriminate].
Qed.

Lemma fence_close_sound : forall pos s g x,
    rmatch fence_close (MState pos s g) (@Some mstate) = Some x ->
    exists w t, s = w ++ fence ++ t /\ forallb isspace w = true.
Proof.
  intros pos s g x H. unfold fence_close, ws in H.
  cbn [seq_of rmatch mpos mrest mgroup] in H.
  apply star_greedy_sound in H. destruct H as (w & rest & -> & Hw & H).
  unfold word in H. cbn [rmatch] in H. rewrite rmatch_literal_word in H.
  destruct (strip_word N.eqb (str "```") rest) as [t|] eqn:Ht; [|discriminate].
  apply strip_word_eqb in Ht. subst rest. exists w, t. auto.
Qed.

(** Inside a content that holds no fence, also not one made with the
    backticks that follow it, the closing part does not match. *)
Lemma no_early_close : forall content w1 l ws2 post pos g x,
    content = w1 ++ l -> l <> [] ->
    rstrip content = content ->
    no_start (starts_with fence) content (ws2 ++ fence) = true ->
    rmatch fence_close (MState pos (l ++ ws2 ++ fence ++ post) g)
      (@Some mstate) = Some x ->
    False.
Proof.
  intros content w1 l ws2 post pos g x E Hne Hr H3 X.
  apply fence_close_sound in X. destruct X as (w & t & E' & Hw).
  pose proof (rstrip_fixed content w1 l Hr E Hne) as Hl.
  apply app_eq_app in E'. destruct E' as (d & [[El Er]|[Ew Er]]).
  - destruct d as [|x0 d].
    + rewrite app_nil_r in El. subst l. congruence.
    + assert (Hs : starts_with fence ((x0 :: d) ++ ws2 ++ fence) = false).
      { apply (no_start_spec _ _ _ H3 (w1 ++ w) (x0 :: d)); [|discriminate].
        rewrite E, El, <- app_assoc. reflexivity. }
      assert (Ht : starts_with fence
                     (((x0 :: d) ++ ws2 ++ fence) ++ post) = true).
      { replace (((x0 :: d) ++ ws2 ++ fence) ++ post) with (fence ++ t)
          by (rewrite Er, <- !app_assoc; reflexivity).
        apply starts_with_intro. }
      rewrite starts_with_app in Ht; [congruence|].
      rewrite !length_app. simpl. lia.
  - subst w. rewrite forallb_app in Hw. apply andb_true_iff in Hw.
    destruct Hw as [Hl' _]. congruence.
Qed.

(** After the tag: surrounding whitespace is passed, group 1 is the
    content, the match ends behind the closing fence. *)
Lemma fence_body_eval : forall pos g ws1 content ws2 post,
    forallb isspace ws1 = true -> forallb isspace ws2 = true ->
    no_start (starts_with fence) content (ws2 ++ fence) = true ->
    lstrip content = content -> rstrip content = content ->
    exists n,
      rmatch fence_body
        (MState pos (ws1 ++ content ++ ws2 ++ fence ++ post) g)
        (@Some mstate)
      = Some (MState n post (Some content)).
Proof.
  intros pos g ws1 content ws2 post H1 H2 H3 Hl Hr.
  change (rmatch fence_body
            (MState pos (ws1 ++ content ++ ws2 ++ fence ++ post) g)
            (@Some mstate))
    with (star_greedy isspace pos
            (ws1 ++ content ++ ws2 ++ fence ++ post) g
            (fun st1 =>
               star_lazy any_char (mpos st1) (mrest st1) (mgroup st1)
                 (fun st2 =>
                    rmatch fence_close
                      (MState (mpos st2) (mrest st2)
                         (Some (firstn (mpos st2 - mpos st1) (mrest st1))))
                      (@Some mstate)))).
  destruct content as [|c0 ct].
  - (* empty content: the first [\s*] takes both runs of whitespace *)
    eexists. cbn [app]. rewrite app_assoc.
    apply star_greedy_exact.
    + rewrite forallb_app, H1, H2. reflexivity.
    + intros c t E. inversion E. reflexivity.
    + cbn [mpos mrest mgroup]. apply star_lazy_zero.
      rewrite Nat.sub_diag. cbn [firstn].
      exact (fence_close_eval _ _ [] post eq_refl).
  - eexists.
    apply star_greedy_exact; [exact H1| |].
    + intros c t E. inversion E; subst. apply lstrip_fixed with (t := ct).
      exact Hl.
    + cbn [mpos mrest mgroup].
      apply star_lazy_exact; [apply forallb_any_char| |].
      * intros w1 c w2 E. cbn [mpos mrest mgroup].
        match goal with
        | |- ?lhs = None => destruct lhs eqn:X; [exfalso|reflexivity]
        end.
        change (c :: w2 ++ ws2 ++ fence ++ post)
          with ((c :: w2) ++ ws2 ++ fence ++ post) in X.
        apply (no_early_close (c0 :: ct) w1 (c :: w2) ws2 post _ _ _ E)
          in X; auto.
        discriminate.
      * cbn [mpos mrest mgroup].
        replace (pos + length ws1 + length (c0 :: ct) - (pos + length ws1))
          with (length (c0 :: ct)) by lia.
        rewrite firstn_app, Nat.sub_diag, firstn_all. cbn [firstn].
        rewrite app_nil_r.
        rewrite fence_close_eval by exact H2. reflexivity.
Qed.

Lemma fence_tags_no_backtick : forall w,
    In w fence_tags -> ~ In (chr "`") w.
Proof.
  intros w Hw Hin. simpl in Hw.
  repeat (destruct Hw as [<-|Hw];
          [simpl in Hin; repeat (destruct Hin as [Hin|Hin];
                                 [discriminate|]); contradiction|]).
  contradiction.
Qed.

(** The whole pattern where a fenced block starts. *)
Lemma match_fenced_block : forall pos tag ws1 content ws2 post,
    block_tag tag (ws1 ++ content ++ ws2 ++ fence) ->
    forallb isspace ws1 = true -> forallb isspace ws2 = true ->
    no_start (starts_with fence) content (ws2 ++ fence) = true ->
    lstrip content = content -> rstrip content = content ->
    exists m,
      match_at block_pattern pos
        (fence ++ tag ++ ws1 ++ content ++ ws2 ++ fence ++ post) = Some m
      /\ mrest m = post /\ mgroup m = Some content.
Proof.
  intros pos tag ws1 content ws2 post Htag H1 H2 H3 Hl Hr.
  assert (Hbody : forall n, exists m,
             rmatch fence_body
               (MState n (ws1 ++ content ++ ws2 ++ fence ++ post) None)
               (@Some mstate) = Some m
             /\ (mrest m = post /\ mgroup m = Some content)).
  { intros n.
    destruct (fence_body_eval n None ws1 content ws2 post H1 H2 H3 Hl Hr)
      as (n' & E).
    rewrite E. eexists. split; [reflexivity|]. split; reflexivity. }
  rewrite block_pattern_parts. unfold match_at. cbn [rmatch].
  unfold word at 1. rewrite rmatch_literal_word.
  change (strip_word N.eqb (str "```")
            (fence ++ tag ++ ws1 ++ content ++ ws2 ++ fence ++ post))
    with (Some (tag ++ ws1 ++ content ++ ws2 ++ fence ++ post)).
  destruct Htag as [Htag|[-> Htag]].
  - apply fence_tag_tagged
      with (P := fun m => mrest m = post /\ mgroup m = Some content);
      [exact Htag|exact Hbody].
  - cbn [app]. rewrite fence_tag_untagged; [apply Hbody|].
    intros w Hw.
    replace (ws1 ++ content ++ ws2 ++ fence ++ post)
      with ((ws1 ++ content ++ ws2 ++ fence) ++ post)
      by (rewrite <- !app_assoc; reflexivity).
    apply starts_with_keep; [apply fence_tags_no_backtick; exact Hw| |auto].
    rewrite !in_app_iff. right. right. right. left. reflexivity.
Qed.

(** The fences of a block are dropped where the block stands: what is
    before it stays, and the scan goes on behind it. *)
Lemma strip_fences_block : forall pre tag ws1 content ws2 post,
    block_tag tag (ws1 ++ content ++ ws2 ++ fence) ->
    forallb isspace ws1 = true -> forallb isspace ws2 = true ->
    lstrip content = content -> rstrip content = content ->
    no_start (starts_with fence) pre fence = true ->
    no_start (starts_with fence) content (ws2 ++ fence) = true ->
    strip_fences (pre ++ fence ++ tag ++ ws1 ++ content ++ ws2 ++ fence
                      ++ post)
    = pre ++ content ++ strip_fences post.
Proof.
  intros pre tag ws1 content ws2 post Htag H1 H2 Hl Hr Hpre H3.
  set (block := fence ++ tag ++ ws1 ++ content ++ ws2 ++ fence ++ post).
  unfold strip_fences at 1. rewrite re_sub_scan_at, scan_skip_prefix.
  - f_equal. simpl Nat.add.
    destruct (match_fenced_block (length pre) tag ws1 content ws2 post
                Htag H1 H2 H3 Hl Hr) as (m & Hm & Hrest & Hg).
    fold block in Hm. rewrite scan_at_eq, Hm.
    pose proof (match_at_sound _ _ _ _ Hm) as (w & E & Hp & _).
    assert (Hlen : length w <> 0).
    { intros Hz. destruct w; [|discriminate]. simpl in E.
      rewrite Hrest in E. apply (f_equal (@length N)) in E.
      unfold block in E. rewrite !length_app in E. simpl in E. lia. }
    rewrite (proj2 (Nat.eqb_neq _ _)) by lia.
    cbn [flat_map expand]. unfold group1 at 1. rewrite Hg, Hrest.
    f_equal. apply strip_fences_at.
  - intros p1 p2 E Hne.
    destruct (match_at block_pattern (0 + length p1) (p2 ++ block))
      as [m|] eqn:Hm; [exfalso|reflexivity].
    apply match_block_starts in Hm.
    pose proof (no_start_spec _ _ _ Hpre p1 p2 E Hne) as Hs.
    unfold block in Hm. rewrite (app_assoc p2 fence) in Hm.
    rewrite starts_with_app in Hm; [congruence|].
    rewrite length_app. simpl. lia.
Qed.

(* ------------------------------------------------------------------ *)
(** ** A statement after prose *)

Lemma label_char_letter : forall l c,
    In l (str "SQLQueryMyPostgre") -> ignorecase_eq l c = true ->
    label_char c = true.
Proof.
  intros l c Hl Hc. unfold label_char. apply orb_true_iff. right.
  apply existsb_exists. exists l. auto.
Qed.

Lemma label_chars : forall lab sp,
    label_word lab -> forallb isspace sp = true ->
    forallb label_char (lab ++ sp) = true.
Proof.
  intros lab sp Hl Hs.
  assert (C : classes_within label_char (Seq label_alternatives ws)).
  { unfold label_alternatives, ws. cbn [alt_of seq_of classes_within].
    repeat split;
      try (intros c Hc; unfold label_char; rewrite Hc; reflexivity);
      unfold LitI; intros c Hc; refine (label_char_letter _ c _ Hc);
      repeat (try (left; reflexivity); right). }
  apply (matches_classes_within label_char _ 0 (lab ++ sp) None None C).
  econstructor; [apply label_word_matches; exact Hl|].
  constructor. exact Hs.
Qed.

(** The letters of SELECT: none is a colon, and the fifth is in no
    label. *)
Lemma select_letters_not_label : forall sel,
    same_letters "SELECT" sel ->
    forallb not_colon sel = true
    /\ exists a c b, sel = a ++ c :: b /\ label_char c = false.
Proof.
  intros sel F. unfold same_letters in F. split.
  - assert (G : forall ls cs,
               Forall2 (fun l c => ignorecase_eq l c = true) ls cs ->
               (forall l, In l ls -> ascii_letter l = true) ->
               forallb not_colon cs = true).
    { induction 1 as [|l c ls cs Hlc _ IH]; intros Hin; [reflexivity|].
      simpl. rewrite IH by (intros; apply Hin; right; assumption).
      rewrite andb_true_r.
      apply (ignorecase_letter_class l c (Hin l (or_introl eq_refl)) Hlc). }
    apply (G _ _ F). intros l Hl. simpl in Hl.
    repeat (destruct Hl as [<-|Hl]; [reflexivity|]). contradiction.
  - simpl in F.
    inversion F as [|? c1 ? l1 _ F1]; subst.
    inversion F1 as [|? c2 ? l2 _ F2]; subst.
    inversion F2 as [|? c3 ? l3 _ F3]; subst.
    inversion F3 as [|? c4 ? l4 _ F4]; subst.
    inversion F4 as [|? c5 ? l5 H5 F5]; subst.
    exists [c1; c2; c3; c4], c5, l5. split; [reflexivity|].
    destruct (ignorecase_letter 67 c5) as [->|[->|[X _]]];
      [simpl; auto 10|exact H5| | |discriminate]; reflexivity.
Qed.

Lemma skip_class_app_keep : forall p d c t,
    p c = false -> skip_class p (d ++ c :: t) = skip_class p d ++ c :: t.
Proof.
  induction d as [|x d IH]; intros c t Hc; simpl.
  - rewrite Hc. reflexivity.
  - destruct (p x); [apply IH; exact Hc|reflexivity].
Qed.

(** A label before a statement ends before the statement: what
    [strip_label] removes lies in the prose. *)
Lemma strip_label_before_statement : forall pre sel rest,
    same_letters "SELECT" sel ->
    exists p0 pre',
      pre = p0 ++ pre'
      /\ strip_label (pre ++ sel ++ rest) = pre' ++ sel ++ rest.
Proof.
  intros pre sel rest F. rewrite strip_label_at_start.
  destruct (match_at prefix_pattern 0 (pre ++ sel ++ rest)) as [m|] eqn:Hm;
    [|exists [], pre; auto].
  apply match_label_shape in Hm.
  destruct Hm as (lab & sp & r & E & Hl & Hs & _ & ->).
  destruct (select_letters_not_label sel F) as (Hnc & a & c & b & Es & Hc).
  pose proof (label_chars lab sp Hl Hs) as Hlc.
  assert (Hin : forall x y, lab ++ sp = x ++ sel ++ y -> False).
  { intros x y Ex. rewrite forallb_forall in Hlc.
    assert (Hi : In c (lab ++ sp)).
    { rewrite Ex, Es, !in_app_iff. right. left. right. left. reflexivity. }
    specialize (Hlc c Hi). congruence. }
  assert (Hcolon : ~ In (chr ":") sel).
  { intros Hi. rewrite forallb_forall in Hnc. specialize (Hnc _ Hi).
    discriminate. }
  assert (Hs0 : exists s0 sel', sel = s0 :: sel' /\ isspace s0 = false).
  { pose proof (select_letters_not_space sel F) as Hns.
    destruct sel as [|s0 sel']; [inversion F|].
    exists s0, sel'. split; [reflexivity|]. simpl in Hns.
    apply andb_true_iff in Hns. destruct Hns as [Hns _].
    apply negb_true_iff in Hns. exact Hns. }
  rewrite (app_assoc lab sp) in E. apply app_eq_app in E.
  destruct E as (l & [[Ep Er]|[Elab Er]]).
  - destruct l as [|x l].
    + exfalso. simpl in Er. destruct Hs0 as (s0 & sel' & -> & _).
      inversion Er; subst. apply Hcolon. left. reflexivity.
    + inversion Er; subst x r.
      destruct Hs0 as (s0 & sel' & -> & H0).
      exists ((lab ++ sp) ++ chr ":" :: take_class isspace l),
        (skip_class isspace l).
      split.
      * rewrite Ep, <- !app_assoc. cbn [app].
        rewrite <- take_skip_class. reflexivity.
      * unfold lstrip. cbn [app]. apply skip_class_app_keep. exact H0.
  - exfalso. apply app_eq_app in Er.
    destruct Er as (l2 & [[Es2 Er2]|[El2 Er2]]).
    + destruct l2 as [|x l2].
      * rewrite app_nil_r in Es2. subst l.
        apply (Hin pre []). rewrite app_nil_r. exact Elab.
      * apply Hcolon. rewrite Es2. simpl in Er2. injection Er2 as Ex _.
        apply in_or_app. right. left. symmetry. exact Ex.
    + subst l. apply (Hin pre l2). exact Elab.
Qed.

Lemma match_statement_starts : forall pos s m,
    match_at sql_statement_pattern pos s = Some m ->
    starts_with_ignorecase (str "SELECT") s = true.
Proof.
  intros pos s m H. apply match_statement in H.
  destruct H as (sel & body & -> & F & _).
  unfold starts_with_ignorecase.
  rewrite (strip_word_intro ignorecase_eq _ sel _ F). reflexivity.
Qed.

(** The search passes over positions no match starts at. *)
Lemma search_from_skip : forall r pre s pos,
    (forall p1 p2, pre = p1 ++ p2 -> p2 <> [] ->
                   match_at r (pos + length p1) (p2 ++ s) = None) ->
    search_from r pos (pre ++ s) = search_from r (pos + length pre) s.
Proof.
  intros r. induction pre as [|c pre IH]; intros s pos H.
  - simpl. rewrite Nat.add_0_r. reflexivity.
  - pose proof (H [] (c :: pre) eq_refl) as H0.
    simpl in H0. rewrite Nat.add_0_r in H0.
    cbn [app search_from]. rewrite H0 by discriminate.
    cbn [length].
    replace (pos + S (length pre)) with (S pos + length pre) by lia.
    apply IH. intros p1 p2 E Hne.
    replace (S pos + length p1) with (pos + length (c :: p1))
      by (simpl; lia).
    apply H; [simpl; congruence|exact Hne].
Qed.

(** The statement of a block is what the search isolates, when no SELECT
    token starts in the prose before it. *)
Lemma statement_after_prose : forall pre sel body rest,
    same_letters "SELECT" sel -> count_char (chr ";") body = 0 ->
    no_start (starts_with_ignorecase (str "SELECT")) pre
      (sel ++ body ++ [chr ";"]) = true ->
    first_statement (strip_label (pre ++ (sel ++ body ++ [chr ";"]) ++ rest))
    = sel ++ body ++ [chr ";"].
Proof.
  intros pre sel body rest F Hsemi Hpre.
  rewrite <- !app_assoc.
  destruct (strip_label_before_statement pre sel
              (body ++ [chr ";"] ++ rest) F) as (p0 & pre' & Ep & ->).
  assert (Hfound : exists m,
             match_at sql_statement_pattern (0 + length pre')
               (sel ++ body ++ [chr ";"] ++ rest) = Some m).
  { replace (sel ++ body ++ [chr ";"] ++ rest)
      with ((sel ++ body ++ [chr ";"]) ++ rest)
      by (rewrite <- !app_assoc; reflexivity).
    eapply match_at_complete. apply matches_statement. exact F. }
  destruct Hfound as (m & Hm).
  unfold first_statement, re_search. rewrite search_from_skip.
  - rewrite (search_from_head _ _ _ _ Hm).
    apply match_statement in Hm.
    destruct Hm as (sel' & body' & E & F' & C' & G).
    assert (L : length sel = length sel')
      by (apply Forall2_length in F, F'; congruence).
    destruct (app_same_length sel sel' _ _ L E) as [<- E'].
    cbn [app] in E'.
    apply first_split_unique in E';
      [|apply count_char_zero; assumption|apply count_char_zero; assumption].
    destruct E' as [<- _]. unfold group1. rewrite G. reflexivity.
  - intros p1 p2 E Hne.
    destruct (match_at sql_statement_pattern (0 + length p1)
                (p2 ++ sel ++ body ++ [chr ";"] ++ rest)) as [m'|] eqn:Hm';
      [exfalso|reflexivity].
    apply match_statement_starts in Hm'.
    assert (Hs : starts_with_ignorecase (str "SELECT")
                   (p2 ++ sel ++ body ++ [chr ";"]) = false).
    { apply (no_start_spec _ _ _ Hpre (p0 ++ p1) p2); [|exact Hne].
      rewrite Ep, E, <- app_assoc. reflexivity. }
    replace (p2 ++ sel ++ body ++ [chr ";"] ++ rest)
      with ((p2 ++ sel ++ body ++ [chr ";"]) ++ rest) in Hm'
      by (rewrite <- !app_assoc; reflexivity).
    rewrite starts_with_ignorecase_app in Hm'; [congruence|].
    apply Forall2_length in F. rewrite !length_app, <- F. simpl. lia.
Qed.

(** A statement has no whitespace at its ends, and is never read as a
    language tag. *)
Lemma statement_trimmed : forall sel body,
    same_letters "SELECT" sel ->
    lstrip (sel ++ body ++ [chr ";"]) = sel ++ body ++ [chr ";"]
    /\ rstrip (sel ++ body ++ [chr ";"]) = sel ++ body ++ [chr ";"].
Proof.
  intros sel body F. pose proof (select_letters_not_space sel F) as Hns.
  destruct sel as [|s0 sel]; [inversion F|]. simpl in Hns.
  apply andb_true_iff in Hns. destruct Hns as [Ha _].
  apply negb_true_iff in Ha. split.
  - unfold lstrip. simpl. rewrite Ha. reflexivity.
  - rewrite !app_assoc. apply rstrip_snoc_kept. reflexivity.
Qed.

Lemma starts_with_first : forall l1 w c1 t,
    (l1 =? c1)%N = false -> starts_with (l1 :: w) (c1 :: t) = false.
Proof.
  intros l1 w c1 t H. unfold starts_with. cbn [strip_word]. rewrite H.
  reflexivity.
Qed.

Lemma starts_with_second : forall l1 l2 w c1 c2 t,
    (l2 =? c2)%N = false ->
    starts_with (l1 :: l2 :: w) (c1 :: c2 :: t) = false.
Proof.
  intros l1 l2 w c1 c2 t H. unfold starts_with. cbn [strip_word]. rewrite H.
  destruct (l1 =? c1)%N; reflexivity.
Qed.

Lemma statement_block_tag : forall tag ws1 sel rest,
    In tag [[]; str "sql"; str "SQL"; str "mysql"; str "postgresql"] ->
    forallb isspace ws1 = true -> same_letters "SELECT" sel ->
    block_tag tag (ws1 ++ sel ++ rest).
Proof.
  intros tag ws1 sel rest [<-|Htag] H1 F; [|left; exact Htag].
  right. split; [reflexivity|]. intros w Hw.
  destruct ws1 as [|c ws1].
  - unfold same_letters in F. simpl in F.
    inversion F as [|? c1 ? l1 _ F1]; subst.
    inversion F1 as [|? c2 ? l2 H2 _]; subst.
    assert (Hc2 : c2 = 69%N \/ c2 = 101%N).
    { destruct (ignorecase_letter 69 c2) as [->|[->|[X _]]];
        [simpl; auto|exact H2| | |discriminate]; auto. }
    cbn [app]. simpl in Hw.
    repeat (destruct Hw as [<-|Hw];
            [apply starts_with_second;
             destruct Hc2 as [->| ->]; reflexivity|]).
    contradiction.
  - simpl in H1. apply andb_true_iff in H1. destruct H1 as [Hc _].
    cbn [app]. simpl in Hw.
    repeat (destruct Hw as [<-|Hw];
            [apply starts_with_first; apply N.eqb_neq; intros <-;
             vm_compute in Hc; discriminate|]).
    contradiction.
Qed.

(* ------------------------------------------------------------------ *)
(** ** A block with whitespace around it *)

Lemma whitespace_no_fence : forall pre follow,
    forallb isspace pre = true ->
    no_start (starts_with fence) pre follow = true.
Proof.
  induction pre as [|c pre IH]; intros follow H; [reflexivity|].
  simpl in H. apply andb_true_iff in H. destruct H as [Hc H].
  assert (E : starts_with fence ((c :: pre) ++ follow) = false).
  { apply starts_with_first. apply N.eqb_neq. intros <-.
    vm_compute in Hc. discriminate. }
  cbn [no_start]. rewrite E, (IH follow H). reflexivity.
Qed.

Lemma app_prefix_space : forall pre x a c y,
    forallb isspace pre = true -> isspace c = false ->
    pre ++ x = a ++ c :: y ->
    exists l, a = pre ++ l /\ x = l ++ c :: y.
Proof.
  intros pre x a c y Hpre Hc E. apply app_eq_app in E.
  destruct E as (l & [[Ep Er]|[Ea Er]]).
  - destruct l as [|z l].
    + exists []. rewrite app_nil_r in *. simpl in Er. auto.
    + exfalso. simpl in Er. injection Er as Ez _. subst z pre.
      rewrite forallb_app in Hpre. simpl in Hpre. rewrite Hc in Hpre.
      rewrite andb_false_r in Hpre. discriminate.
  - exists l. auto.
Qed.

Lemma app_suffix_space : forall post x y c b,
    forallb isspace post = true -> isspace c = false ->
    x ++ post = (y ++ [c]) ++ b ->
    exists l, x = (y ++ [c]) ++ l /\ b = l ++ post.
Proof.
  intros post x y c b Hpost Hc E. apply app_eq_app in E.
  destruct E as (l & [[Ex Er]|[Ey Er]]).
  - exists l. auto.
  - destruct l as [|z0 l0].
    + exists []. rewrite !app_nil_r in *. simpl in Er. auto.
    + destruct (@exists_last _ (z0 :: l0)) as (l' & z & El); [discriminate|].
      rewrite El in Ey, Er. rewrite app_assoc in Ey.
      apply app_inj_tail in Ey. destruct Ey as [_ <-]. exfalso.
      subst post. rewrite !forallb_app in Hpost. simpl in Hpost.
      rewrite Hc in Hpost. simpl in Hpost. rewrite andb_false_r in Hpost.
      discriminate.
Qed.

Lemma strip_label_plain_block : forall pre content post,
    forallb isspace pre = true -> forallb isspace post = true ->
    (pre = [] -> ~ starts_with_label content) ->
    strip_label (pre ++ content ++ post) = pre ++ content ++ post.
Proof.
  intros pre content post Hpre Hpost Hlab. rewrite strip_label_at_start.
  destruct (match_at prefix_pattern 0 (pre ++ content ++ post)) as [m|] eqn:Hm;
    [exfalso|reflexivity].
  apply match_label_shape in Hm.
  destruct Hm as (lab & sp & r & E & Hl & Hs & _).
  destruct pre as [|c pre].
  - apply (Hlab eq_refl). cbn [app] in E.
    rewrite (app_assoc lab sp) in E. apply app_eq_app in E.
    destruct E as (l & [[Ec Er]|[El Er]]).
    + destruct l as [|x l].
      * simpl in Er. subst post. simpl in Hpost. discriminate.
      * simpl in Er. injection Er as Ex Er'. subst x.
        exists lab, sp, l. rewrite Ec, <- app_assoc. auto.
    + exfalso. subst post. rewrite forallb_app in Hpost. simpl in Hpost.
      rewrite andb_false_r in Hpost. discriminate.
  - apply label_word_head in Hl.
    destruct Hl as (a & b & r' & -> & Ha & _).
    simpl in Hpre. apply andb_true_iff in Hpre. destruct Hpre as [Hc _].
    simpl in E. injection E as Ec _. congruence.
Qed.

Lemma no_statement_in_whitespace : forall pre content post,
    forallb isspace pre = true -> forallb isspace post = true ->
    no_select_statement content ->
    no_select_statement (pre ++ content ++ post).
Proof.
  intros pre content post Hpre Hpost Hno w Hw (a & b & E).
  apply (Hno w Hw). destruct Hw as (sel & body & -> & F).
  pose proof (select_letters_not_space sel F) as Hns.
  destruct sel as [|s0 sel]; [inversion F|]. simpl in Hns.
  apply andb_true_iff in Hns. destruct Hns as [H0 _].
  apply negb_true_iff in H0.
  cbn [app] in E.
  destruct (app_prefix_space pre _ a s0 _ Hpre H0 E) as (l & -> & E1).
  replace (l ++ s0 :: (sel ++ body ++ [chr ";"]) ++ b)
    with (((l ++ s0 :: sel ++ body) ++ [chr ";"]) ++ b) in E1
    by (rewrite <- !app_assoc; cbn [app]; rewrite <- !app_assoc;
        reflexivity).
  destruct (app_suffix_space post content _ (chr ";") b Hpost eq_refl E1)
    as (l2 & -> & _).
  exists l, l2. rewrite <- !app_assoc. cbn [app]. rewrite <- !app_assoc.
  reflexivity.
Qed.

Lemma lstrip_all_space : forall w, forallb isspace w = true -> lstrip w = [].
Proof.
  intros w H. rewrite <- (app_nil_r w). rewrite lstrip_spaces_app by exact H.
  reflexivity.
Qed.

Lemma rstrip_spaces_app : forall t w,
    forallb isspace w = true -> rstrip (t ++ w) = rstrip t.
Proof.
  intros t w H. unfold rstrip. rewrite rev_app_distr.
  rewrite lstrip_spaces_app; [reflexivity|].
  rewrite forallb_forall in *. intros x Hx. apply H. apply in_rev. exact Hx.
Qed.

Lemma strip_whitespace_around : forall pre content post,
    forallb isspace pre = true -> forallb isspace post = true ->
    lstrip content = content -> rstrip content = content ->
    strip (pre ++ content ++ post) = content.
Proof.
  intros pre content post Hpre Hpost Hl Hr. unfold strip.
  rewrite lstrip_spaces_app by exact Hpre.
  destruct content as [|c0 ct].
  - cbn [app]. rewrite lstrip_all_space by exact Hpost. reflexivity.
  - pose proof (lstrip_fixed c0 ct Hl) as H0.
    unfold lstrip at 1. cbn [app skip_class]. rewrite H0.
    change (c0 :: ct ++ post) with ((c0 :: ct) ++ post).
    rewrite rstrip_spaces_app by exact Hpost. exact Hr.
Qed.

Lemma collapse_whitespace_around : forall pre content post,
    forallb isspace pre = true -> forallb isspace post = true ->
    lstrip content = content -> rstrip content = content ->
    collapse_spaces (pre ++ content ++ post) = collapse_spaces content.
Proof.
  intros pre content post Hpre Hpost Hl Hr. unfold collapse_spaces.
  rewrite (strip_whitespace_around pre content post Hpre Hpost Hl Hr).
  rewrite <- (strip_whitespace_around [] content [] eq_refl eq_refl Hl Hr)
    at 1.
  cbn [app]. rewrite app_nil_r. reflexivity.
Qed.

Lemma whitespace_no_backtick : forall w,
    forallb isspace w = true -> count_char (chr "`") w = 0.
Proof.
  intros w H. unfold count_char. apply filter_none. intros c Hc.
  rewrite forallb_forall in H. specialize (H c Hc).
  apply N.eqb_neq. intros <-. vm_compute in H. discriminate.
Qed.

(* ------------------------------------------------------------------ *)
(** ** C8: a fenced block in the raw text

    What the fence does not hide: text before and after the block stays
    ([text_after_fence_is_kept]); a SELECT token in the prose starts the
    statement ([earlier_select_starts_the_statement]); a label at the
    start of the content is removed and a statement inside it is isolated
    ([label_in_block_is_removed], [statement_in_block_is_isolated]); the
    tag [SQLQuery] is read as [SQL] ([sqlquery_tag_leaves_query]) and a tag
    word is taken from the content of a bare fence
    ([tag_word_is_taken_from_content]); backticks pair up from the left
    ([fence_in_content_closes_the_block], [earlier_fence_pairs_first],
    [backtick_before_fence_shifts_it], [backtick_after_content_shifts_it]);
    whitespace inside the content is collapsed as well
    ([whitespace_in_block_is_collapsed]). *)

Example text_after_fence_is_kept :
  clean_sql_query (str ("```sql" ++ nl ++ "list" ++ nl ++ "``` thanks"))
  = str "list thanks".
Proof. vm_compute. reflexivity. Qed.

Example earlier_select_starts_the_statement :
  clean_sql_query
    (str ("Use select here: ```sql" ++ nl ++ "SELECT 1;" ++ nl ++ "```"))
  = str "select here: SELECT 1;".
Proof. vm_compute. reflexivity. Qed.

Example label_in_block_is_removed :
  clean_sql_query (str ("```sql" ++ nl ++ "SQL: list" ++ nl ++ "```"))
  = str "list".
Proof. vm_compute. reflexivity. Qed.

Example statement_in_block_is_isolated :
  clean_sql_query
    (str ("```sql" ++ nl ++ "-- names" ++ nl ++ "SELECT 1; SELECT 2;" ++ nl
            ++ "```"))
  = str "SELECT 1;".
Proof. vm_compute. reflexivity. Qed.

Example tag_word_is_taken_from_content :
  clean_sql_query (str ("```sqlite" ++ nl ++ ".tables" ++ nl ++ "```"))
  = str "ite .tables".
Proof. vm_compute. reflexivity. Qed.

Example fence_in_content_closes_the_block :
  clean_sql_query (str ("```sql" ++ nl ++ "a ``` b" ++ nl ++ "```"))
  = str "a b ```".
Proof. vm_compute. reflexivity. Qed.

Example earlier_fence_pairs_first :
  clean_sql_query (str ("``` x ```sql" ++ nl ++ "list" ++ nl ++ "```"))
  = str "xsql list ```".
Proof. vm_compute. reflexivity. Qed.

Example backtick_before_fence_shifts_it :
  clean_sql_query (str ("`" ++ "```sql" ++ nl ++ "list" ++ nl ++ "```"))
  = str "`sql list".
Proof. vm_compute. reflexivity. Qed.

Example backtick_after_content_shifts_it :
  clean_sql_query (str ("```sql" ++ nl ++ "list`" ++ "```"))
  = str "list`".
Proof. vm_compute. reflexivity. Qed.

Example whitespace_in_block_is_collapsed :
  clean_sql_query (str ("```sql" ++ nl ++ "SELECT  1;" ++ nl ++ "```"))
  = str "SELECT 1;".
Proof. vm_compute. reflexivity. Qed.

(** C8 (amended): take a raw text that holds a fenced block: a text [pre]
    in which no fence starts, the opening fence, a tag among sql, SQL,
    mysql and postgresql or no tag (then what follows the fence does not
    start with a tag word), whitespace, a content with no whitespace at its
    ends in which no fence starts, whitespace, the closing fence and any
    text [post].

    - Fence stripping puts the content where the block stood, keeps [pre]
      and goes on in [post]; [clean_sql_query] returns what label
      stripping, the statement search and the whitespace collapse make of
      that text.
    - When the content is a SELECT statement, its only semicolon at its
      end, and no SELECT token starts in [pre], the result is the fenced
      content alone with its whitespace collapsed, whatever [pre] and
      [post] hold; the tag condition and the trimmed ends come with the
      statement.
    - When only whitespace surrounds the block, and the content holds no
      statement and, the block standing first, does not start with a
      label, the result is again the fenced content alone with its
      whitespace collapsed.
    - The input of the specification's example, a block tagged sql around
      "SELECT * FROM S_RBR;", gives "SELECT * FROM S_RBR;". *)
Theorem fenced_block_extract :
  (forall pre tag ws1 content ws2 post,
      block_tag tag (ws1 ++ content ++ ws2 ++ fence) ->
      forallb isspace ws1 = true -> forallb isspace ws2 = true ->
      lstrip content = content -> rstrip content = content ->
      no_start (starts_with fence) pre fence = true ->
      no_start (starts_with fence) content (ws2 ++ fence) = true ->
      strip_fences
        (pre ++ fence ++ tag ++ ws1 ++ content ++ ws2 ++ fence ++ post)
      = pre ++ content ++ strip_fences post
      /\ clean_sql_query
           (pre ++ fence ++ tag ++ ws1 ++ content ++ ws2 ++ fence ++ post)
         = collapse_spaces
             (first_statement
                (strip_label (pre ++ content ++ strip_fences post))))
  /\ (forall pre tag ws1 sel body ws2 post,
         In tag [[]; str "sql"; str "SQL"; str "mysql"; str "postgresql"] ->
         forallb isspace ws1 = true -> forallb isspace ws2 = true ->
         same_letters "SELECT" sel -> count_char (chr ";") body = 0 ->
         no_start (starts_with fence) pre fence = true ->
         no_start (starts_with fence) (sel ++ body ++ [chr ";"])
           (ws2 ++ fence) = true ->
         no_start (starts_with_ignorecase (str "SELECT")) pre
           (sel ++ body ++ [chr ";"]) = true ->
         clean_sql_query
           (pre ++ fence ++ tag ++ ws1 ++ (sel ++ body ++ [chr ";"]) ++ ws2
                ++ fence ++ post)
         = collapse_spaces (sel ++ body ++ [chr ";"]))
  /\ (forall pre tag ws1 content ws2 post,
         block_tag tag (ws1 ++ content ++ ws2 ++ fence) ->
         forallb isspace ws1 = true -> forallb isspace ws2 = true ->
         lstrip content = content -> rstrip content = content ->
         no_start (starts_with fence) content (ws2 ++ fence) = true ->
         forallb isspace pre = true -> forallb isspace post = true ->
         no_select_statement content ->
         (pre = [] -> ~ starts_with_label content) ->
         clean_sql_query
           (pre ++ fence ++ tag ++ ws1 ++ content ++ ws2 ++ fence ++ post)
         = collapse_spaces content)
  /\ clean_sql_query
       (str ("```sql" ++ nl ++ "SELECT * FROM S_RBR;" ++ nl ++ "```"))
     = str "SELECT * FROM S_RBR;".
Proof.
  split; [|split; [|split; [|vm_compute; reflexivity]]].
  - intros pre tag ws1 content ws2 post Htag H1 H2 Hl Hr Hpre H3.
    pose proof (strip_fences_block pre tag ws1 content ws2 post
                  Htag H1 H2 Hl Hr Hpre H3) as E.
    split; [exact E|]. unfold clean_sql_query. rewrite E. reflexivity.
  - intros pre tag ws1 sel body ws2 post Htag H1 H2 F Hsemi Hpre H3 Hsel.
    destruct (statement_trimmed sel body F) as [Hl Hr].
    assert (Hbt : block_tag tag
                    (ws1 ++ (sel ++ body ++ [chr ";"]) ++ ws2 ++ fence)).
    { rewrite <- (app_assoc sel). apply statement_block_tag; assumption. }
    unfold clean_sql_query.
    rewrite (strip_fences_block pre tag ws1 _ ws2 post
               Hbt H1 H2 Hl Hr Hpre H3).
    rewrite (statement_after_prose pre sel body (strip_fences post)
               F Hsemi Hsel).
    reflexivity.
  - intros pre tag ws1 content ws2 post Htag H1 H2 Hl Hr H3 Hpre Hpost
           Hno Hlab.
    unfold clean_sql_query.
    rewrite (strip_fences_block pre tag ws1 content ws2 post Htag H1 H2
               Hl Hr (whitespace_no_fence pre fence Hpre) H3).
    rewrite (strip_fences_plain post (whitespace_no_backtick post Hpost)).
    rewrite (strip_label_plain_block pre content post Hpre Hpost Hlab).
    unfold first_statement.
    rewrite (search_none _ (no_statement_in_whitespace pre content post
                              Hpre Hpost Hno)).
    apply collapse_whitespace_around; assumption.
Qed.

Lemma fenced_block_extract_witness :
  strip_fences (str ("see ```sql" ++ nl ++ "list" ++ nl ++ "```"))
  = str "see list"
  /\ clean_sql_query
       (str ("Here is the query:" ++ nl ++ "```sql" ++ nl
               ++ "SELECT name  FROM S_RBR;" ++ nl ++ "```" ++ nl
               ++ "It lists the names; select what you need."))
     = str "SELECT name FROM S_RBR;"
  /\ clean_sql_query
       (str (nl ++ "```" ++ nl ++ "list  tables" ++ nl ++ "```" ++ nl))
     = str "list tables".
Proof.
  split; [|split].
  - refine (proj1 (proj1 fenced_block_extract
                     (str "see ") (str "sql") (str nl) (str "list") (str nl)
                     [] _ _ _ _ _ _ _)).
    + left. left. reflexivity.
    + reflexivity.
    + reflexivity.
    + reflexivity.
    + reflexivity.
    + vm_compute. reflexivity.
    + vm_compute. reflexivity.
  - assert (E : collapse_spaces
                  (str "SELECT" ++ str " name  FROM S_RBR" ++ [chr ";"])
                = str "SELECT name FROM S_RBR;") by (vm_compute; reflexivity).
    rewrite <- E.
    refine (proj1 (proj2 fenced_block_extract)
              (str ("Here is the query:" ++ nl)) (str "sql") (str nl)
              (str "SELECT") (str " name  FROM S_RBR") (str nl)
              (str (nl ++ "It lists the names; select what you need."))
              _ _ _ _ _ _ _ _).
    + right. left. reflexivity.
    + reflexivity.
    + reflexivity.
    + unfold same_letters. repeat constructor.
    + vm_compute. reflexivity.
    + vm_compute. reflexivity.
    + vm_compute. reflexivity.
    + vm_compute. reflexivity.
  - assert (E : collapse_spaces (str "list  tables") = str "list tables")
      by (vm_compute; reflexivity).
    rewrite <- E.
    refine (proj1 (proj2 (proj2 fenced_block_extract))
              (str nl) [] (str nl) (str "list  tables") (str nl) (str nl)
              _ _ _ _ _ _ _ _ _ _).
    + right. split; [reflexivity|]. intros w Hw. simpl in Hw.
      repeat (destruct Hw as [<-|Hw]; [reflexivity|]). contradiction.
    + reflexivity.
    + reflexivity.
    + reflexivity.
    + reflexivity.
    + vm_compute. reflexivity.
    + reflexivity.
    + reflexivity.
    + apply no_semicolon_no_statement. vm_compute. reflexivity.
    + intros E0. discriminate E0.
Defined.

(* ------------------------------------------------------------------ *)
(** ** The run as deployed *)

Ltac run_norm :=
  cbv beta iota zeta delta [event trace exn];
  rewrite <- ?app_assoc;
  cbn [app fst snd ChainOutput.answer ChainOutput.query
       ChainOutput.raw_results].

(** [Deployed.answer] unfolded.  Both generation calls are made whatever
    the schedule, and they are the same call: the schedule only decides
    which response goes to which branch. *)
Lemma deployed_answer_run : forall d self question tr,
    let g1 := KabaddiSystem.generate_query self tr question in
    let tr1 := tr ++ [(Generate question, g1)] in
    let g2 := KabaddiSystem.generate_query self tr1 question in
    let tr2 := tr ++ [(Generate question, g1); (Generate question, g2)] in
    let raw := if Deployed.raw_query_first d tr then g1 else g2 in
    let queried := if Deployed.raw_query_first d tr then g2 else g1 in
    Deployed.answer d self question tr =
    match Deployed.encode d (KabaddiSystem.prompt_str self question) with
    | inl e => (tr, inl e)
    | inr tokens =>
        let n := length tokens in
        match raw, queried with
        | inr _, inr generated =>
            let query := clean_sql_query generated in
            let x := KabaddiSystem.execute_query self tr2 query in
            let tr3 := tr2 ++ [(Execute query, x)] in
            match x with
            | inl _ => (tr3, inr (KabaddiSystem.error_response self n tr3))
            | inr result =>
                match strip result with
                | [] =>
                    match Deployed.encode d (str "No data available.") with
                    | inl _ =>
                        (tr3, inr (KabaddiSystem.error_response self n tr3))
                    | inr out =>
                        (tr3,
                         inr (Deployed.success_response self (n + length out)
                                {| ChainOutput.answer :=
                                     str "No data available.";
                                   ChainOutput.query := query;
                                   ChainOutput.raw_results := result |} tr3))
                    end
                | _ :: _ =>
                    let a := KabaddiSystem.rephrase_answer self tr3 question
                               query result in
                    let tr4 := tr3 ++ [(Rephrase question query result, a)] in
                    match a with
                    | inl _ =>
                        (tr4, inr (KabaddiSystem.error_response self n tr4))
                    | inr ans =>
                        match Deployed.encode d ans with
                        | inl _ =>
                            (tr4,
                             inr (KabaddiSystem.error_response self n tr4))
                        | inr out =>
                            (tr4,
                             inr (Deployed.success_response self
                                    (n + length out)
                                    {| ChainOutput.answer := ans;
                                       ChainOutput.query := query;
                                       ChainOutput.raw_results := result |}
                                    tr4))
                        end
                    end
                end
            end
        | _, _ => (tr2, inr (KabaddiSystem.error_response self n tr2))
        end
    end.
Proof.
  intros d self question tr. cbv zeta. unfold Deployed.answer.
  destruct (Deployed.encode d (KabaddiSystem.prompt_str self question))
    as [e|tokens]; [reflexivity|].
  unfold try_except, bind, Deployed.chain, Deployed.race, parallel, bind,
    ret, KabaddiSystem.call_generate, KabaddiSystem.call_execute,
    KabaddiSystem.call_rephrase, invoke.
  destruct (Deployed.raw_query_first d tr);
    destruct (KabaddiSystem.generate_query self tr question) as [e1|r1];
    repeat (run_norm; try reflexivity;
            match goal with
            | |- context [KabaddiSystem.generate_query self ?t ?q] =>
                destruct (KabaddiSystem.generate_query self t q)
            | |- context [KabaddiSystem.execute_query self ?t ?q] =>
                destruct (KabaddiSystem.execute_query self t q)
            | |- context [match strip ?r with _ => _ end] =>
                destruct (strip r)
            | |- context [KabaddiSystem.rephrase_answer self ?t ?a ?b ?c] =>
                destruct (KabaddiSystem.rephrase_answer self t a b c)
            | |- context [match Deployed.encode d ?a with _ => _ end] =>
                destruct (Deployed.encode d a)
            end).
Qed.

(** The definitions of [KabaddiSystem] are the deployment [sequential]. *)
Lemma sequential_answer : forall self question tr,
    Deployed.answer (sequential self) self question tr
    = KabaddiSystem.answer self question tr.
Proof.
  intros self question tr. rewrite answer_run, deployed_answer_run.
  reflexivity.
Qed.

Lemma sequential_ask : forall system request tr,
    Deployed.ask
      (match system with
       | Some self => sequential self
       | None => {| Deployed.raw_query_first := fun _ => true;
                    Deployed.encode := fun _ => inr [] |}
       end) system request tr
    = ask system request tr.
Proof.
  intros [self|] request tr; [|reflexivity].
  unfold Deployed.ask, ask. rewrite sequential_answer. reflexivity.
Qed.

Lemma new_events_none : forall tr, new_events tr tr = [].
Proof. intros tr. unfold new_events. apply skipn_all. Qed.

Ltac deployed_cases H :=
  rewrite deployed_answer_run in H; cbv zeta in H;
  match type of H with
  | context [Deployed.raw_query_first ?d ?t] =>
      destruct (Deployed.raw_query_first d t) eqn:?
  end;
  cbv iota in H;
  repeat match type of H with
         | context [match ?x with _ => _ end] => destruct x eqn:?
         end;
  inversion H; subst; clear H;
  rewrite <- ?app_assoc in *;
  rewrite ?new_events_app, ?new_events_none in *;
  cbn [app] in *.

(** With a prompt the encoder accepts, the calls of [answer] are those of
    the chain. *)
Lemma answer_trace_is_chain_trace : forall d self question tr tokens,
    Deployed.encode d (KabaddiSystem.prompt_str self question) = inr tokens ->
    fst (Deployed.answer d self question tr)
    = fst (Deployed.chain d self question tr).
Proof.
  intros d self question tr tokens E. unfold Deployed.answer. rewrite E.
  unfold try_except, bind.
  destruct (Deployed.chain d self question tr) as [tr' [e|resp]];
    [reflexivity|].
  destruct (Deployed.encode d (ChainOutput.answer resp)); reflexivity.
Qed.

(** X10: under every schedule of the two generation calls, an SQL text
    reaches the executor only after both calls returned, and it is
    [clean_sql_query] of the response the [query] branch received: the
    second response of the run when the [raw_query] branch was answered
    first, the first one otherwise.  So it has no whitespace at its ends
    and only single spaces inside. *)
Theorem executed_sql_is_cleaned_generation :
  forall d self question tr tr' r sql x,
    Deployed.answer d self question tr = (tr', r) ->
    In (Execute sql, x) (new_events tr tr') ->
    exists g1 g2 rest,
      new_events tr tr'
      = (Generate question, inr g1) :: (Generate question, inr g2) :: rest
      /\ sql = clean_sql_query
                 (if Deployed.raw_query_first d tr then g2 else g1)
      /\ strip sql = sql /\ single_spaced false sql = true.
Proof.
  intros d self question tr tr' r sql x H Hin.
  deployed_cases H; in_cases Hin; try discriminate;
    inversion Hin; subst;
    do 3 eexists; (split; [reflexivity|]); (split; [reflexivity|]);
    apply collapse_spaces_shape.
Qed.

Lemma executed_sql_is_cleaned_generation_witness :
  let self := sample_system (str "```sql
SELECT  name
FROM S_RBR;
```") (str "SELECT 2;") (str "[('a',)]") (str "a") in
  let d := sample_env false in
  exists g1 g2 rest,
    new_events [] (fst (Deployed.answer d self (str "who") []))
    = (Generate (str "who"), inr g1) :: (Generate (str "who"), inr g2)
        :: rest
    /\ str "SELECT name FROM S_RBR;"
       = clean_sql_query (if Deployed.raw_query_first d [] then g2 else g1)
    /\ strip (str "SELECT name FROM S_RBR;") = str "SELECT name FROM S_RBR;"
    /\ single_spaced false (str "SELECT name FROM S_RBR;") = true.
Proof.
  cbv zeta.
  eapply (executed_sql_is_cleaned_generation (sample_env false)
            (sample_system (str "```sql
SELECT  name
FROM S_RBR;
```") (str "SELECT 2;") (str "[('a',)]") (str "a")) (str "who") [] _ _
            (str "SELECT name FROM S_RBR;") (inr (str "[('a',)]"))).
  - reflexivity.
  - vm_compute. right. right. left. reflexivity.
Defined.

(** The schedule decides which of two differing responses is executed. *)
Example schedule_decides_the_query :
  let self := sample_system (str "SELECT 1;") (str "SELECT 2;")
                            (str "[(2,)]") (str "It is 2.") in
  (exists resp,
      snd (Deployed.answer (sample_env true) self (str "how many") [])
      = inr resp
      /\ QueryData.query (QueryResponse.data resp) = str "SELECT 2;")
  /\ (exists resp,
         snd (Deployed.answer (sample_env false) self (str "how many") [])
         = inr resp
         /\ QueryData.query (QueryResponse.data resp) = str "SELECT 1;").
Proof.
  cbv zeta. split; eexists; split; vm_compute; reflexivity.
Qed.

(** X12: a run never retries and never rewrites the trace.  Under every
    schedule the chain appends to the trace it was given two generation
    calls, at most one execution and at most one rephrasing, in this
    order; [answer] either makes these calls and returns a response, or,
    when the encoder raises on the prompt, raises before any call. *)
Theorem run_appends_at_most_four_calls :
  forall d self question tr,
    (forall tr' r,
        Deployed.chain d self question tr = (tr', r) -> run_shape tr tr')
    /\ (forall tr' r,
           Deployed.answer d self question tr = (tr', r) ->
           (tr' = tr
            /\ exists e,
                Deployed.encode d (KabaddiSystem.prompt_str self question)
                = inl e
                /\ r = inl e)
           \/ (run_shape tr tr' /\ exists resp, r = inr resp)).
Proof.
  assert (A : forall d self question tr tr' r,
             Deployed.answer d self question tr = (tr', r) ->
             (tr' = tr
              /\ exists e,
                  Deployed.encode d (KabaddiSystem.prompt_str self question)
                  = inl e
                  /\ r = inl e)
             \/ (run_shape tr tr' /\ exists resp, r = inr resp)).
  { intros d self question tr tr' r H. unfold run_shape.
    deployed_cases H;
      try (left; split; [reflexivity|eexists; split; reflexivity]);
      right; (split; [|eexists; reflexivity]);
      rewrite ?new_events_app; repeat split; simpl; lia. }
  intros d self question tr. split; [|apply A].
  intros tr' r H.
  set (d' := {| Deployed.raw_query_first := Deployed.raw_query_first d;
                Deployed.encode := fun _ => inr [] |}).
  assert (E : fst (Deployed.answer d' self question tr) = tr').
  { rewrite (answer_trace_is_chain_trace d' self question tr [] eq_refl).
    change (Deployed.chain d' self question tr)
      with (Deployed.chain d self question tr).
    rewrite H. reflexivity. }
  destruct (Deployed.answer d' self question tr) as [tr1 r1] eqn:Ha.
  simpl in E. subst tr1.
  destruct (A _ _ _ _ _ _ Ha) as [(_ & e & X & _)|[S _]];
    [discriminate X|exact S].
Qed.

Lemma run_appends_at_most_four_calls_witness :
  let self := sample_system (str "SELECT 1;") (str "SELECT 2;")
                            (str "[(2,)]") (str "It is 2.") in
  run_shape [] (fst (Deployed.chain (sample_env false) self
                       (str "how many") []))
  /\ fst (Deployed.answer (sample_env false) self special_question []) = [].
Proof.
  cbv zeta. split.
  - refine (proj1 (run_appends_at_most_four_calls (sample_env false)
                     (sample_system (str "SELECT 1;") (str "SELECT 2;")
                                    (str "[(2,)]") (str "It is 2."))
                     (str "how many") [])
              _ (snd (Deployed.chain (sample_env false)
                        (sample_system (str "SELECT 1;") (str "SELECT 2;")
                                       (str "[(2,)]") (str "It is 2."))
                        (str "how many") [])) _).
    vm_compute. reflexivity.
  - destruct (proj2 (run_appends_at_most_four_calls (sample_env false)
                       (sample_system (str "SELECT 1;") (str "SELECT 2;")
                                      (str "[(2,)]") (str "It is 2."))
                       special_question [])
                (fst (Deployed.answer (sample_env false)
                        (sample_system (str "SELECT 1;") (str "SELECT 2;")
                                       (str "[(2,)]") (str "It is 2."))
                        special_question []))
                (snd (Deployed.answer (sample_env false)
                        (sample_system (str "SELECT 1;") (str "SELECT 2;")
                                       (str "[(2,)]") (str "It is 2."))
                        special_question [])))
      as [[E _]|[_ (resp & X)]].
    + vm_compute. reflexivity.
    + exact E.
    + vm_compute in X. discriminate X.
Defined.



Ltac no_raise :=
  let Hex := fresh "Hex" in
  intros Hex;
  repeat (apply Exists_cons in Hex; destruct Hex as [Hex|Hex];
          [exact Hex|]);
  apply Exists_nil in Hex; exact Hex.

Ltac some_raise :=
  repeat first [apply Exists_cons_hd; exact I | apply Exists_cons_tl].

Ltac answer_text_here :=
  first [left; reflexivity
        |right; do 2 eexists; simpl; auto 6].

(** X14: a request with a non-blank question to an initialised system,
    when the encoder accepts the prompt, gets a response body and never an
    HTTP error, under every schedule.  The body is a success only when no
    call of the run raised and the encoder accepted the answer text (the
    fixed text for a blank result, or what the rephrasing call returned);
    [tokens_used] then counts the tokens of the prompt and of that text.
    Otherwise the body is the error envelope with the token count of the
    prompt: a call raised, or the encoder raised on the answer text. *)
Theorem accepted_prompt_gets_a_body :
  forall d self request tr tr' out tokens,
    Deployed.ask d (Some self) request tr = (tr', out) ->
    strip (question request) <> [] ->
    Deployed.encode d (KabaddiSystem.prompt_str self (question request))
    = inr tokens ->
    exists resp,
      out = inr resp
      /\ ((QueryResponse.status resp = str "success"
           /\ ~ Exists raised (new_events tr tr')
           /\ answer_text (question request)
                (QueryData.answer (QueryResponse.data resp))
                (new_events tr tr')
           /\ exists out_tokens,
               Deployed.encode d
                 (QueryData.answer (QueryResponse.data resp))
               = inr out_tokens
               /\ QueryData.tokens_used (QueryResponse.data resp)
                  = length tokens + length out_tokens)
          \/ (resp = KabaddiSystem.error_response self (length tokens) tr'
              /\ (Exists raised (new_events tr tr')
                  \/ exists a e,
                      answer_text (question request) a (new_events tr tr')
                      /\ Deployed.encode d a = inl e))).
Proof.
  intros d self request tr tr' out tokens H Hq E. unfold Deployed.ask in H.
  destruct (strip (question request)) as [|c t]; [congruence|]. clear Hq.
  destruct (Deployed.answer d self (question request) tr)
    as [tr1 r] eqn:Ha.
  rewrite deployed_answer_run in Ha. cbv zeta in Ha. rewrite E in Ha.
  match type of Ha with
  | context [Deployed.raw_query_first ?d ?t] =>
      destruct (Deployed.raw_query_first d t) eqn:?
  end;
    cbv iota in Ha;
    repeat match type of Ha with
           | context [match ?x with _ => _ end] => destruct x eqn:?
           end;
    inversion Ha; subst; clear Ha;
    inversion H; subst; clear H;
    rewrite <- ?app_assoc in *; rewrite ?new_events_app in *;
    cbn [app] in *;
    eexists; (split; [reflexivity|]);
    first [ left; split; [reflexivity|];
            split; [no_raise|];
            split; [answer_text_here|];
            eexists; split; [eassumption|reflexivity]
          | right; split; [reflexivity|];
            first [ left; some_raise; fail
                  | right; do 2 eexists;
                    (split; [|eassumption]); answer_text_here ] ].
Qed.

Lemma accepted_prompt_gets_a_body_witness :
  let request := {| question := str "who won" |} in
  exists resp,
    snd (Deployed.ask (sample_env true) (Some quota_system) request [])
    = inr resp
    /\ QueryResponse.status resp = str "error".
Proof.
  cbv zeta.
  destruct (accepted_prompt_gets_a_body (sample_env true) quota_system
              {| question := str "who won" |} []
              (fst (Deployed.ask (sample_env true) (Some quota_system)
                      {| question := str "who won" |} []))
              (snd (Deployed.ask (sample_env true) (Some quota_system)
                      {| question := str "who won" |} []))
              (sample_encoder
                 (KabaddiSystem.prompt_str quota_system (str "who won"))))
    as (resp & Eo & [(S & _)|(Er & _)]).
  - vm_compute. reflexivity.
  - vm_compute. discriminate.
  - vm_compute. reflexivity.
  - exfalso. vm_compute in Eo. injection Eo as <-. vm_compute in S.
    discriminate S.
  - exists resp. split; [exact Eo|]. rewrite Er. reflexivity.
Defined.

(** An answer the encoder refuses gives the error body, although every
    call succeeded. *)
Example refused_answer_is_an_error_body :
  let self := sample_system (str "SELECT 1;") (str "SELECT 1;")
                (str "[(1,)]") (str "One <|endoftext|>") in
  exists resp,
    Deployed.answer (sample_env true) self (str "how many") []
    = ([(Generate (str "how many"), inr (str "SELECT 1;"));
        (Generate (str "how many"), inr (str "SELECT 1;"));
        (Execute (str "SELECT 1;"), inr (str "[(1,)]"));
        (Rephrase (str "how many") (str "SELECT 1;") (str "[(1,)]"),
         inr (str "One <|endoftext|>"))],
       inr resp)
    /\ QueryResponse.status resp = str "error".
Proof.
  cbv zeta. eexists. split; vm_compute; reflexivity.
Qed.
